(** * Monte Carlo Pi: a shallow embedding of [main.cpp]

    The program launches one sampling thread per hardware thread.  Every
    thread draws points from two process-wide Mersenne twisters, counts the
    points that fall in the unit circle in its own cells of the global arrays
    [count] and [total], and thread 0 calls [analysis] every
    [analysis_samples_rate] iterations.  [main] raises the [retire] flags,
    joins the threads, adds the counters up and prints the report.

    The embedding keeps the code's data: [unsigned int] and [int] are
    integers with their 32-bit wrap-around written out, [long double] is the
    IEEE format with a 64-bit significand (what g++ uses on x86, the compiler
    named in the file's header), arrays are lists read and written by index.
    What [new T[n]] leaves in the cells is a parameter of the model.

    The threads are interleaved statement by statement: a schedule names the
    thread that runs its next statement, every statement sees the memory as
    the previous one left it, and a call of [analysis] is one step.  The
    random engines and distributions of the C++ library are a parameter: an
    engine state and a function that draws a [double] from it. *)

From Stdlib Require Import ZArith Lia Bool List QArith Qpower Lqa.
From Stdlib Require Import Floats.SpecFloat.
From stdpp Require Import base tactics option list.

Open Scope Z_scope.

(** ** Machine integers *)

Module MachineInt.

(** [unsigned int]: arithmetic modulo 2^32. *)
Definition wrap32 (z : Z) : Z := z mod 2 ^ 32.

(** [unsigned long long]: arithmetic modulo 2^64. *)
Definition wrap64 (z : Z) : Z := z mod 2 ^ 64.

(** Conversion to [int]: the value modulo 2^32 read as two's complement. *)
Definition to_int (z : Z) : Z :=
  let u := wrap32 z in if u <? 2 ^ 31 then u else u - 2 ^ 32.

(** [a += b] with [a] an [int] and [b] an [unsigned int]: [a] is converted
    to [unsigned int], the sum is taken modulo 2^32 and converted back. *)
Definition int_add_uint (a b : Z) : Z := to_int (wrap32 (wrap32 a + b)).

(** [a += b] on two [unsigned int]. *)
Definition uint_add (a b : Z) : Z := wrap32 (a + b).

End MachineInt.
Export MachineInt.

(** ** Floating point *)

Module LongDouble.

(** [double] is binary64; [long double] is the x87 extended format. *)
Definition dbl_prec : Z := 53.
Definition dbl_emax : Z := 1024.
Definition ld_prec : Z := 64.
Definition ld_emax : Z := 16384.

(** A [double] given by its integer significand and exponent. *)
Definition dbl (m e : Z) : spec_float := binary_normalize dbl_prec dbl_emax m e false.

(** Conversion of a [double] to [long double] (exact: only re-normalised). *)
Definition to_ld (d : spec_float) : spec_float :=
  match d with
  | S754_finite s m e => binary_round ld_prec ld_emax s m e
  | _ => d
  end.

(** Conversion of an [int] or an [unsigned int] to [long double]. *)
Definition of_Z (z : Z) : spec_float := binary_normalize ld_prec ld_emax z 0 false.

Definition ld_mul := SFmul ld_prec ld_emax.
Definition ld_add := SFadd ld_prec ld_emax.
Definition ld_sub := SFsub ld_prec ld_emax.
Definition ld_div := SFdiv ld_prec ld_emax.
Definition sqrtl := SFsqrt ld_prec ld_emax.
Definition ld_leb := SFleb.

(** The rational number a finite float stands for. *)
Definition pow2 (e : Z) : Q :=
  match e with
  | Z0 => 1%Q
  | Zpos p => inject_Z (2 ^ Zpos p)
  | Zneg p => Qmake 1 (2 ^ p)
  end.

Definition real_value (x : spec_float) : option Q :=
  match x with
  | S754_zero _ => Some 0%Q
  | S754_finite s m e =>
      Some (Qmult (inject_Z (if s then Zneg m else Zpos m)) (pow2 e))
  | _ => None
  end.

End LongDouble.
Export LongDouble.

(** ** Globals of the program *)

(** [#define analysis_samples_rate 1000000] *)
Definition analysis_samples_rate : Z := 1000000.

(** [const double test_pi = 3.14159265358979324]: the nearest [double],
    [0x1.921fb54442d18p+1]. *)
Definition test_pi : spec_float := dbl 7074237752028440 (-51).

(** [struct deviation] *)
Record deviation_t := mk_deviation {
  accuracy : spec_float;   (* long double *)
  points : Z               (* unsigned int *)
}.

(** [deviation::deviation(long double accuracy, unsigned int points)]: the
    second argument is converted to [unsigned int]. *)
Definition deviation_ctor (a : spec_float) (p : Z) : deviation_t :=
  mk_deviation a (wrap32 p).

(** Reading an array cell.  The program only reads cells below the size of
    the array; outside, the model reads 0 and [false]. *)
Definition cell (l : list Z) (i : nat) : Z := default 0 (l !! i).
Definition flag (l : list bool) (i : nat) : bool := default false (l !! i).

(** ** [analysis] *)

(** The loop [for (int i = 1; i < supported_threads; ++i)] of lines 204-209,
    started at index [i] with [k] iterations to go. *)
Fixpoint analysis_loop (count total : list Z) (i k : nat) (acc : Z * Z) : Z * Z :=
  match k with
  | O => acc
  | S k' =>
      analysis_loop count total (S i) k'
        (int_add_uint (fst acc) (cell count i), int_add_uint (snd acc) (cell total i))
  end.

Definition analysis_sums (n : nat) (count total : list Z) : Z * Z :=
  analysis_loop count total 1 (n - 1) (0, 0).

(** Line 211: [(long double)count_in / count_total * 4]. *)
Definition calculated_pi (count_in count_total : Z) : spec_float :=
  ld_mul (ld_div (of_Z count_in) (of_Z count_total)) (of_Z 4).

(** Line 215: the record pushed at the back of the list. *)
Definition analysis_record (n : nat) (count total : list Z) : deviation_t :=
  let '(count_in, count_total) := analysis_sums n count total in
  deviation_ctor (ld_sub (to_ld test_pi) (calculated_pi count_in count_total)) count_total.

(** ** Classification of a point, line 188 *)

Definition in_circle (x0 y0 : spec_float) : bool :=
  ld_leb (sqrtl (ld_add (ld_mul x0 x0) (ld_mul y0 y0))) (of_Z 1).

(** The same test on a platform whose [long double] is the 53-bit format of
    [double]. *)
Definition in_circle_binary64 (x0 y0 : spec_float) : bool :=
  SFleb
    (SFsqrt dbl_prec dbl_emax
       (SFadd dbl_prec dbl_emax (SFmul dbl_prec dbl_emax x0 x0)
          (SFmul dbl_prec dbl_emax y0 y0)))
    (dbl 1 0).


(** ** The threads *)

(** Where a sampling thread stands in [pi_count]. *)
Inductive worker_pc :=
  | WNotLaunched   (* its std::thread has not been constructed *)
  | WInitCount     (* line 170: count[n] = 0 *)
  | WInitTotal     (* line 171: total[n] = 0 *)
  | WCheckRetire   (* line 177: if (retire[n]) break *)
  | WDrawX         (* line 181: x0 = x(xgen) *)
  | WDrawY         (* line 181: y0 = y(ygen) *)
  | WClassify      (* lines 188-189: if (sqrtl(..) <= 1) ++count[n] *)
  | WIncTotal      (* line 190: ++total[n] *)
  | WAnalysis      (* lines 194-195, then ++i of line 174 *)
  | WExited.       (* left the loop and returned *)

(** The locals of [pi_count]; [n] is the position of the thread. *)
Record worker := mk_worker {
  wpc : worker_pc;
  wi : Z;               (* unsigned long long i *)
  wx0 : spec_float;     (* long double x0 *)
  wy0 : spec_float      (* long double y0 *)
}.

(** Where [main] stands. *)
Inductive main_pc :=
  | MStart                 (* lines 108-122 *)
  | MInitRetire (i : nat)  (* line 125: retire[i] = false *)
  | MLaunch (i : nat)      (* line 126: threads[i] = std::thread(..) *)
  | MGetchar               (* lines 130-131 *)
  | MSetRetire (i : nat)   (* lines 136-137: retire[i] = true *)
  | MJoin (i : nat)        (* line 138: threads[i].join() *)
  | MAggCount (i : nat)    (* line 144: count[0] += count[i] *)
  | MAggTotal (i : nat)    (* line 145: total[0] += count[i] *)
  | MReport                (* lines 149-159 *)
  | MDone.                 (* lines 162-164 *)

(** What the program prints: each line with the numbers that appear in it.
    The two counts of lines 149 and 158 are [unsigned int]s printed with
    [%d] and appear as [int]s (see [report_lines]); the number of threads of
    line 122 is kept as the number itself. *)
Inductive line :=
  | LLaunching (n : nat)                       (* line 122 *)
  | LPrompt                                    (* line 130 *)
  | LInterrupt (i : nat)                       (* line 136 *)
  | LResult (pi : spec_float) (points : Z)     (* line 149 *)
  | LHeader                                    (* line 153 *)
  | LDeviation (points : Z) (acc : spec_float) (* line 158 *).

Inductive tid := TMain | TWorker (k : nat).

#[global] Instance worker_pc_eq_dec : EqDecision worker_pc.
Proof. solve_decision. Defined.

#[global] Instance main_pc_eq_dec : EqDecision main_pc.
Proof. solve_decision. Defined.

#[global] Instance tid_eq_dec : EqDecision tid.
Proof. solve_decision. Defined.

Section Program.

(** The random engines and distributions come from the C++ library:
    [Gen] is the state of a [std::mt19937_64] and [draw] is
    [std::uniform_real_distribution<>(0, 1)] applied to an engine, giving a
    [double] and the advanced engine. *)
Variable Gen : Type.
Variable draw : Gen -> spec_float * Gen.

Record state := mk_state {
  supported_threads : nat;
  count : list Z;                (* unsigned int * count *)
  total : list Z;                (* unsigned int * total *)
  retire : list bool;            (* bool * retire *)
  xgen : Gen;
  ygen : Gen;
  deviation : list deviation_t;  (* std::list<deviation> deviation *)
  mpc : main_pc;
  workers : list worker;         (* std::thread * threads *)
  stdout : list line
}.

Definition set_count (v : list Z) (st : state) : state :=
  mk_state (supported_threads st) v (total st) (retire st) (xgen st) (ygen st)
    (deviation st) (mpc st) (workers st) (stdout st).
Definition set_total (v : list Z) (st : state) : state :=
  mk_state (supported_threads st) (count st) v (retire st) (xgen st) (ygen st)
    (deviation st) (mpc st) (workers st) (stdout st).
Definition set_retire (v : list bool) (st : state) : state :=
  mk_state (supported_threads st) (count st) (total st) v (xgen st) (ygen st)
    (deviation st) (mpc st) (workers st) (stdout st).
Definition set_xgen (v : Gen) (st : state) : state :=
  mk_state (supported_threads st) (count st) (total st) (retire st) v (ygen st)
    (deviation st) (mpc st) (workers st) (stdout st).
Definition set_ygen (v : Gen) (st : state) : state :=
  mk_state (supported_threads st) (count st) (total st) (retire st) (xgen st) v
    (deviation st) (mpc st) (workers st) (stdout st).
Definition set_deviation (v : list deviation_t) (st : state) : state :=
  mk_state (supported_threads st) (count st) (total st) (retire st) (xgen st) (ygen st)
    v (mpc st) (workers st) (stdout st).
Definition set_mpc (v : main_pc) (st : state) : state :=
  mk_state (supported_threads st) (count st) (total st) (retire st) (xgen st) (ygen st)
    (deviation st) v (workers st) (stdout st).
Definition set_worker (k : nat) (w : worker) (st : state) : state :=
  mk_state (supported_threads st) (count st) (total st) (retire st) (xgen st) (ygen st)
    (deviation st) (mpc st) (<[k := w]> (workers st)) (stdout st).
Definition print (l : list line) (st : state) : state :=
  mk_state (supported_threads st) (count st) (total st) (retire st) (xgen st) (ygen st)
    (deviation st) (mpc st) (workers st) (stdout st ++ l).

(** *** [analysis], lines 199-216 *)
Definition analysis (st : state) : state :=
  set_deviation
    (deviation st ++ [analysis_record (supported_threads st) (count st) (total st)]) st.

(** *** [pi_count], lines 167-197 *)

(** [pi_count n st] runs the next statement of the thread [pi_count(n)]. *)

Definition at_pc (pc : worker_pc) (w : worker) : worker :=
  mk_worker pc (wi w) (wx0 w) (wy0 w).

Definition pi_count (n : nat) (st : state) : state :=
  match workers st !! n with
  | None => st
  | Some w =>
      match wpc w with
      | WNotLaunched => st
      | WInitCount =>
          set_worker n (at_pc WInitTotal w) (set_count (<[n := 0]> (count st)) st)
      | WInitTotal =>
          set_worker n (mk_worker WCheckRetire 0 (wx0 w) (wy0 w))
            (set_total (<[n := 0]> (total st)) st)
      | WCheckRetire =>
          if flag (retire st) n then set_worker n (at_pc WExited w) st
          else set_worker n (at_pc WDrawX w) st
      | WDrawX =>
          let '(v, g) := draw (xgen st) in
          set_worker n (mk_worker WDrawY (wi w) (to_ld v) (wy0 w)) (set_xgen g st)
      | WDrawY =>
          let '(v, g) := draw (ygen st) in
          set_worker n (mk_worker WClassify (wi w) (wx0 w) (to_ld v)) (set_ygen g st)
      | WClassify =>
          set_worker n (at_pc WIncTotal w)
            (if in_circle (wx0 w) (wy0 w)
             then set_count (<[n := uint_add (cell (count st) n) 1]> (count st)) st
             else st)
      | WIncTotal =>
          set_worker n (at_pc WAnalysis w)
            (set_total (<[n := uint_add (cell (total st) n) 1]> (total st)) st)
      | WAnalysis =>
          set_worker n (mk_worker WCheckRetire (wrap64 (wi w + 1)) (wx0 w) (wy0 w))
            (if Nat.eqb n 0 && (wi w mod analysis_samples_rate =? 0)
             then analysis st else st)
      | WExited => st
      end
  end.

(** *** [main], lines 105-165 *)

(** The loop tests [i < supported_threads] of lines 123, 134 and 142,
    with [n] the value of [supported_threads]. *)
Definition launch_from (i n : nat) : main_pc :=
  if Nat.ltb i n then MInitRetire i else MGetchar.
Definition aggregate_from (i n : nat) : main_pc :=
  if Nat.ltb i n then MAggCount i else MReport.
Definition stop_from (i n : nat) : main_pc :=
  if Nat.ltb i n then MSetRetire i else aggregate_from 1 n.

(** What [new T[n]] returns is not initialised: the cells hold whatever
    the allocator left there, here [junk_count], [junk_total] and
    [junk_retire] at each index. *)
Variable junk_count junk_total : nat -> Z.
Variable junk_retire : nat -> bool.

Definition new_array {A} (junk : nat -> A) (n : nat) : list A := junk <$> seq 0 n.

(** Lines 108-110: the number of threads. *)
Definition thread_count (hardware_concurrency : nat) : nat :=
  if Nat.eqb hardware_concurrency 0 then 2%nat else hardware_concurrency.

(** Lines 108-122: the number of threads, the arrays and the thread
    handles. *)
Definition allocate (st : state) : state :=
  let n := thread_count (supported_threads st) in
  mk_state n
    (new_array (fun i => wrap32 (junk_count i)) n)
    (new_array (fun i => wrap32 (junk_total i)) n)
    (new_array junk_retire n)
    (xgen st) (ygen st) (deviation st) (launch_from 0 n)
    (replicate n (mk_worker WNotLaunched 0 (S754_zero false) (S754_zero false)))
    (stdout st ++ [LLaunching n]).

(** Lines 149-158.  [total[0]] and [diff.points] are [unsigned int]s printed
    with [%d]: what appears is the value read as an [int], so a count of
    2^31 or more is printed as the value minus 2^32. *)
Definition report_lines (st : state) : list line :=
  [LResult (ld_mul (ld_div (of_Z (cell (count st) 0)) (of_Z (cell (total st) 0))) (of_Z 4))
     (to_int (cell (total st) 0));
   LHeader]
  ++ ((fun d => LDeviation (to_int (points d)) (accuracy d)) <$> deviation st).

(** [main st] runs the next statement of [main].  In [threads[i].join()] it
    stays where it is until thread [i] has returned. *)
Definition main (st : state) : state :=
  let n := supported_threads st in
  match mpc st with
  | MStart => allocate st
  | MInitRetire i => set_mpc (MLaunch i) (set_retire (<[i := false]> (retire st)) st)
  | MLaunch i =>
      set_mpc (launch_from (S i) n)
        (set_worker i (mk_worker WInitCount 0 (S754_zero false) (S754_zero false)) st)
  | MGetchar => set_mpc (stop_from 0 n) (print [LPrompt] st)
  | MSetRetire i =>
      set_mpc (MJoin i) (set_retire (<[i := true]> (retire st)) (print [LInterrupt i] st))
  | MJoin i =>
      match workers st !! i with
      | Some w =>
          match wpc w with
          | WExited => set_mpc (stop_from (S i) n) st
          | _ => st
          end
      | None => st
      end
  | MAggCount i =>
      set_mpc (MAggTotal i)
        (set_count (<[0%nat := uint_add (cell (count st) 0) (cell (count st) i)]> (count st)) st)
  | MAggTotal i =>
      set_mpc (aggregate_from (S i) n)
        (set_total (<[0%nat := uint_add (cell (total st) 0) (cell (count st) i)]> (total st)) st)
  | MReport => set_mpc MDone (set_deviation [] (print (report_lines st) st))
  | MDone => st
  end.

(** *** The whole program *)

(** The state when [main] is entered: the globals are initialised,
    [supported_threads] holds [std::thread::hardware_concurrency()], the
    engines are seeded, no array is allocated. *)
Definition initial (hardware_concurrency : nat) (seedx seedy : Gen) : state :=
  mk_state hardware_concurrency [] [] [] seedx seedy [] MStart [] [].

Definition step (t : tid) (st : state) : state :=
  match t with
  | TMain => main st
  | TWorker k => pi_count k st
  end.

(** A schedule names the thread that takes each step. *)
Definition run (sched : list tid) (st : state) : state :=
  fold_left (fun s t => step t s) sched st.

Definition wpc_of (st : state) (k : nat) : worker_pc :=
  match workers st !! k with
  | Some w => wpc w
  | None => WNotLaunched
  end.

Definition wi_of (st : state) (k : nat) : Z :=
  match workers st !! k with
  | Some w => wi w
  | None => 0
  end.

Definition wx0_of (st : state) (k : nat) : spec_float :=
  match workers st !! k with
  | Some w => wx0 w
  | None => S754_zero false
  end.

Definition wy0_of (st : state) (k : nat) : spec_float :=
  match workers st !! k with
  | Some w => wy0 w
  | None => S754_zero false
  end.

End Program.

Arguments mk_state {Gen}.
Arguments supported_threads {Gen}.
Arguments count {Gen}.
Arguments total {Gen}.
Arguments retire {Gen}.
Arguments xgen {Gen}.
Arguments ygen {Gen}.
Arguments deviation {Gen}.
Arguments mpc {Gen}.
Arguments workers {Gen}.
Arguments stdout {Gen}.
Arguments analysis {Gen}.
Arguments pi_count {Gen}.
Arguments main {Gen}.
Arguments initial {Gen}.
Arguments step {Gen}.
Arguments run {Gen}.
Arguments wpc_of {Gen}.
Arguments wi_of {Gen}.
Arguments wx0_of {Gen}.
Arguments wy0_of {Gen}.
Arguments allocate {Gen}.
Arguments report_lines {Gen}.
Arguments set_count {Gen}.
Arguments set_total {Gen}.
Arguments set_retire {Gen}.
Arguments set_xgen {Gen}.
Arguments set_ygen {Gen}.
Arguments set_deviation {Gen}.
Arguments set_mpc {Gen}.
Arguments set_worker {Gen}.
Arguments print {Gen}.

(** ** A concrete random source, for running the model *)

(** The engine replays a fixed list of [double]s: its state is the position
    in the list. *)
Definition tape_draw (tape : list spec_float) (pos : nat) : spec_float * nat :=
  (nth pos tape (S754_zero false), S pos).

Definition half : spec_float := dbl 1 (-1).
Definition seven_eighths : spec_float := dbl 7 (-3).

(** ** Specification-level sums *)

(** The true sum of the cells [i], [i+1], .., [i+k-1]. *)
Fixpoint slot_sum (l : list Z) (i k : nat) : Z :=
  match k with
  | O => 0
  | S k' => cell l i + slot_sum l (S i) k'
  end.

Definition sumZ (l : list Z) : Z := foldr Z.add 0 l.


(** ** Scenarios *)

(** Two hardware threads; the allocator leaves 7 in every cell of [count],
    9 in every cell of [total] and [true] in every cell of [retire]. *)
Definition run2 (tape : list spec_float) (sched : list tid) : state nat :=
  run (tape_draw tape) (fun _ => 7) (fun _ => 9) (fun _ => true) sched
    (initial 2 0%nat 0%nat).

(** [main] up to the launch of both threads. *)
Definition launch2 : list tid := repeat TMain 5.

(** The two initialising statements of [pi_count], and one iteration. *)
Definition init_of (k : nat) : list tid := repeat (TWorker k) 2.
Definition iteration_of (k : nat) : list tid := repeat (TWorker k) 6.

(** [main] launches thread 0, which then runs its two initialising
    statements and one whole iteration before anything else happens. *)
Definition lead_first : list tid := repeat TMain 3 ++ repeat (TWorker 0) 8.

(** Two threads, the second one past 2^31 samples. *)
Definition big_slots : state nat :=
  mk_state 2%nat [0; 2 ^ 31] [0; 2 ^ 31 + 8] [false; false] 0%nat 0%nat
    [] MGetchar [] [].

(** Two threads, the second one initialised and not yet sampling. *)
Definition idle_slots : state nat :=
  mk_state 2%nat [1; 0] [1; 0] [false; false] 0%nat 0%nat
    [] MGetchar [] [].

(** Both threads launched and initialised, each about to draw an abscissa. *)
Definition both_drawing : list tid :=
  launch2 ++ init_of 0 ++ init_of 1 ++ [TWorker 0; TWorker 1].

(** Thread 0 samples a point inside the circle, thread 1 a point outside;
    then the user stops the program and [main] joins both threads. *)
Definition sample_and_join : list tid :=
  launch2 ++ init_of 0 ++ iteration_of 0 ++ init_of 1 ++ iteration_of 1
  ++ [TMain; TMain; TWorker 0; TMain; TMain; TWorker 1; TMain].

(** Two [double]s in [0, 1): 2^-26 and 1 - 2^-53. *)
Definition tiny : spec_float := dbl 1 (-26).
Definition near_one : spec_float := dbl (2 ^ 53 - 1) (-53).

(** [x0^2 + y0^2 <= 1] on the exact values of two finite floats. *)
Definition exactly_in_circle (x0 y0 : spec_float) : option bool :=
  match real_value x0, real_value y0 with
  | Some x, Some y => Some (Qle_bool (x * x + y * y) 1)
  | _, _ => None
  end.

(** [0 <= x < 1] on the exact value of a finite float. *)
Definition in_unit_interval (x : spec_float) : option bool :=
  match real_value x with
  | Some q => Some (Qle_bool 0 q && negb (Qle_bool 1 q))
  | None => None
  end.

(** ** Invariants of the interleaved program *)

Section InvariantDefs.

Context {Gen : Type}.
Variable junk_count junk_total : nat -> Z.
Implicit Type st : state Gen.

(** Once [main] has allocated them, every array has one cell per thread. *)
Definition sized st : Prop :=
  (mpc st = MStart ->
   count st = [] /\ total st = [] /\ retire st = [] /\ workers st = []
   /\ deviation st = [])
  /\ (mpc st <> MStart ->
      (1 <= supported_threads st)%nat
      /\ length (count st) = supported_threads st
      /\ length (total st) = supported_threads st
      /\ length (retire st) = supported_threads st
      /\ length (workers st) = supported_threads st).

Definition exited_below st (i : nat) : Prop :=
  forall j, (j < i)%nat -> wpc_of st j = WExited.

Definition not_launched_from st (i : nat) : Prop :=
  forall j, (i <= j)%nat -> wpc_of st j = WNotLaunched.

(** How far the threads are, given how far [main] is. *)
Definition stage st : Prop :=
  match mpc st with
  | MStart | MGetchar => True
  | MInitRetire i | MLaunch i =>
      (i < supported_threads st)%nat /\ not_launched_from st i
  | MSetRetire i | MJoin i =>
      (i < supported_threads st)%nat /\ exited_below st i
  | MAggCount i | MAggTotal i =>
      (1 <= i < supported_threads st)%nat /\ exited_below st (supported_threads st)
  | MReport | MDone => exited_below st (supported_threads st)
  end.

Definition flags_below st (i : nat) (b : bool) : Prop :=
  forall j, (j < i)%nat -> (j < supported_threads st)%nat -> flag (retire st) j = b.

Definition flags_from st (i : nat) (b : bool) : Prop :=
  forall j, (i <= j)%nat -> (j < supported_threads st)%nat -> flag (retire st) j = b.

(** The [retire] flags, given how far [main] is. *)
Definition retire_inv st : Prop :=
  match mpc st with
  | MStart => True
  | MInitRetire i => flags_below st i false
  | MLaunch i => flags_below st (S i) false
  | MGetchar => flags_below st (supported_threads st) false
  | MSetRetire i => flags_below st i true /\ flags_from st i false
  | MJoin i => flags_below st (S i) true /\ flags_from st (S i) false
  | MAggCount _ | MAggTotal _ | MReport | MDone =>
      flags_below st (supported_threads st) true
  end.

(** The counters of a thread that has not run its two initialising
    statements still hold what the allocator left. *)
Definition junk_inv st : Prop :=
  mpc st <> MStart ->
  forall k, (k < supported_threads st)%nat ->
    match wpc_of st k with
    | WNotLaunched | WInitCount =>
        cell (count st) k = wrap32 (junk_count k)
        /\ cell (total st) k = wrap32 (junk_total k)
    | WInitTotal =>
        cell (count st) k = 0 /\ cell (total st) k = wrap32 (junk_total k)
    | _ => True
    end.

(** [total[k]] is the number of samples thread [k] has committed,
    modulo 2^32. *)
Definition totals_inv st : Prop :=
  forall k w, workers st !! k = Some w ->
    match wpc w with
    | WCheckRetire | WDrawX | WDrawY | WClassify | WIncTotal =>
        cell (total st) k = wrap32 (wi w)
    | WAnalysis => cell (total st) k = wrap32 (wi w + 1)
    | _ => True
    end.

(** The counters of a thread inside its loop, against its loop counter;
    [m] bounds the number of steps taken so far. *)
Definition counters_inv (m : Z) st : Prop :=
  forall k w, workers st !! k = Some w ->
    0 <= wi w <= m
    /\ match wpc w with
       | WCheckRetire | WDrawX | WDrawY | WClassify =>
           cell (total st) k = wrap32 (wi w)
           /\ (wi w < 2 ^ 32 -> 0 <= cell (count st) k <= wi w)
       | WIncTotal =>
           cell (total st) k = wrap32 (wi w)
           /\ (wi w < 2 ^ 32 -> 0 <= cell (count st) k <= wi w + 1)
       | WAnalysis =>
           cell (total st) k = wrap32 (wi w + 1)
           /\ (wi w < 2 ^ 32 -> 0 <= cell (count st) k <= wi w + 1)
       | WInitTotal => cell (count st) k = 0
       | _ => True
       end.

Definition in_loop (pc : worker_pc) : Prop :=
  match pc with
  | WCheckRetire | WDrawX | WDrawY | WClassify | WIncTotal | WAnalysis => True
  | _ => False
  end.

(** As long as no record was pushed, thread 0 is in its first iteration. *)
Definition first_inv st : Prop :=
  deviation st = [] -> in_loop (wpc_of st 0) -> wi_of st 0 = 0.

(** [main] has raised the flag of thread [k]. *)
Definition stop_requested st (k : nat) : Prop :=
  match mpc st with
  | MStart | MInitRetire _ | MLaunch _ | MGetchar => False
  | MSetRetire i => (k < i)%nat
  | MJoin i => (k <= i)%nat
  | MAggCount _ | MAggTotal _ | MReport | MDone => True
  end.

(** What holds after any schedule. *)
Definition invariant st : Prop :=
  sized st /\ stage st /\ retire_inv st /\ junk_inv st /\ totals_inv st
  /\ first_inv st.

End InvariantDefs.

(** ** What the rounded operations are specified against *)

(** [float_at lo hi r R]: [r] is a positive [long double] with a 64-bit
    significand, an exponent in [[lo, hi]] and the value [R]. *)
Definition float_at (lo hi : Z) (r : spec_float) (R : Q) : Prop :=
  exists m e,
    r = S754_finite false m e
    /\ 2 ^ 63 <= Zpos m < 2 ^ 64
    /\ lo <= e <= hi
    /\ (R == inject_Z (Zpos m) * pow2 e)%Q.

(** [nearest_even V k R]: [R] is [V] rounded to the nearest multiple of
    [2^k], to the even one in a tie. *)
Definition nearest_even (V : Q) (k : Z) (R : Q) : Prop :=
  (R - V <= pow2 (k - 1) /\ V - R <= pow2 (k - 1))%Q
  /\ (forall c, V <= inject_Z c * pow2 k -> R <= inject_Z c * pow2 k)%Q
  /\ (forall c, inject_Z c * pow2 k <= V -> inject_Z c * pow2 k <= R)%Q
  /\ (forall c, Z.even c = true ->
        V <= inject_Z c * pow2 k + pow2 (k - 1) -> R <= inject_Z c * pow2 k)%Q
  /\ (forall c, Z.even c = true ->
        inject_Z c * pow2 k - pow2 (k - 1) <= V -> inject_Z c * pow2 k <= R)%Q.

(** ** Further invariants and measures *)

Section MoreInvariantDefs.

Context {Gen : Type}.
Implicit Type st : state Gen.

(** The number of threads is fixed by the first statements of [main]. *)
Definition threads_inv (hardware_concurrency : nat) st : Prop :=
  (mpc st = MStart -> supported_threads st = hardware_concurrency)
  /\ (mpc st <> MStart -> supported_threads st = thread_count hardware_concurrency).

(** The threads [main] has launched so far. *)
Definition launched_inv st : Prop :=
  forall j, (j < supported_threads st)%nat ->
    match mpc st with
    | MStart => True
    | MInitRetire i | MLaunch i => (j < i)%nat -> wpc_of st j <> WNotLaunched
    | _ => wpc_of st j <> WNotLaunched
    end.

(** A thread has returned only if its flag is raised. *)
Definition exited_inv st : Prop :=
  forall k, wpc_of st k = WExited -> flag (retire st) k = true.

(** The lines printed so far, given how far [main] is. *)
Definition interrupts (i : nat) : list line := LInterrupt <$> seq 0 i.

Definition stdout_inv st : Prop :=
  let n := supported_threads st in
  match mpc st with
  | MStart => stdout st = []
  | MInitRetire _ | MLaunch _ | MGetchar => stdout st = [LLaunching n]
  | MSetRetire i => stdout st = [LLaunching n; LPrompt] ++ interrupts i
  | MJoin i => stdout st = [LLaunching n; LPrompt] ++ interrupts (S i)
  | MAggCount _ | MAggTotal _ | MReport =>
      stdout st = [LLaunching n; LPrompt] ++ interrupts n
  | MDone =>
      exists pi pts recs,
        stdout st
        = [LLaunching n; LPrompt] ++ interrupts n ++ [LResult pi pts; LHeader]
          ++ ((fun d => LDeviation (points d) (accuracy d)) <$> recs)
  end.

(** The number of checkpoints among the iterations 0 .. i-1: the multiples
    of [analysis_samples_rate] below [i]. *)
Definition records_due (i : Z) : Z :=
  (i + analysis_samples_rate - 1) / analysis_samples_rate.

(** Until the report drains it, the list holds one record per checkpoint
    thread 0 has passed; [m] bounds the number of steps taken so far. *)
Definition records_inv (m : Z) st : Prop :=
  mpc st <> MDone ->
  match workers st !! 0%nat with
  | Some w =>
      0 <= wi w <= m
      /\ (wpc w = WNotLaunched \/ wpc w = WInitCount \/ wpc w = WInitTotal -> wi w = 0)
      /\ Z.of_nat (length (deviation st)) = records_due (wi w)
  | None => deviation st = []
  end.

(** How many of its own statements a thread whose flag is raised still runs
    before it returns. *)
Definition steps_left (pc : worker_pc) : nat :=
  match pc with
  | WNotLaunched | WExited => 0
  | WCheckRetire => 1
  | WAnalysis | WInitTotal => 2
  | WIncTotal | WInitCount => 3
  | WClassify => 4
  | WDrawY => 5
  | WDrawX => 6
  end.

(** The statements of [main] that remain, with the joins counted once. *)
Definition main_rank st : nat :=
  let n := supported_threads st in
  match mpc st with
  | MStart => 0
  | MInitRetire i => 2 * (n - i) + (4 * n + 2)
  | MLaunch i => 2 * (n - i) - 1 + (4 * n + 2)
  | MGetchar => 4 * n + 2
  | MSetRetire i => 2 * (n - i) + (2 * n + 1)
  | MJoin i => 2 * (n - i) - 1 + (2 * n + 1)
  | MAggCount i => 2 * (n - i) + 1
  | MAggTotal i => 2 * (n - i)
  | MReport => 1
  | MDone => 0
  end.

(** What also holds after any schedule. *)
Definition more_invariant (hardware_concurrency : nat) st : Prop :=
  threads_inv hardware_concurrency st /\ launched_inv st /\ exited_inv st
  /\ stdout_inv st.

End MoreInvariantDefs.

(** The steps of thread [k] in a schedule. *)
Definition own_steps (k : nat) (sched : list tid) : nat :=
  length (filter (fun t => t = TWorker k) sched).

(** Two threads joined after thread 1 has drawn more than 2^31 points, with
    the record of a checkpoint taken at that time. *)
Definition late_report : state nat :=
  mk_state 2%nat [0; 2 ^ 31] [1; 2 ^ 31 + 8] [true; true] 0%nat 0%nat
    [analysis_record 2 [0; 2 ^ 31] [0; 2 ^ 31 + 8]]
    (MAggCount 1)
    (replicate 2 (mk_worker WExited 0 (S754_zero false) (S754_zero false)))
    [LLaunching 2; LPrompt; LInterrupt 0; LInterrupt 1].
(** * Properties *)

(** ** Machine arithmetic *)

Lemma wrap32_range z : 0 <= wrap32 z < 2 ^ 32.
Proof. unfold wrap32. apply Z.mod_pos_bound. lia. Qed.

Lemma wrap32_small z : 0 <= z < 2 ^ 32 -> wrap32 z = z.
Proof. intros H. unfold wrap32. apply Z.mod_small. exact H. Qed.

Lemma wrap32_idemp z : wrap32 (wrap32 z) = wrap32 z.
Proof. unfold wrap32. apply Z.mod_mod. lia. Qed.

Lemma wrap32_add_l a b : wrap32 (wrap32 a + b) = wrap32 (a + b).
Proof. unfold wrap32. apply Zplus_mod_idemp_l. Qed.

Lemma wrap32_wrap64 z : wrap32 (wrap64 z) = wrap32 z.
Proof.
  unfold wrap32, wrap64. apply Z.mod_mod_divide.
  exists (2 ^ 32). reflexivity.
Qed.

Lemma to_int_range z : - 2 ^ 31 <= to_int z < 2 ^ 31.
Proof.
  unfold to_int. pose proof (wrap32_range z) as H.
  destruct (wrap32 z <? 2 ^ 31) eqn:E; [apply Z.ltb_lt in E | apply Z.ltb_ge in E]; lia.
Qed.

Lemma to_int_small z : - 2 ^ 31 <= z < 2 ^ 31 -> to_int z = z.
Proof.
  intros H. unfold to_int, wrap32.
  destruct (Z_lt_le_dec z 0) as [Hneg | Hpos].
  - assert (Hm : z mod 2 ^ 32 = z + 2 ^ 32).
    { symmetry. apply (Z.mod_unique z (2 ^ 32) (-1)); lia. }
    rewrite Hm. destruct (z + 2 ^ 32 <? 2 ^ 31) eqn:E;
      [apply Z.ltb_lt in E | apply Z.ltb_ge in E]; lia.
  - rewrite Z.mod_small by lia.
    destruct (z <? 2 ^ 31) eqn:E; [apply Z.ltb_lt in E | apply Z.ltb_ge in E]; lia.
Qed.

Lemma to_int_wrap32 z : to_int (wrap32 z) = to_int z.
Proof. unfold to_int. rewrite wrap32_idemp. reflexivity. Qed.

Lemma wrap32_to_int z : wrap32 (to_int z) = wrap32 z.
Proof.
  unfold to_int. destruct (wrap32 z <? 2 ^ 31).
  - apply wrap32_idemp.
  - unfold wrap32. rewrite <- (Z.mod_add (z mod 2 ^ 32 - 2 ^ 32) 1 (2 ^ 32)) by lia.
    replace (z mod 2 ^ 32 - 2 ^ 32 + 1 * 2 ^ 32) with (z mod 2 ^ 32) by lia.
    apply Z.mod_mod. lia.
Qed.

(** An [int] accumulator that receives [unsigned int] values holds the true
    sum modulo 2^32, read as a signed number. *)
Lemma int_add_uint_to_int a b : int_add_uint (to_int a) b = to_int (a + b).
Proof.
  unfold int_add_uint. rewrite to_int_wrap32, wrap32_to_int.
  rewrite <- to_int_wrap32, wrap32_add_l, to_int_wrap32. reflexivity.
Qed.

(** ** The sums of [analysis] *)

Lemma slot_sum_drop l : forall i k, (i + k = length l)%nat -> slot_sum l i k = sumZ (drop i l).
Proof.
  intros i k. revert i. induction k as [| k IH]; intros i H; simpl.
  - rewrite drop_ge by lia. reflexivity.
  - unfold cell. destruct (l !! i) as [x |] eqn:E.
    + rewrite (drop_S l x i E). simpl. rewrite IH by lia. reflexivity.
    + apply lookup_ge_None in E. lia.
Qed.

(** With one cell per thread the loop of [analysis] covers the cells
    1 .. n-1: everything but the first. *)
Lemma slot_sum_tail l : slot_sum l 1 (length l - 1) = sumZ (tail l).
Proof.
  destruct l as [| x l]; [reflexivity |].
  rewrite slot_sum_drop by (simpl; lia). reflexivity.
Qed.

Lemma slot_sum_nonneg l :
  Forall (fun x => 0 <= x) l -> forall i k, 0 <= slot_sum l i k.
Proof.
  intros Hl i k. revert i. induction k as [| k IH]; intros i; simpl; [lia |].
  specialize (IH (S i)). unfold cell.
  destruct (l !! i) as [x |] eqn:E; simpl; [| lia].
  rewrite Forall_forall in Hl. specialize (Hl x (list_elem_of_lookup_2 _ _ _ E)). lia.
Qed.

Lemma analysis_loop_sum count total : forall k i a b,
  analysis_loop count total i k (to_int a, to_int b)
  = (to_int (a + slot_sum count i k), to_int (b + slot_sum total i k)).
Proof.
  induction k as [| k IH]; intros i a b; simpl.
  - rewrite !Z.add_0_r. reflexivity.
  - rewrite !int_add_uint_to_int, IH. f_equal; f_equal; lia.
Qed.

Lemma analysis_sums_spec n count total :
  analysis_sums n count total
  = (to_int (slot_sum count 1 (n - 1)), to_int (slot_sum total 1 (n - 1))).
Proof.
  unfold analysis_sums.
  change (0, 0) with (to_int 0, to_int 0). rewrite analysis_loop_sum. reflexivity.
Qed.

(** ** [analysis] *)

Section AnalysisFacts.

Context {Gen : Type}.
Implicit Type st : state Gen.

Lemma analysis_deviation st :
  deviation (analysis st)
  = deviation st
    ++ [analysis_record (supported_threads st) (count st) (total st)].
Proof. reflexivity. Qed.

Lemma analysis_frame st :
  count (analysis st) = count st /\ total (analysis st) = total st
  /\ retire (analysis st) = retire st /\ workers (analysis st) = workers st
  /\ mpc (analysis st) = mpc st /\ supported_threads (analysis st) = supported_threads st
  /\ xgen (analysis st) = xgen st /\ ygen (analysis st) = ygen st
  /\ stdout (analysis st) = stdout st.
Proof. repeat split. Qed.

Lemma analysis_record_spec n cs ts :
  analysis_record n cs ts
  = mk_deviation
      (ld_sub (to_ld test_pi)
         (calculated_pi (to_int (slot_sum cs 1 (n - 1))) (to_int (slot_sum ts 1 (n - 1)))))
      (wrap32 (slot_sum ts 1 (n - 1))).
Proof.
  unfold analysis_record. rewrite analysis_sums_spec.
  unfold deviation_ctor. rewrite wrap32_to_int. reflexivity.
Qed.

End AnalysisFacts.

Lemma of_Z_0 : of_Z 0 = S754_zero false.
Proof. reflexivity. Qed.

(** Dividing by a floating-point zero never gives a finite number. *)
Lemma ld_div_zero_not_finite x s :
  ld_div x (S754_zero s) = S754_nan \/ exists s', ld_div x (S754_zero s) = S754_infinity s'.
Proof. destruct x as [sx | sx | | sx m e]; simpl; eauto. Qed.

Lemma deviation_of_infinite q :
  q = S754_nan \/ (exists s, q = S754_infinity s) ->
  let a := ld_sub (to_ld test_pi) (ld_mul q (of_Z 4)) in
  a = S754_nan \/ exists s, a = S754_infinity s.
Proof.
  intros [-> | [s ->]]; [left; reflexivity |].
  right. exists (negb s). destruct s; reflexivity.
Qed.

(** * Floating point: what the rounded operations compute *)

(** ** Number of digits *)

Lemma digits2_pos_spec p :
  2 ^ (Zpos (digits2_pos p) - 1) <= Zpos p < 2 ^ Zpos (digits2_pos p).
Proof.
  induction p as [p IH | p IH |]; cbn [digits2_pos].
  - rewrite Pos2Z.inj_succ, Z.pow_succ_r by lia.
    replace (Z.succ (Zpos (digits2_pos p)) - 1) with (Z.succ (Zpos (digits2_pos p) - 1)) by lia.
    rewrite Z.pow_succ_r by lia. lia.
  - rewrite Pos2Z.inj_succ, Z.pow_succ_r by lia.
    replace (Z.succ (Zpos (digits2_pos p)) - 1) with (Z.succ (Zpos (digits2_pos p) - 1)) by lia.
    rewrite Z.pow_succ_r by lia. lia.
  - simpl. lia.
Qed.

Lemma digits2_pos_unique p d :
  2 ^ (d - 1) <= Zpos p < 2 ^ d -> Zpos (digits2_pos p) = d.
Proof.
  intros [Hlo Hhi]. pose proof (digits2_pos_spec p) as [Hlo' Hhi'].
  assert (Hd : 0 < d).
  { destruct (Z.lt_ge_cases 0 d) as [H | H]; [exact H |].
    destruct (Z.eq_dec d 0) as [-> | Hne]; [simpl in Hhi; lia |].
    rewrite Z.pow_neg_r in Hhi by lia. lia. }
  destruct (Z.lt_trichotomy (Zpos (digits2_pos p)) d) as [H | [H | H]]; [| exact H |].
  - assert (2 ^ Zpos (digits2_pos p) <= 2 ^ (d - 1)) by (apply Z.pow_le_mono_r; lia). lia.
  - assert (2 ^ d <= 2 ^ (Zpos (digits2_pos p) - 1)) by (apply Z.pow_le_mono_r; lia). lia.
Qed.

(** ** Shifting right with a round bit and a sticky bit *)

Lemma iter_pos_nat {A : Type} (f : A -> A) p x :
  SpecFloat.iter_pos f p x = Nat.iter (Pos.to_nat p) f x.
Proof.
  revert x. induction p as [p IH | p IH |]; intros x; cbn [SpecFloat.iter_pos].
  - rewrite !IH, Pos2Nat.inj_xI.
    replace (S (2 * Pos.to_nat p)) with (Pos.to_nat p + Pos.to_nat p + 1)%nat by lia.
    rewrite !Nat.iter_add. reflexivity.
  - rewrite !IH, Pos2Nat.inj_xO.
    replace (2 * Pos.to_nat p)%nat with (Pos.to_nat p + Pos.to_nat p)%nat by lia.
    rewrite Nat.iter_add. reflexivity.
  - reflexivity.
Qed.

Lemma shr_1_spec m r s :
  0 <= m -> shr_1 (Build_shr_record m r s) = Build_shr_record (m / 2) (Z.odd m) (r || s).
Proof.
  intros Hm. destruct m as [| [p | p |] |]; try lia; cbn [shr_1].
  - reflexivity.
  - rewrite Pos2Z.inj_xI. f_equal.
    rewrite Z.mul_comm, Z.div_add_l by lia. reflexivity.
  - rewrite Pos2Z.inj_xO. f_equal. rewrite Z.mul_comm, Z.div_mul by lia. reflexivity.
  - reflexivity.
Qed.

(** After [k] shifts of [M]: the quotient, and where the remainder stands
    with respect to half of [2^k]. *)
Lemma shr_iter_spec M k :
  0 <= M ->
  let mrs := Nat.iter k shr_1 (Build_shr_record M false false) in
  exists rem,
    0 <= rem < 2 ^ Z.of_nat k
    /\ 0 <= shr_m mrs
    /\ M = 2 ^ Z.of_nat k * shr_m mrs + rem
    /\ (shr_r mrs = true <-> 2 ^ Z.of_nat k <= 2 * rem)
    /\ (shr_s mrs = true <-> 0 < rem /\ 2 * rem <> 2 ^ Z.of_nat k).
Proof.
  intros HM. induction k as [| k IH]; cbn zeta.
  - exists 0. simpl. repeat split; try lia; try discriminate.
  - cbn zeta in IH. destruct IH as (rem & Hrem & Hm0 & HMeq & Hr & Hs).
    rewrite Nat.iter_succ. destruct (Nat.iter k shr_1 _) as [m r s]. cbn [shr_m shr_r shr_s] in *.
    rewrite shr_1_spec by exact Hm0. cbn [shr_m shr_r shr_s].
    rewrite Nat2Z.inj_succ, Z.pow_succ_r by lia.
    set (P := 2 ^ Z.of_nat k) in *.
    assert (HP : 0 < P) by (apply Z.pow_pos_nonneg; lia).
    pose proof (Z.div_mod m 2 ltac:(lia)) as Hdm.
    pose proof (Z.mod_pos_bound m 2 ltac:(lia)) as Hb.
    assert (Hq : 0 <= m / 2) by (apply Z.div_pos; lia).
    assert (Hodd : Z.odd m = true <-> m mod 2 = 1).
    { rewrite Zodd_mod. destruct (Z.eqb_spec (m mod 2) 1); split; congruence. }
    set (q := m / 2) in *. set (b := m mod 2) in *.
    exists (b * P + rem).
    assert (Hb' : b = 0 \/ b = 1) by lia.
    split; [destruct Hb' as [-> | ->]; lia |].
    split; [exact Hq |].
    split; [rewrite HMeq, Hdm; ring |].
    split.
    + rewrite Hodd. destruct Hb' as [-> | ->]; lia.
    + rewrite orb_true_iff, Hr, Hs. destruct Hb' as [-> | ->]; lia.
Qed.

(** [round_nearest_even] after [k] shifts: the nearest multiple of [2^k],
    the even one in a tie. *)
Lemma round_shr_spec M k :
  0 <= M ->
  let mrs := Nat.iter k shr_1 (Build_shr_record M false false) in
  let m2 := round_nearest_even (shr_m mrs) (loc_of_shr_record mrs) in
  let P := 2 ^ Z.of_nat k in
  exists m1 rem,
    0 <= rem < P /\ 0 <= m1 /\ M = P * m1 + rem
    /\ ((m2 = m1 /\ (2 * rem < P \/ (2 * rem = P /\ Z.even m1 = true)))
        \/ (m2 = m1 + 1 /\ (P < 2 * rem \/ (2 * rem = P /\ Z.even m1 = false)))).
Proof.
  intros HM mrs m2 P. subst m2 P.
  destruct (shr_iter_spec M k HM) as (rem & Hrem & Hm0 & HMeq & Hr & Hs).
  fold mrs in Hm0, HMeq, Hr, Hs.
  exists (shr_m mrs), rem.
  split; [exact Hrem |]. split; [exact Hm0 |]. split; [exact HMeq |].
  destruct mrs as [m r s]. cbn [shr_m shr_r shr_s loc_of_shr_record] in *.
  destruct r, s; cbn [round_nearest_even].
  - right. split; [reflexivity |]. left.
    assert (2 ^ Z.of_nat k <= 2 * rem) by (apply Hr; reflexivity).
    assert (2 * rem <> 2 ^ Z.of_nat k) by (apply Hs; reflexivity). lia.
  - assert (2 ^ Z.of_nat k <= 2 * rem) by (apply Hr; reflexivity).
    assert (Heq : 2 * rem = 2 ^ Z.of_nat k).
    { destruct (Z.eq_dec (2 * rem) (2 ^ Z.of_nat k)) as [E | E]; [exact E |].
      assert (false = true) by (apply Hs; lia). discriminate. }
    destruct (Z.even m) eqn:Ev; [left | right]; (split; [reflexivity | right; split; [exact Heq | reflexivity]]).
  - left. split; [reflexivity |]. left.
    destruct (Z.lt_ge_cases (2 * rem) (2 ^ Z.of_nat k)) as [H | H]; [exact H |].
    assert (false = true) by (apply Hr; exact H). discriminate.
  - left. split; [reflexivity |]. left.
    destruct (Z.lt_ge_cases (2 * rem) (2 ^ Z.of_nat k)) as [H | H]; [exact H |].
    assert (false = true) by (apply Hr; exact H). discriminate.
Qed.

(** ** Powers of two in Q *)

Lemma pow2_Qpower e : (pow2 e == 2 ^ e)%Q.
Proof.
  destruct e as [| p | p]; cbn [pow2].
  - reflexivity.
  - rewrite Zpower_Qpower by lia. reflexivity.
  - change (2 ^ Zneg p)%Q with (/ (2 ^ Zpos p))%Q.
    rewrite <- (Zpower_Qpower 2 (Zpos p)) by lia.
    rewrite <- Pos2Z.inj_pow. reflexivity.
Qed.

Lemma pow2_add a b : (pow2 (a + b) == pow2 a * pow2 b)%Q.
Proof. rewrite !pow2_Qpower. apply Qpower_plus. discriminate. Qed.

Lemma pow2_pos e : (0 < pow2 e)%Q.
Proof. rewrite pow2_Qpower. apply Qpower_0_lt. reflexivity. Qed.

Lemma pow2_nonneg_Z e : 0 <= e -> (pow2 e == inject_Z (2 ^ e))%Q.
Proof. intros H. rewrite pow2_Qpower, Zpower_Qpower by exact H. reflexivity. Qed.

Lemma pow2_ge_1 e : 0 <= e -> (1 <= pow2 e)%Q.
Proof.
  intros H. rewrite pow2_nonneg_Z by exact H.
  change 1%Q with (inject_Z 1). rewrite <- Zle_Qle.
  assert (0 < 2 ^ e) by (apply Z.pow_pos_nonneg; lia). lia.
Qed.

Lemma pow2_le a b : a <= b -> (pow2 a <= pow2 b)%Q.
Proof.
  intros H. replace b with (a + (b - a)) by lia. rewrite pow2_add.
  pose proof (pow2_pos a). pose proof (pow2_ge_1 (b - a) ltac:(lia)). nra.
Qed.

Lemma pow2_lt a b : a < b -> (pow2 a < pow2 b)%Q.
Proof.
  intros H. replace b with (a + 1 + (b - a - 1)) by lia. rewrite !pow2_add.
  pose proof (pow2_pos a). pose proof (pow2_ge_1 (b - a - 1) ltac:(lia)).
  change (pow2 1) with 2%Q. nra.
Qed.

Lemma pow2_lt_inv a b : (pow2 a < pow2 b)%Q -> a < b.
Proof.
  intros H. destruct (Z.lt_ge_cases a b) as [Hlt | Hge]; [exact Hlt |].
  pose proof (pow2_le b a Hge). lra.
Qed.

Lemma pow2_le_inv a b : (pow2 a <= pow2 b)%Q -> a <= b.
Proof.
  intros H. destruct (Z.le_gt_cases a b) as [Hle | Hgt]; [exact Hle |].
  pose proof (pow2_lt b a Hgt). lra.
Qed.

Lemma pow2_succ a : (pow2 (a + 1) == 2 * pow2 a)%Q.
Proof. rewrite pow2_add. change (pow2 1) with 2%Q. ring. Qed.

(** ** Rounding to [long double] *)

Local Abbreviation val m e := (inject_Z m * pow2 e)%Q.

Lemma fexp_ld x : fexp ld_prec ld_emax x = Z.max (x - 64) (-16445).
Proof. reflexivity. Qed.

Lemma Zdigits2_unique M d : 0 < M -> 2 ^ (d - 1) <= M < 2 ^ d -> Zdigits2 M = d.
Proof.
  intros HM H. destruct M as [| p | p]; try lia.
  cbn [Zdigits2]. apply digits2_pos_unique. exact H.
Qed.

Lemma Zdigits2_spec M : 0 < M -> 2 ^ (Zdigits2 M - 1) <= M < 2 ^ Zdigits2 M.
Proof.
  intros HM. destruct M as [| p | p]; try lia.
  cbn [Zdigits2]. apply digits2_pos_spec.
Qed.

Lemma val_shift m e j : 0 <= j -> (val (m * 2 ^ j) (e - j) == val m e)%Q.
Proof.
  intros Hj. rewrite inject_Z_mult, <- (pow2_nonneg_Z j) by exact Hj.
  replace e with ((e - j) + j) at 2 by lia. rewrite (pow2_add (e - j) j). ring.
Qed.

Lemma val_le m m' e : m <= m' <-> (val m e <= val m' e)%Q.
Proof.
  pose proof (pow2_pos e) as Hp. rewrite (Zle_Qle m m'). split; intros H; nra.
Qed.

Lemma val_lt m m' e : m < m' <-> (val m e < val m' e)%Q.
Proof.
  pose proof (pow2_pos e) as Hp. rewrite (Zlt_Qlt m m'). split; intros H; nra.
Qed.

(** The end of [binary_round_aux]: a significand that rounding has carried
    to [2^64] is brought back to 64 digits. *)
Lemma round_tail m2 e :
  2 ^ 63 <= m2 <= 2 ^ 64 -> -16445 <= e < 16320 ->
  exists m3 e3,
    (let '(mrs, e') := shr_fexp ld_prec ld_emax m2 e loc_Exact in
     match shr_m mrs with
     | Z0 => S754_zero false
     | Zpos m => if e' <=? ld_emax - ld_prec then S754_finite false m e' else S754_infinity false
     | Zneg _ => S754_nan
     end) = S754_finite false m3 e3
    /\ 2 ^ 63 <= Zpos m3 < 2 ^ 64
    /\ e <= e3 <= e + 1
    /\ (val (Zpos m3) e3 == val m2 e)%Q.
Proof.
  intros Hm He. unfold shr_fexp. rewrite fexp_ld.
  destruct (Z.eq_dec m2 (2 ^ 64)) as [-> | Hne].
  - change (Zdigits2 (2 ^ 64)) with 65.
    replace (Z.max (65 + e - 64) (-16445) - e) with 1 by lia.
    cbn [shr SpecFloat.iter_pos shr_record_of_loc shr_1 shr_m].
    change (ld_emax - ld_prec) with 16320.
    replace (e + 1 <=? 16320) with true by (symmetry; apply Z.leb_le; lia).
    exists (2 ^ 63)%positive, (e + 1). split; [reflexivity |].
    split; [split; [reflexivity | reflexivity] |]. split; [lia |].
    rewrite <- (val_shift (Zpos (2 ^ 63)) (e + 1) 1) by lia.
    replace (e + 1 - 1) with e by lia. reflexivity.
  - assert (Hd : Zdigits2 m2 = 64) by (apply Zdigits2_unique; lia).
    rewrite Hd. replace (Z.max (64 + e - 64) (-16445) - e) with 0 by lia.
    cbn [shr shr_record_of_loc shr_m].
    destruct m2 as [| p | p]; try lia.
    change (ld_emax - ld_prec) with 16320.
    replace (e <=? 16320) with true by (symmetry; apply Z.leb_le; lia).
    exists p, e. split; [reflexivity |]. split; [lia |]. split; [lia | reflexivity].
Qed.

Lemma shr_nat mrs e n :
  0 <= n -> shr mrs e n = (Nat.iter (Z.to_nat n) shr_1 mrs, e + n).
Proof.
  intros Hn. destruct n as [| p | p]; try lia; cbn [shr].
  - rewrite Z.add_0_r. reflexivity.
  - rewrite iter_pos_nat. reflexivity.
Qed.

(** [binary_round_aux] on an exact positive value [M * 2^e] of at least 64
    digits: the significand is the multiple of [2^k] nearest to [M], the
    even one in a tie, where [k] is the number of digits in excess. *)
Lemma round_aux_exact M e :
  0 < M ->
  let k := Zdigits2 M - 64 in
  0 <= k -> -16445 <= e + k < 16320 ->
  exists m3 e3 m1 rem m2,
    binary_round_aux ld_prec ld_emax false M e loc_Exact = S754_finite false m3 e3
    /\ 2 ^ 63 <= Zpos m3 < 2 ^ 64
    /\ e + k <= e3 <= e + k + 1
    /\ (val (Zpos m3) e3 == val m2 (e + k))%Q
    /\ 0 <= rem < 2 ^ k /\ 2 ^ 63 <= m1 < 2 ^ 64 /\ M = 2 ^ k * m1 + rem
    /\ ((m2 = m1 /\ (2 * rem < 2 ^ k \/ (2 * rem = 2 ^ k /\ Z.even m1 = true)))
        \/ (m2 = m1 + 1 /\ (2 ^ k < 2 * rem \/ (2 * rem = 2 ^ k /\ Z.even m1 = false)))).
Proof.
  intros HM k Hk He.
  pose proof (Zdigits2_spec M HM) as Hd.
  destruct (round_shr_spec M (Z.to_nat k) ltac:(lia)) as (m1 & rem & Hrem & Hm1 & HMeq & Hcase).
  rewrite Z2Nat.id in Hrem, HMeq, Hcase by exact Hk.
  set (mrs := Nat.iter (Z.to_nat k) shr_1 (Build_shr_record M false false)) in *.
  set (m2 := round_nearest_even (shr_m mrs) (loc_of_shr_record mrs)) in *.
  assert (HP : 0 < 2 ^ k) by (apply Z.pow_pos_nonneg; lia).
  assert (Hm1b : 2 ^ 63 <= m1 < 2 ^ 64).
  { replace (Zdigits2 M) with (k + 64) in Hd by (unfold k; lia).
    replace (k + 64 - 1) with (k + 63) in Hd by lia.
    rewrite !Z.pow_add_r in Hd by lia. nia. }
  assert (Hm2b : 2 ^ 63 <= m2 <= 2 ^ 64) by (destruct Hcase as [[-> _] | [-> _]]; lia).
  destruct (round_tail m2 (e + k) Hm2b He) as (m3 & e3 & Htail & Hm3 & He3 & Hval).
  exists m3, e3, m1, rem, m2.
  split.
  - unfold binary_round_aux.
    assert (Hshr : shr_fexp ld_prec ld_emax M e loc_Exact = (mrs, e + k)).
    { unfold shr_fexp. rewrite fexp_ld.
      replace (Z.max (Zdigits2 M + e - 64) (-16445) - e) with k by (unfold k; lia).
      cbn [shr_record_of_loc]. apply shr_nat. exact Hk. }
    rewrite Hshr. exact Htail.
  - repeat split; try assumption; try lia.
Qed.

Lemma nearest_even_intro M e k m1 rem m2 :
  0 <= k -> 0 <= rem < 2 ^ k -> M = 2 ^ k * m1 + rem ->
  ((m2 = m1 /\ (2 * rem < 2 ^ k \/ (2 * rem = 2 ^ k /\ Z.even m1 = true)))
   \/ (m2 = m1 + 1 /\ (2 ^ k < 2 * rem \/ (2 * rem = 2 ^ k /\ Z.even m1 = false)))) ->
  nearest_even (val M e) (e + k) (val m2 (e + k)).
Proof.
  intros Hk Hrem HM Hcase.
  assert (HP : 0 < 2 ^ k) by (apply Z.pow_pos_nonneg; lia).
  assert (HV : (val M e == val (2 * M) (e - 1))%Q).
  { rewrite <- (val_shift M e 1) by lia. rewrite (Z.mul_comm 2 M). reflexivity. }
  assert (Hgrid : forall c, (val c (e + k) == val (2 * (2 ^ k * c)) (e - 1))%Q).
  { intros c. rewrite <- (val_shift c (e + k) (k + 1)) by lia.
    replace (e + k - (k + 1)) with (e - 1) by lia.
    replace (c * 2 ^ (k + 1)) with (2 * (2 ^ k * c)) by (rewrite Z.pow_add_r by lia; ring).
    reflexivity. }
  assert (Hhalf : (pow2 (e + k - 1) == val (2 ^ k) (e - 1))%Q).
  { replace (e + k - 1) with ((e - 1) + k) by lia.
    rewrite pow2_add, (pow2_nonneg_Z k) by lia. ring. }
  unfold nearest_even.
  set (P := 2 ^ k) in *. clearbody P.
  pose proof (pow2_pos (e - 1)) as Hp.
  assert (Hcut : forall a b : Z, a <= b -> (val a (e - 1) <= val b (e - 1))%Q)
    by (intros a b; apply val_le).
  assert (Hcut' : forall a b : Z, (val a (e - 1) <= val b (e - 1))%Q -> a <= b)
    by (intros a b; apply val_le).
  split; [split |]; [| | split; [| split; [| split]]].
  - rewrite HV, Hhalf, (Hgrid m2).
    assert (H : 2 * (P * m2) <= 2 * M + P) by (destruct Hcase as [[-> ?] | [-> ?]]; lia).
    apply Hcut in H. rewrite inject_Z_plus in H. lra.
  - rewrite HV, Hhalf, (Hgrid m2).
    assert (H : 2 * M <= 2 * (P * m2) + P) by (destruct Hcase as [[-> ?] | [-> ?]]; lia).
    apply Hcut in H. rewrite inject_Z_plus in H. lra.
  - intros c. rewrite HV, (Hgrid m2), (Hgrid c). intros H. apply Hcut' in H. apply Hcut.
    assert (m1 <= c) by nia.
    destruct Hcase as [[-> _] | [-> ?]]; [nia |].
    assert (m1 < c) by nia. nia.
  - intros c. rewrite HV, (Hgrid m2), (Hgrid c). intros H. apply Hcut' in H. apply Hcut.
    assert (c <= m1) by nia.
    destruct Hcase as [[-> _] | [-> _]]; nia.
  - intros c Hev. rewrite HV, Hhalf, (Hgrid m2), (Hgrid c). intros H.
    assert (H' : (val (2 * M) (e - 1) <= val (2 * (P * c) + P) (e - 1))%Q)
      by (rewrite inject_Z_plus; lra).
    apply Hcut' in H'. apply Hcut.
    assert (m1 <= c) by nia.
    destruct (Z.eq_dec m1 c) as [-> | Hne].
    + destruct Hcase as [[-> _] | [-> [? | [? Hodd]]]]; [lia | lia | congruence].
    + destruct Hcase as [[-> _] | [-> _]]; nia.
  - intros c Hev. rewrite HV, Hhalf, (Hgrid m2), (Hgrid c). intros H.
    assert (H' : (val (2 * (P * c)) (e - 1) <= val (2 * M + P) (e - 1))%Q)
      by (rewrite inject_Z_plus; lra).
    apply Hcut' in H'. apply Hcut.
    assert (c <= m1 + 1) by nia.
    destruct (Z.eq_dec c (m1 + 1)) as [-> | Hne].
    + destruct Hcase as [[-> [? | [? Hev']]] | [-> _]]; [lia | | lia].
      rewrite Z.even_add in Hev. rewrite Hev' in Hev. discriminate.
    + destruct Hcase as [[-> _] | [-> _]]; nia.
Qed.

Lemma val_digits M e :
  0 < M ->
  (pow2 (e + Zdigits2 M - 1) <= val M e < pow2 (e + Zdigits2 M))%Q.
Proof.
  intros HM. pose proof (Zdigits2_spec M HM) as [Hlo Hhi].
  assert (Hd : 0 < Zdigits2 M) by (destruct M; try lia; reflexivity).
  replace (e + Zdigits2 M - 1) with (e + (Zdigits2 M - 1)) by lia.
  rewrite !pow2_add.
  rewrite (pow2_nonneg_Z (Zdigits2 M - 1)), (pow2_nonneg_Z (Zdigits2 M)) by lia.
  pose proof (pow2_pos e) as Hp.
  rewrite Zle_Qle in Hlo. rewrite Zlt_Qlt in Hhi. split; nra.
Qed.

(** Rounding an exact positive value to [long double], away from overflow
    and underflow. *)
Lemma round_exact M e :
  0 < M ->
  let k := e + Zdigits2 M - 64 in
  e <= k -> -16445 <= k < 16320 ->
  exists R,
    float_at k (k + 1) (binary_round_aux ld_prec ld_emax false M e loc_Exact) R
    /\ nearest_even (val M e) k R
    /\ (pow2 (k + 63) <= val M e < pow2 (k + 64))%Q.
Proof.
  intros HM k Hk He.
  destruct (round_aux_exact M e HM ltac:(lia) ltac:(lia))
    as (m3 & e3 & m1 & rem & m2 & Hr & Hm3 & He3 & Hval & Hrem & Hm1 & HMeq & Hcase).
  replace (e + (Zdigits2 M - 64)) with k in * by (unfold k; lia).
  exists (val m2 k). split; [| split].
  - exists m3, e3. repeat split; try assumption; try lia. symmetry. exact Hval.
  - replace k with (e + (Zdigits2 M - 64)) by (unfold k; lia).
    apply (nearest_even_intro M e (Zdigits2 M - 64) m1 rem m2); try assumption. lia.
  - pose proof (val_digits M e HM) as Hd.
    replace (k + 63) with (e + Zdigits2 M - 1) by (unfold k; lia).
    replace (k + 64) with (e + Zdigits2 M) by (unfold k; lia). exact Hd.
Qed.

Lemma nearest_even_compat V V' k R :
  (V == V')%Q -> nearest_even V k R -> nearest_even V' k R.
Proof.
  intros HV ([H1 H2] & H3 & H4 & H5 & H6). unfold nearest_even.
  split; [split; lra |].
  split; [intros c Hc; apply H3; lra |].
  split; [intros c Hc; apply H4; lra |].
  split; [intros c Hev Hc; apply H5; [exact Hev | lra] |].
  intros c Hev Hc; apply H6; [exact Hev | lra].
Qed.

(** ** Multiplication and addition *)

Lemma ld_mul_spec x y X Y lo hi :
  float_at lo hi x X -> float_at lo hi y Y -> -8000 <= lo -> hi <= 8000 ->
  exists R k,
    float_at (lo + lo + 63) (hi + hi + 65) (ld_mul x y) R
    /\ nearest_even (X * Y) k R
    /\ (pow2 (k + 63) <= X * Y < pow2 (k + 64))%Q.
Proof.
  intros (mx & ex & -> & Hmx & Hex & HX) (my & ey & -> & Hmy & Hey & HY) Hlo Hhi.
  unfold ld_mul, SFmul. cbn [xorb]. rewrite Pos2Z.inj_mul.
  set (M := Zpos mx * Zpos my).
  assert (HM : 2 ^ 126 <= M < 2 ^ 128).
  { unfold M. change (2 ^ 126) with (2 ^ 63 * 2 ^ 63). change (2 ^ 128) with (2 ^ 64 * 2 ^ 64).
    nia. }
  assert (HV : (val M (ex + ey) == X * Y)%Q).
  { unfold M. rewrite HX, HY, inject_Z_mult, pow2_add. ring. }
  pose proof (Zdigits2_spec M ltac:(lia)) as Hd.
  assert (Hd' : 127 <= Zdigits2 M <= 128).
  { split.
    - destruct (Z.lt_ge_cases (Zdigits2 M) 127) as [H | H]; [| exact H].
      assert (2 ^ Zdigits2 M <= 2 ^ 126) by (apply Z.pow_le_mono_r; lia). lia.
    - destruct (Z.le_gt_cases (Zdigits2 M) 128) as [H | H]; [exact H |].
      assert (2 ^ 128 <= 2 ^ (Zdigits2 M - 1)) by (apply Z.pow_le_mono_r; lia). lia. }
  destruct (round_exact M (ex + ey) ltac:(lia) ltac:(lia) ltac:(lia)) as (R & Hf & Hn & Hb).
  exists R, (ex + ey + Zdigits2 M - 64).
  split; [| split].
  - destruct Hf as (m & e & Hr & Hm & He & HR).
    exists m, e. repeat split; try assumption; lia.
  - exact (nearest_even_compat _ _ _ _ HV Hn).
  - rewrite <- HV. exact Hb.
Qed.

Lemma pos_iter_xO m d : Zpos (Pos.iter xO m d) = Zpos m * 2 ^ Zpos d.
Proof.
  induction d as [| d IH] using Pos.peano_ind.
  - cbn [Pos.iter]. rewrite Pos2Z.inj_xO. change (2 ^ 1) with 2. ring.
  - rewrite Pos.iter_succ, Pos2Z.inj_xO, IH, Pos2Z.inj_succ, Z.pow_succ_r by lia. ring.
Qed.

Lemma shl_align_fst m e e' :
  e' <= e -> Zpos (fst (shl_align m e e')) = Zpos m * 2 ^ (e - e').
Proof.
  intros H. unfold shl_align. destruct (e' - e) as [| d | d] eqn:Hd; try lia; cbn [fst].
  - replace (e - e') with 0 by lia. rewrite Z.mul_1_r. reflexivity.
  - rewrite pos_iter_xO. replace (e - e') with (Zpos d) by lia. reflexivity.
Qed.

Lemma shl_align_id m e e' : e <= e' -> shl_align m e e' = (m, e).
Proof.
  intros H. unfold shl_align. destruct (e' - e) as [| d | d] eqn:Hd; try lia; reflexivity.
Qed.

Lemma ld_add_spec a b A B lo hi :
  float_at lo hi a A -> float_at lo hi b B -> -16000 <= lo -> hi <= 16000 ->
  exists R k,
    float_at lo (hi + 2) (ld_add a b) R
    /\ nearest_even (A + B) k R
    /\ (pow2 (k + 63) <= A + B < pow2 (k + 64))%Q.
Proof.
  intros (ma & ea & -> & Hma & Hea & HA) (mb & eb & -> & Hmb & Heb & HB) Hlo Hhi.
  unfold ld_add, SFadd. cbn [cond_Zopp].
  set (ez := Z.min ea eb).
  pose proof (shl_align_fst ma ea ez ltac:(unfold ez; lia)) as Ha.
  pose proof (shl_align_fst mb eb ez ltac:(unfold ez; lia)) as Hb.
  set (pa := fst (shl_align ma ea ez)) in *. set (pb := fst (shl_align mb eb ez)) in *.
  change (Z.pos pa + Z.pos pb) with (Zpos (pa + pb)).
  unfold binary_normalize, binary_round.
  assert (HPa : 1 <= 2 ^ (ea - ez)) by (pose proof (Z.pow_pos_nonneg 2 (ea - ez)); lia).
  assert (HPb : 1 <= 2 ^ (eb - ez)) by (pose proof (Z.pow_pos_nonneg 2 (eb - ez)); lia).
  assert (HM : Zpos (pa + pb) = Zpos ma * 2 ^ (ea - ez) + Zpos mb * 2 ^ (eb - ez))
    by (rewrite Pos2Z.inj_add, Ha, Hb; reflexivity).
  assert (HV : (val (Zpos (pa + pb)) ez == A + B)%Q).
  { rewrite HM, inject_Z_plus, HA, HB.
    rewrite <- (val_shift (Zpos ma) ea (ea - ez)), <- (val_shift (Zpos mb) eb (eb - ez)) by lia.
    replace (ea - (ea - ez)) with ez by lia. replace (eb - (eb - ez)) with ez by lia. ring. }
  pose proof (Zdigits2_spec (Zpos (pa + pb)) ltac:(lia)) as Hd.
  assert (Hd64 : 64 <= Zdigits2 (Zpos (pa + pb))).
  { destruct (Z.lt_ge_cases (Zdigits2 (Zpos (pa + pb))) 64) as [H | H]; [| exact H].
    assert (2 ^ Zdigits2 (Zpos (pa + pb)) <= 2 ^ 63) by (apply Z.pow_le_mono_r; lia).
    nia. }
  assert (Hdhi : ez + Zdigits2 (Zpos (pa + pb)) <= Z.max ea eb + 65).
  { destruct (Z.le_gt_cases (ez + Zdigits2 (Zpos (pa + pb))) (Z.max ea eb + 65)) as [H | H];
      [exact H |].
    assert (H1 : 2 ^ (Z.max ea eb + 65 - ez) <= 2 ^ (Zdigits2 (Zpos (pa + pb)) - 1))
      by (apply Z.pow_le_mono_r; lia).
    assert (H2 : 2 ^ (ea - ez) <= 2 ^ (Z.max ea eb - ez)) by (apply Z.pow_le_mono_r; lia).
    assert (H3 : 2 ^ (eb - ez) <= 2 ^ (Z.max ea eb - ez)) by (apply Z.pow_le_mono_r; lia).
    replace (Z.max ea eb + 65 - ez) with (Z.max ea eb - ez + 65) in H1 by lia.
    rewrite Z.pow_add_r in H1 by lia.
    change (2 ^ 65) with (2 * 2 ^ 64) in H1.
    set (Q := 2 ^ (Z.max ea eb - ez)) in *. nia. }
  change (Zpos (digits2_pos (pa + pb))) with (Zdigits2 (Zpos (pa + pb))).
  rewrite shl_align_id by (rewrite fexp_ld; lia).
  destruct (round_exact (Zpos (pa + pb)) ez ltac:(lia) ltac:(lia) ltac:(lia))
    as (R & Hf & Hn & Hbd).
  exists R, (ez + Zdigits2 (Zpos (pa + pb)) - 64).
  split; [| split].
  - destruct Hf as (m & e & Hr & Hm & He & HR).
    exists m, e. repeat split; try assumption; lia.
  - exact (nearest_even_compat _ _ _ _ HV Hn).
  - rewrite <- HV. exact Hbd.
Qed.

(** ** Square root *)

Lemma val_square q e : (val q e * val q e == val (q * q) (e + e))%Q.
Proof. rewrite inject_Z_mult, pow2_add. ring. Qed.

Lemma ld_sqrt_spec s S lo hi :
  float_at lo hi s S -> -16000 <= lo -> hi <= 16000 ->
  exists R q e',
    float_at (-8100) 8100 (sqrtl s) R
    /\ 2 ^ 63 <= q < 2 ^ 64
    /\ (R == val q e' \/ R == val (q + 1) e')%Q
    /\ (val q e' * val q e' <= S)%Q
    /\ (S < val (q + 1) e' * val (q + 1) e')%Q
    /\ (S == val q e' * val q e' -> R == val q e')%Q.
Proof.
  intros (m & e & -> & Hm & He & HS) Hlo Hhi.
  unfold sqrtl, SFsqrt, SFsqrt_core_binary.
  assert (Hd : Zdigits2 (Zpos m) = 64) by (apply Zdigits2_unique; lia).
  rewrite Hd, fexp_ld, !Z.div2_div.
  pose proof (Z.div_mod (64 + e + 1) 2 ltac:(lia)) as Hdm.
  pose proof (Z.mod_pos_bound (64 + e + 1) 2 ltac:(lia)) as Hb.
  pose proof (Z.div_mod e 2 ltac:(lia)) as Hdm'.
  pose proof (Z.mod_pos_bound e 2 ltac:(lia)) as Hb'.
  set (h := (64 + e + 1) / 2) in *. set (b := (64 + e + 1) mod 2) in *.
  replace (Z.min (Z.max (h - 64) (-16445)) (e / 2)) with (h - 64) by lia.
  set (e' := h - 64).
  assert (Hs : e - 2 * e' = 63 + b) by (unfold e'; lia).
  rewrite Hs.
  assert (Hsh : match 63 + b with
                | 0 => Zpos m
                | Zpos _ => Z.shiftl (Zpos m) (63 + b)
                | Zneg _ => 0
                end = Zpos m * 2 ^ (63 + b)).
  { rewrite <- Z.shiftl_mul_pow2 by lia. destruct (63 + b) eqn:E; first [lia | reflexivity]. }
  rewrite Hsh. set (m' := Zpos m * 2 ^ (63 + b)).
  assert (Hm' : 2 ^ 126 <= m' < 2 ^ 128).
  { unfold m'. assert (Hb2 : b = 0 \/ b = 1) by lia.
    destruct Hb2 as [-> | ->]; cbn [Z.add]; lia. }
  pose proof (Z.sqrtrem_spec m' ltac:(lia)) as Hsq.
  destruct (Z.sqrtrem m') as [q r]. destruct Hsq as [Hsq Hr].
  assert (Hq : 2 ^ 63 <= q < 2 ^ 64).
  { change (2 ^ 126) with (2 ^ 63 * 2 ^ 63) in Hm'. change (2 ^ 128) with (2 ^ 64 * 2 ^ 64) in Hm'.
    split; nia. }
  assert (HV : (val m' (e' + e') == S)%Q).
  { unfold m'. rewrite HS. rewrite <- (val_shift (Zpos m) e (63 + b)) by lia.
    replace (e - (63 + b)) with (e' + e') by lia. reflexivity. }
  set (l := if r =? 0 then loc_Exact else loc_Inexact (if r <=? q then Lt else Gt)).
  set (m2 := round_nearest_even q l).
  assert (Hm2 : (m2 = q /\ r <= q) \/ (m2 = q + 1 /\ q < r)).
  { unfold m2, l. destruct (Z.eqb_spec r 0) as [-> | Hne]; [left; split; [reflexivity | lia] |].
    destruct (Z.leb_spec r q); cbn [round_nearest_even]; [left | right]; split; lia. }
  assert (Hm2b : 2 ^ 63 <= m2 <= 2 ^ 64) by (destruct Hm2 as [[-> _] | [-> _]]; lia).
  destruct (round_tail m2 e' Hm2b ltac:(unfold e'; lia)) as (m3 & e3 & Htail & Hm3 & He3 & Hval).
  assert (Hres : binary_round_aux ld_prec ld_emax false q e' l = S754_finite false m3 e3).
  { unfold binary_round_aux.
    assert (Hshr : shr_fexp ld_prec ld_emax q e' l = (shr_record_of_loc q l, e')).
    { unfold shr_fexp. rewrite fexp_ld.
      replace (Zdigits2 q) with 64 by (symmetry; apply Zdigits2_unique; lia).
      replace (Z.max (64 + e' - 64) (-16445) - e') with 0 by (unfold e'; lia).
      reflexivity. }
    rewrite Hshr.
    assert (Hloc : round_nearest_even (shr_m (shr_record_of_loc q l))
                     (loc_of_shr_record (shr_record_of_loc q l)) = m2).
    { unfold m2. destruct l as [| []]; reflexivity. }
    rewrite Hloc. exact Htail. }
  fold l. rewrite Hres.
  exists (val m2 e'), q, e'.
  split; [exists m3, e3; repeat split; try assumption; try (unfold e' in *; lia);
          symmetry; exact Hval |].
  split; [exact Hq |].
  split; [destruct Hm2 as [[-> _] | [-> _]]; [left | right]; reflexivity |].
  rewrite !val_square, <- HV.
  split; [apply val_le; lia |].
  split; [apply val_lt; lia |].
  intros Heq.
  assert (Hle : (val m' (e' + e') <= val (q * q) (e' + e'))%Q) by (rewrite Heq; apply Qle_refl).
  apply val_le in Hle.
  destruct Hm2 as [[-> _] | [_ Hgt]]; [reflexivity | lia].
Qed.

(** ** Comparison with 1 *)

Lemma inject_Z_pos z : 0 < z -> (0 < inject_Z z)%Q.
Proof. intros H. change 0%Q with (inject_Z 0). rewrite <- Zlt_Qlt. exact H. Qed.

Lemma inject_Z_nonneg z : 0 <= z -> (0 <= inject_Z z)%Q.
Proof. intros H. change 0%Q with (inject_Z 0). rewrite <- Zle_Qle. exact H. Qed.

Lemma one_on_grid k : k <= 0 -> (val (2 ^ (- k)) k == 1)%Q.
Proof.
  intros Hk. rewrite <- (pow2_nonneg_Z (- k)), <- pow2_add by lia.
  replace (- k + k) with 0 by lia. reflexivity.
Qed.

Lemma float_at_pos lo hi r R : float_at lo hi r R -> (0 < R)%Q.
Proof.
  intros (m & e & _ & Hm & _ & HR). rewrite HR.
  pose proof (pow2_pos e). assert (H1 : (0 < inject_Z (Zpos m))%Q) by reflexivity. nra.
Qed.

Lemma ld_leb_one lo hi r R :
  float_at lo hi r R -> (ld_leb r (of_Z 1) = true <-> (R <= 1)%Q).
Proof.
  intros (m & e & -> & Hm & _ & HR).
  change (of_Z 1) with (S754_finite false (2 ^ 63) (-63)).
  unfold ld_leb, SFleb, SFcompare.
  pose proof (pow2_pos e) as Hp.
  assert (Hlo : (val (2 ^ 63) e <= R)%Q) by (rewrite HR; apply val_le; lia).
  assert (Hhi : (R < val (2 ^ 64) e)%Q) by (rewrite HR; apply val_lt; lia).
  destruct (Z.compare_spec e (-63)) as [-> | Hlt | Hgt].
  - rewrite Pos.compare_cont_spec. cbn [Pos.switch_Eq].
    rewrite <- (one_on_grid (-63)) by lia. change (- -63) with 63.
    rewrite HR, <- val_le.
    destruct (Pos.compare_spec m (2 ^ 63)) as [-> | H | H]; split; intros H'; try reflexivity;
      try lia; try discriminate.
  - split; [intros _ | reflexivity].
    assert (H : (val (2 ^ 64) e <= 1)%Q).
    { rewrite <- (one_on_grid (-64)) by lia. change (- -64) with 64.
      pose proof (pow2_le e (-64) ltac:(lia)).
      assert (H1 : (0 < inject_Z (2 ^ 64))%Q) by reflexivity. nra. }
    lra.
  - split; [discriminate |]. intros H.
    assert (H2 : (2 <= val (2 ^ 63) e)%Q).
    { pose proof (pow2_le (-62) e ltac:(lia)) as H1.
      change (pow2 (-62)) with (1 # 2 ^ 62)%Q in H1.
      assert (H3 : (2 == inject_Z (2 ^ 63) * (1 # 2 ^ 62))%Q) by reflexivity.
      assert (H4 : (0 < inject_Z (2 ^ 63))%Q) by reflexivity. nra. }
    lra.
Qed.

Lemma val_succ_le_one c e : 0 < c -> (val c e < 1)%Q -> (val (c + 1) e <= 1)%Q.
Proof.
  intros Hc H.
  assert (He : e < 0).
  { apply pow2_lt_inv. change (pow2 0) with 1%Q.
    assert (H1 : (1 <= inject_Z c)%Q) by (change 1%Q with (inject_Z 1); rewrite <- Zle_Qle; lia).
    pose proof (pow2_pos e). nra. }
  rewrite <- (one_on_grid e) in H |- * by lia.
  apply val_lt in H. apply val_le. lia.
Qed.

Lemma sqrt_le_one lo hi s S :
  float_at lo hi s S -> -16000 <= lo -> hi <= 16000 ->
  (S <= 1)%Q -> ld_leb (sqrtl s) (of_Z 1) = true.
Proof.
  intros Hs Hlo Hhi HS.
  destruct (ld_sqrt_spec s S lo hi Hs Hlo Hhi) as (R & q & e' & HfR & Hq & HR & Hle & Hlt & Hex).
  apply (ld_leb_one _ _ _ _ HfR).
  assert (Hq0 : (0 < val q e')%Q).
  { pose proof (pow2_pos e'). assert (H1 : (0 < inject_Z q)%Q) by (apply inject_Z_pos; lia). nra. }
  assert (Hq1 : (val q e' <= 1)%Q) by nra.
  destruct HR as [-> | HR]; [exact Hq1 |].
  destruct (Qlt_le_dec (val q e') 1) as [Hlt1 | Hge1].
  - rewrite HR. apply val_succ_le_one; [lia | exact Hlt1].
  - rewrite Hex; [exact Hq1 |]. apply Qle_antisym; nra.
Qed.

Lemma sqrt_gt_one lo hi s S :
  float_at lo hi s S -> -16000 <= lo -> hi <= 16000 ->
  (1 + pow2 (-61) <= S)%Q -> ld_leb (sqrtl s) (of_Z 1) = false.
Proof.
  intros Hs Hlo Hhi HS.
  destruct (ld_sqrt_spec s S lo hi Hs Hlo Hhi) as (R & q & e' & HfR & Hq & HR & Hle & Hlt & Hex).
  destruct (ld_leb (sqrtl s) (of_Z 1)) eqn:E; [| reflexivity].
  apply (ld_leb_one _ _ _ _ HfR) in E. exfalso.
  pose proof (pow2_pos e') as Hp.
  assert (HRq : (val q e' <= R)%Q).
  { destruct HR as [-> | ->]; [apply Qle_refl | apply val_le; lia]. }
  assert (Hsucc : (val (q + 1) e' == val q e' + pow2 e')%Q) by (rewrite inject_Z_plus; ring).
  destruct (Z.le_gt_cases e' (-63)) as [He | He].
  - pose proof (pow2_le e' (-63) He) as H63.
    change (pow2 (-63)) with (1 # 2 ^ 63)%Q in H63.
    change (pow2 (-61)) with (1 # 2 ^ 61)%Q in HS.
    assert (H1 : (0 <= val (q + 1) e')%Q).
    { assert (H2 : (0 <= inject_Z (q + 1))%Q) by (apply inject_Z_nonneg; lia). nra. }
    assert (H3 : (1 + (1 # 2 ^ 63) < val (q + 1) e')%Q).
    { destruct (Qlt_le_dec (1 + (1 # 2 ^ 63)) (val (q + 1) e')) as [H | H]; [exact H |].
      exfalso.
      assert (H4 : (val (q + 1) e' * val (q + 1) e' <= (1 + (1 # 2 ^ 63)) * (1 + (1 # 2 ^ 63)))%Q)
        by nra.
      assert (H5 : ((1 + (1 # 2 ^ 63)) * (1 + (1 # 2 ^ 63)) < 1 + (1 # 2 ^ 61))%Q) by reflexivity.
      lra. }
    lra.
  - pose proof (pow2_le (-62) e' ltac:(lia)) as H62.
    change (pow2 (-62)) with (1 # 2 ^ 62)%Q in H62.
    assert (H1 : (inject_Z (2 ^ 63) <= inject_Z q)%Q) by (rewrite <- Zle_Qle; lia).
    assert (H3 : (2 == inject_Z (2 ^ 63) * (1 # 2 ^ 62))%Q) by reflexivity.
    assert (H4 : (0 < inject_Z (2 ^ 63))%Q) by reflexivity. nra.
Qed.

(** ** The sum of the squares, around 1 *)

Lemma add_le_one lo hi a b A B :
  float_at lo hi a A -> float_at lo hi b B -> -16000 <= lo -> hi <= 16000 ->
  (A + B <= 1 + pow2 (-64))%Q ->
  exists S, float_at lo (hi + 2) (ld_add a b) S /\ (S <= 1)%Q.
Proof.
  intros Ha Hb Hlo Hhi Hsum.
  destruct (ld_add_spec a b A B lo hi Ha Hb Hlo Hhi) as (S & k & HfS & Hn & Hlow & Hupp).
  exists S. split; [exact HfS |].
  destruct Hn as (_ & Hmono & _ & Htie & _).
  assert (Hsmall : (pow2 (-64) < 1)%Q) by reflexivity.
  destruct (Qlt_le_dec 1 (A + B)) as [Hgt | Hle].
  - assert (Hk1 : -64 < k).
    { assert (H : (pow2 0 < pow2 (k + 64))%Q) by (change (pow2 0) with 1%Q; lra).
      apply pow2_lt_inv in H. lia. }
    assert (Hk2 : k + 63 < 1).
    { apply pow2_lt_inv. change (pow2 1) with 2%Q. lra. }
    assert (Hk : k = -63) by lia. subst k.
    rewrite <- (one_on_grid (-63)) by lia. apply Htie; [reflexivity |].
    rewrite (one_on_grid (-63)) by lia. change (pow2 (-63 - 1)) with (pow2 (-64)). exact Hsum.
  - assert (Hk : k <= 0).
    { assert (H : (pow2 (k + 63) <= pow2 0)%Q) by (change (pow2 0) with 1%Q; lra).
      apply pow2_le_inv in H. lia. }
    rewrite <- (one_on_grid k) by exact Hk. apply Hmono.
    rewrite (one_on_grid k) by exact Hk. exact Hle.
Qed.

Lemma add_ge_margin lo hi a b A B :
  float_at lo hi a A -> float_at lo hi b B -> -16000 <= lo -> hi <= 16000 ->
  (A <= 1)%Q -> (B <= 1)%Q -> (1 + pow2 (-61) <= A + B)%Q ->
  exists S, float_at lo (hi + 2) (ld_add a b) S /\ (1 + pow2 (-61) <= S)%Q.
Proof.
  intros Ha Hb Hlo Hhi HA HB Hsum.
  destruct (ld_add_spec a b A B lo hi Ha Hb Hlo Hhi) as (S & k & HfS & Hn & Hlow & Hupp).
  exists S. split; [exact HfS |].
  destruct Hn as (_ & _ & Hmono & _).
  assert (Hk : k + 63 < 2).
  { apply pow2_lt_inv. change (pow2 2) with 4%Q. lra. }
  assert (Hg : (val ((2 ^ 61 + 1) * 2 ^ (- 61 - k)) k == 1 + pow2 (-61))%Q).
  { replace k with (-61 - (-61 - k)) at 2 by lia.
    rewrite val_shift by lia. reflexivity. }
  rewrite <- Hg. apply Hmono. rewrite Hg. exact Hsum.
Qed.

(** ** Conversion of a [double] *)

Lemma shl_align_spec m e e' :
  e' <= e -> exists p, shl_align m e e' = (p, e') /\ Zpos p = Zpos m * 2 ^ (e - e').
Proof.
  intros H. unfold shl_align. destruct (e' - e) as [| d | d] eqn:Hd; try lia.
  - exists m. replace e' with e by lia. rewrite Z.sub_diag, Z.mul_1_r. split; reflexivity.
  - exists (Pos.iter xO m d). rewrite pos_iter_xO. replace (e - e') with (Zpos d) by lia.
    split; reflexivity.
Qed.

Lemma nearest_even_grid c k R : nearest_even (val c k) k R -> (R == val c k)%Q.
Proof.
  intros (_ & Hup & Hdown & _). apply Qle_antisym.
  - apply Hup, Qle_refl.
  - apply Hdown, Qle_refl.
Qed.

Lemma to_ld_spec m e :
  Zdigits2 (Zpos m) <= 64 -> -16000 <= e <= 16000 ->
  float_at (e - 63) e (to_ld (S754_finite false m e)) (val (Zpos m) e).
Proof.
  intros Hd He. unfold to_ld, binary_round.
  change (Zpos (digits2_pos m)) with (Zdigits2 (Zpos m)).
  pose proof (Zdigits2_spec (Zpos m) ltac:(lia)) as Hdm.
  assert (Hd1 : 1 <= Zdigits2 (Zpos m)) by (cbn [Zdigits2]; lia).
  rewrite fexp_ld.
  replace (Z.max (Zdigits2 (Zpos m) + e - 64) (-16445)) with (e - (64 - Zdigits2 (Zpos m)))
    by lia.
  set (j := 64 - Zdigits2 (Zpos m)) in *.
  destruct (shl_align_spec m e (e - j) ltac:(lia)) as (p & -> & Hp).
  replace (e - (e - j)) with j in Hp by lia.
  assert (Hp64 : 2 ^ 63 <= Zpos p < 2 ^ 64).
  { assert (E63 : 2 ^ 63 = 2 ^ (Zdigits2 (Zpos m) - 1) * 2 ^ j)
      by (rewrite <- Z.pow_add_r by (unfold j; lia); f_equal; unfold j; lia).
    assert (E64 : 2 ^ 64 = 2 ^ Zdigits2 (Zpos m) * 2 ^ j)
      by (rewrite <- Z.pow_add_r by (unfold j; lia); f_equal; unfold j; lia).
    rewrite Hp, E63, E64.
    assert (0 < 2 ^ j) by (apply Z.pow_pos_nonneg; unfold j; lia). nia. }
  assert (Hdp : Zdigits2 (Zpos p) = 64) by (apply Zdigits2_unique; lia).
  destruct (round_exact (Zpos p) (e - j) ltac:(lia) ltac:(lia) ltac:(lia))
    as (R & Hf & Hn & _).
  replace (e - j + Zdigits2 (Zpos p) - 64) with (e - j) in * by lia.
  apply nearest_even_grid in Hn.
  assert (HV : (val (Zpos p) (e - j) == val (Zpos m) e)%Q).
  { rewrite Hp. apply val_shift. unfold j. lia. }
  destruct Hf as (m3 & e3 & Hr & Hm3 & He3 & HR).
  exists m3, e3. split; [exact Hr |]. split; [exact Hm3 |].
  split.
  - assert (He3' : e3 = e - j).
    { destruct (Z.eq_dec e3 (e - j)) as [E | E]; [exact E | exfalso].
      assert (E' : e3 = e - j + 1) by lia.
      assert (H1 : (val (Zpos p) (e - j) < val (2 ^ 64) (e - j))%Q) by (apply val_lt; lia).
      assert (H2 : (val (2 ^ 63) e3 <= val (Zpos m3) e3)%Q) by (apply val_le; lia).
      assert (H3 : (val (2 ^ 63) e3 == val (2 ^ 64) (e - j))%Q).
      { rewrite E'. rewrite <- (val_shift (2 ^ 63) (e - j + 1) 1) by lia.
        replace (e - j + 1 - 1) with (e - j) by lia. reflexivity. }
      lra. }
    unfold j in *. lia.
  - rewrite <- HV, <- Hn, HR. reflexivity.
Qed.

(** A [double] in [[0, 1)]. *)
Lemma unit_double_cases x :
  valid_binary dbl_prec dbl_emax x = true -> in_unit_interval x = Some true ->
  (exists s, x = S754_zero s)
  \/ (exists m e,
        x = S754_finite false m e /\ Zdigits2 (Zpos m) <= 53 /\ -1074 <= e <= 971
        /\ real_value x = Some (val (Zpos m) e)
        /\ (0 < val (Zpos m) e < 1)%Q).
Proof.
  intros Hv Hu. destruct x as [s | s | | s m e]; try discriminate Hu.
  - left. exists s. reflexivity.
  - right. unfold in_unit_interval in Hu. cbn [real_value] in Hu.
    injection Hu as Hu. apply andb_prop in Hu as [H0 H1].
    apply Qle_bool_iff in H0. apply negb_true_iff in H1.
    pose proof (pow2_pos e) as Hp.
    destruct s.
    + exfalso. assert (H2 : (inject_Z (Zneg m) < 0)%Q) by reflexivity. nra.
    + exists m, e. split; [reflexivity |].
      cbn [valid_binary] in Hv. unfold bounded, canonical_mantissa in Hv.
      apply andb_prop in Hv as [Hc Hb]. apply Z.eqb_eq in Hc. apply Z.leb_le in Hb.
      change (fexp dbl_prec dbl_emax (Zpos (digits2_pos m) + e))
        with (Z.max (Zdigits2 (Zpos m) + e - 53) (-1074)) in Hc.
      change (dbl_emax - dbl_prec) with 971 in Hb.
      split; [lia |]. split; [lia |]. split; [reflexivity |].
      split.
      * assert (H2 : (0 < inject_Z (Zpos m))%Q) by reflexivity. nra.
      * apply Qnot_le_lt. intros H. apply Qle_bool_iff in H. congruence.
Qed.

(** ** The test of line 188 against the exact one *)

Lemma float_at_weaken lo hi lo' hi' r R :
  float_at lo hi r R -> lo' <= lo -> hi <= hi' -> float_at lo' hi' r R.
Proof.
  intros (m & e & Hr & Hm & He & HR) Hlo Hhi. exists m, e. repeat split; try assumption; lia.
Qed.

Lemma square_spec m e :
  Zdigits2 (Zpos m) <= 53 -> -1074 <= e <= 971 -> (0 < val (Zpos m) e < 1)%Q ->
  exists A,
    float_at (-2400) 2100
      (ld_mul (to_ld (S754_finite false m e)) (to_ld (S754_finite false m e))) A
    /\ (A <= 1)%Q
    /\ (A - val (Zpos m) e * val (Zpos m) e <= pow2 (-65))%Q
    /\ (val (Zpos m) e * val (Zpos m) e - A <= pow2 (-65))%Q.
Proof.
  intros Hd He HX. set (X := val (Zpos m) e) in *.
  pose proof (to_ld_spec m e ltac:(lia) ltac:(lia)) as Hx. fold X in Hx.
  apply (float_at_weaken _ _ (-1137) 971) in Hx; [| lia | lia].
  destruct (ld_mul_spec _ _ X X (-1137) 971 Hx Hx ltac:(lia) ltac:(lia))
    as (A & k & HfA & Hn & Hlow & Hupp).
  exists A. split; [apply (float_at_weaken _ _ _ _ _ _ HfA); lia |].
  assert (Hk : k + 63 < 0).
  { apply pow2_lt_inv. change (pow2 0) with 1%Q. nra. }
  pose proof (pow2_le (k - 1) (-65) ltac:(lia)) as Hu.
  destruct Hn as ([He1 He2] & Hmono & _).
  split; [| split; lra].
  rewrite <- (one_on_grid k) by lia. apply Hmono. rewrite (one_on_grid k) by lia. nra.
Qed.

Lemma in_circle_agreement x0 y0 :
  valid_binary dbl_prec dbl_emax x0 = true -> in_unit_interval x0 = Some true ->
  valid_binary dbl_prec dbl_emax y0 = true -> in_unit_interval y0 = Some true ->
  (exactly_in_circle x0 y0 = Some true -> in_circle (to_ld x0) (to_ld y0) = true)
  /\ (in_circle (to_ld x0) (to_ld y0) = true ->
      exists x y,
        real_value x0 = Some x /\ real_value y0 = Some y
        /\ (x * x + y * y < 1 + pow2 (-60))%Q).
Proof.
  intros Hvx Hux Hvy Huy.
  assert (H60 : (0 < pow2 (-60))%Q) by reflexivity.
  destruct (unit_double_cases x0 Hvx Hux) as [[sx ->] | (mx & ex & -> & Hdx & Hex & Hrx & HX)];
    destruct (unit_double_cases y0 Hvy Huy) as [[sy ->] | (my & ey & -> & Hdy & Hey & Hry & HY)].
  - split; [intros _; destruct sx, sy; reflexivity |].
    intros _. exists 0%Q, 0%Q. repeat split. 
  - destruct (square_spec my ey Hdy Hey HY) as (B & HfB & HB1 & _).
    assert (Hin : in_circle (to_ld (S754_zero sx)) (to_ld (S754_finite false my ey)) = true).
    { unfold in_circle. cbn [to_ld].
      change (ld_mul (S754_zero sx) (S754_zero sx)) with (S754_zero (xorb sx sx)).
      set (b := ld_mul _ _) in *.
      assert (Hadd : ld_add (S754_zero (xorb sx sx)) b = b).
      { destruct HfB as (mb & eb & -> & _). reflexivity. }
      rewrite Hadd. apply (sqrt_le_one _ _ _ _ HfB); [lia | lia | exact HB1]. }
    split; [intros _; exact Hin |].
    intros _. exists 0%Q, (val (Zpos my) ey). repeat split. nra.
  - destruct (square_spec mx ex Hdx Hex HX) as (A & HfA & HA1 & _).
    assert (Hin : in_circle (to_ld (S754_finite false mx ex)) (to_ld (S754_zero sy)) = true).
    { unfold in_circle. cbn [to_ld].
      change (ld_mul (S754_zero sy) (S754_zero sy)) with (S754_zero (xorb sy sy)).
      set (a := ld_mul _ _) in *.
      assert (Hadd : ld_add a (S754_zero (xorb sy sy)) = a).
      { destruct HfA as (ma & ea & -> & _). reflexivity. }
      rewrite Hadd. apply (sqrt_le_one _ _ _ _ HfA); [lia | lia | exact HA1]. }
    split; [intros _; exact Hin |].
    intros _. exists (val (Zpos mx) ex), 0%Q. repeat split. nra.
  - destruct (square_spec mx ex Hdx Hex HX) as (A & HfA & HA1 & HAu & HAl).
    destruct (square_spec my ey Hdy Hey HY) as (B & HfB & HB1 & HBu & HBl).
    set (X := val (Zpos mx) ex) in *. set (Y := val (Zpos my) ey) in *.
    unfold in_circle.
    set (a := ld_mul (to_ld (S754_finite false mx ex)) _) in *.
    set (b := ld_mul (to_ld (S754_finite false my ey)) _) in *.
    assert (H65 : (pow2 (-65) + pow2 (-65) == pow2 (-64))%Q) by reflexivity.
    split.
    + intros Hex'. unfold exactly_in_circle in Hex'. rewrite Hrx, Hry in Hex'.
      injection Hex' as Hex'. apply Qle_bool_iff in Hex'. fold X Y in Hex'.
      destruct (add_le_one (-2400) 2100 a b A B HfA HfB ltac:(lia) ltac:(lia) ltac:(lra))
        as (S & HfS & HS).
      apply (sqrt_le_one _ _ _ _ HfS); [lia | lia | exact HS].
    + intros Hin. exists X, Y. split; [exact Hrx |]. split; [exact Hry |].
      apply Qnot_le_lt. intros Hout.
      assert (H61 : (pow2 (-61) + pow2 (-64) <= pow2 (-60))%Q) by (vm_compute; discriminate).
      destruct (add_ge_margin (-2400) 2100 a b A B HfA HfB ltac:(lia) ltac:(lia) HA1 HB1
                  ltac:(lra)) as (S & HfS & HS).
      rewrite (sqrt_gt_one _ _ _ _ HfS ltac:(lia) ltac:(lia) HS) in Hin. discriminate.
Qed.

(** With one cell per thread, the sums of [analysis] are those of the
    tails of the arrays. *)
Lemma analysis_record_tail n cs ts :
  length cs = n -> length ts = n ->
  analysis_record n cs ts
  = mk_deviation
      (ld_sub (to_ld test_pi)
         (calculated_pi (to_int (sumZ (tail cs))) (to_int (sumZ (tail ts)))))
      (wrap32 (sumZ (tail ts))).
Proof.
  intros Hc Ht. rewrite analysis_record_spec.
  rewrite <- Hc at 1. rewrite <- Ht. rewrite !slot_sum_tail. reflexivity.
Qed.

(** C10: [analysis] adds the [unsigned int] counters into [int] variables,
    so [count_in] and [count_total] are the true sums modulo 2^32 read as
    signed numbers; the estimate divides these signed values and the record
    stores the sum of [total] modulo 2^32.  Once the true sum of [total]
    reaches 2^31 the divisor is no longer that sum (below 2^32 it is the sum
    minus 2^32, a negative number), and from 2^32 on the recorded number of
    points is not the sum either. *)
Theorem analysis_sums_are_int_wrapped {Gen} (st : state Gen) :
  let n := supported_threads st in
  let sumIn := slot_sum (count st) 1 (n - 1) in
  let sumTotal := slot_sum (total st) 1 (n - 1) in
  analysis_sums n (count st) (total st) = (to_int sumIn, to_int sumTotal)
  /\ deviation (analysis st)
     = deviation st
       ++ [mk_deviation
             (ld_sub (to_ld test_pi)
                (ld_mul (ld_div (of_Z (to_int sumIn)) (of_Z (to_int sumTotal))) (of_Z 4)))
             (wrap32 sumTotal)]
  /\ (2 ^ 31 <= sumTotal -> to_int sumTotal <> sumTotal)
  /\ (2 ^ 31 <= sumIn -> to_int sumIn <> sumIn)
  /\ (2 ^ 31 <= sumTotal < 2 ^ 32 -> to_int sumTotal = sumTotal - 2 ^ 32)
  /\ (2 ^ 32 <= sumTotal -> wrap32 sumTotal <> sumTotal).
Proof.
  intros n sumIn sumTotal. subst n sumIn sumTotal.
  split; [apply analysis_sums_spec |].
  split; [rewrite analysis_deviation, analysis_record_spec; reflexivity |].
  split; [intros H; pose proof (to_int_range (slot_sum (total st) 1 (supported_threads st - 1))); lia |].
  split; [intros H; pose proof (to_int_range (slot_sum (count st) 1 (supported_threads st - 1))); lia |].
  split.
  - intros H. unfold to_int. rewrite wrap32_small by lia.
    destruct (Z.ltb_spec (slot_sum (total st) 1 (supported_threads st - 1)) (2 ^ 31)); lia.
  - intros H. pose proof (wrap32_range (slot_sum (total st) 1 (supported_threads st - 1))). lia.
Qed.

Lemma analysis_sums_are_int_wrapped_witness :
  2 ^ 31 <= slot_sum (total big_slots) 1 1 < 2 ^ 32
  /\ analysis_sums 2 (count big_slots) (total big_slots) = (- 2 ^ 31, - 2 ^ 31 + 8)
  /\ to_int (slot_sum (total big_slots) 1 1) <> slot_sum (total big_slots) 1 1.
Proof.
  assert (H : 2 ^ 31 <= slot_sum (total big_slots) 1 1 < 2 ^ 32) by (vm_compute; split; congruence).
  split; [exact H |].
  destruct (analysis_sums_are_int_wrapped big_slots) as (Hs & _ & Hne & _).
  split; [exact Hs | apply Hne, H].
Defined.

(** C2 (as amended): when [count_total] is zero, [analysis] still pushes
    exactly one record.  Its number of points is 0 and its deviation comes
    from a floating-point division by zero: it is NaN when [count_in] is zero
    too, and NaN or an infinity otherwise; it is never a finite number. *)
Theorem analysis_divides_by_zero_total {Gen} (st : state Gen) :
  let sums := analysis_sums (supported_threads st) (count st) (total st) in
  snd sums = 0 ->
  exists a,
    deviation (analysis st) = deviation st ++ [mk_deviation a 0]
    /\ a = ld_sub (to_ld test_pi)
             (ld_mul (ld_div (of_Z (fst sums)) (S754_zero false)) (of_Z 4))
    /\ (a = S754_nan \/ exists s, a = S754_infinity s)
    /\ (fst sums = 0 -> a = S754_nan).
Proof.
  intros sums Hzero. subst sums.
  eexists. split; [| split; [reflexivity | split]].
  - rewrite analysis_deviation. unfold analysis_record.
    destruct (analysis_sums _ _ _) as [cin ctot]. simpl in Hzero. subst ctot.
    reflexivity.
  - apply deviation_of_infinite, ld_div_zero_not_finite.
  - intros ->. reflexivity.
Qed.

Lemma analysis_divides_by_zero_total_witness :
  snd (analysis_sums 2 (count idle_slots) (total idle_slots)) = 0
  /\ deviation (analysis idle_slots) = [mk_deviation S754_nan 0].
Proof.
  split; [reflexivity |].
  destruct (analysis_divides_by_zero_total idle_slots eq_refl) as (a & Hd & _ & _ & Hnan).
  rewrite Hd, (Hnan eq_refl). reflexivity.
Defined.

(** ** Array cells *)

Lemma cell_insert_eq (l : list Z) k v : (k < length l)%nat -> cell (<[k := v]> l) k = v.
Proof. intros H. unfold cell. rewrite list_lookup_insert_eq by exact H. reflexivity. Qed.

Lemma cell_insert_ne (l : list Z) k j v : k <> j -> cell (<[k := v]> l) j = cell l j.
Proof. intros H. unfold cell. rewrite list_lookup_insert_ne by exact H. reflexivity. Qed.

Lemma flag_insert_eq (l : list bool) k v : (k < length l)%nat -> flag (<[k := v]> l) k = v.
Proof. intros H. unfold flag. rewrite list_lookup_insert_eq by exact H. reflexivity. Qed.

Lemma flag_insert_ne (l : list bool) k j v : k <> j -> flag (<[k := v]> l) j = flag l j.
Proof. intros H. unfold flag. rewrite list_lookup_insert_ne by exact H. reflexivity. Qed.

Lemma cell_new_array (junk : nat -> Z) n k : (k < n)%nat -> cell (junk <$> seq 0 n) k = junk k.
Proof.
  intros H. unfold cell. rewrite list_lookup_fmap, lookup_seq_lt by exact H. reflexivity.
Qed.

(** ** The interleaved program *)

(** Case analysis on the statement a thread is about to run. *)
Ltac split_branches :=
  repeat match goal with
    | |- context [if ?b then _ else _] => destruct b eqn:?
    | |- context [let '(_, _) := ?p in _] => destruct p eqn:?
    end.

Ltac worker_cases k st w Hw Hpc :=
  unfold pi_count;
  destruct (workers st !! k) as [w |] eqn:Hw;
  [ pose proof (lookup_lt_Some _ _ _ Hw); destruct (wpc w) eqn:Hpc; split_branches; simpl
  | simpl ].

Ltac main_cases st Hm w Hw Hpc :=
  unfold main;
  destruct (mpc st) eqn:Hm;
  try match goal with
    | |- context [workers st !! ?i] =>
        destruct (workers st !! i) as [w |] eqn:Hw; [destruct (wpc w) eqn:Hpc |]
    end;
  simpl.

(** Running a schedule one step at a time, on explicit states. *)
Ltac norm_state :=
  cbn -[in_circle to_ld analysis_record wrap32 run];
  unfold set_worker, set_count, set_total, set_retire, set_xgen, set_ygen,
    set_deviation, set_mpc, print, at_pc, analysis;
  cbn -[in_circle to_ld analysis_record wrap32 run].

Section Interleaving.

Context {Gen : Type}.
Variable draw : Gen -> spec_float * Gen.
Variable junk_count junk_total : nat -> Z.
Variable junk_retire : nat -> bool.
Implicit Type st : state Gen.

Local Abbreviation wstep := (pi_count draw).
Local Abbreviation mstep := (main junk_count junk_total junk_retire).
Local Abbreviation pstep := (step draw junk_count junk_total junk_retire).
Local Abbreviation prun := (run draw junk_count junk_total junk_retire).

Lemma run_cons_eq t sched st : prun (t :: sched) st = prun sched (pstep t st).
Proof. reflexivity. Qed.

Ltac run_one := rewrite run_cons_eq; norm_state.

Lemma run_snoc sched t st : prun (sched ++ [t]) st = pstep t (prun sched st).
Proof. unfold run. rewrite fold_left_app. reflexivity. Qed.

Lemma run_app s1 s2 st : prun (s1 ++ s2) st = prun s2 (prun s1 st).
Proof. unfold run. apply fold_left_app. Qed.

(** What a step of thread [k] leaves alone. *)
Lemma pi_count_frame k st :
  mpc (wstep k st) = mpc st
  /\ supported_threads (wstep k st) = supported_threads st
  /\ retire (wstep k st) = retire st
  /\ stdout (wstep k st) = stdout st
  /\ length (count (wstep k st)) = length (count st)
  /\ length (total (wstep k st)) = length (total st)
  /\ length (workers (wstep k st)) = length (workers st).
Proof.
  worker_cases k st w Hw Hpc; rewrite ?length_insert; repeat split.
Qed.

Lemma pi_count_others k j st :
  j <> k ->
  workers (wstep k st) !! j = workers st !! j
  /\ cell (count (wstep k st)) j = cell (count st) j
  /\ cell (total (wstep k st)) j = cell (total st) j.
Proof.
  intros Hne.
  worker_cases k st w Hw Hpc;
    rewrite ?list_lookup_insert_ne, ?cell_insert_ne by congruence; repeat split.
Qed.

Lemma pi_count_start k st :
  mpc st = MStart -> sized st -> wstep k st = st.
Proof.
  intros Hm [Hs _]. destruct (Hs Hm) as (_ & _ & _ & Hw & _).
  unfold pi_count. rewrite Hw. reflexivity.
Qed.

(** A thread that is not launched, or has returned, does nothing. *)
Lemma pi_count_idle k st :
  wpc_of st k = WNotLaunched \/ wpc_of st k = WExited -> wstep k st = st.
Proof.
  unfold wpc_of, pi_count.
  destruct (workers st !! k) as [w |]; [| reflexivity].
  intros [-> | ->]; reflexivity.
Qed.

Lemma wpc_of_pi_count_stable k j st pc :
  pc = WNotLaunched \/ pc = WExited ->
  wpc_of st j = pc -> wpc_of (wstep k st) j = pc.
Proof.
  intros Hpc Hj. destruct (decide (j = k)) as [-> | Hne].
  - rewrite pi_count_idle; [exact Hj | rewrite Hj; exact Hpc].
  - unfold wpc_of in *.
    destruct (pi_count_others k j st Hne) as (-> & _). exact Hj.
Qed.

(** *** The loop tests of [main] *)

Lemma thread_count_pos hc : (1 <= thread_count hc)%nat.
Proof. unfold thread_count. destruct (Nat.eqb_spec hc 0); lia. Qed.

Lemma launch_from_cases i n :
  ((i < n)%nat /\ launch_from i n = MInitRetire i)
  \/ ((n <= i)%nat /\ launch_from i n = MGetchar).
Proof. unfold launch_from. destruct (Nat.ltb_spec i n); [left | right]; auto. Qed.

Lemma aggregate_from_cases i n :
  ((i < n)%nat /\ aggregate_from i n = MAggCount i)
  \/ ((n <= i)%nat /\ aggregate_from i n = MReport).
Proof. unfold aggregate_from. destruct (Nat.ltb_spec i n); [left | right]; auto. Qed.

Lemma stop_from_cases i n :
  ((i < n)%nat /\ stop_from i n = MSetRetire i)
  \/ ((n <= i)%nat /\ (1 < n)%nat /\ stop_from i n = MAggCount 1)
  \/ ((n <= i)%nat /\ (n <= 1)%nat /\ stop_from i n = MReport).
Proof.
  unfold stop_from. destruct (Nat.ltb_spec i n); [left; auto |].
  destruct (aggregate_from_cases 1 n) as [[? ->] | [? ->]]; auto.
Qed.

Lemma launch_from_started i n : launch_from i n <> MStart.
Proof. destruct (launch_from_cases i n) as [[_ ->] | [_ ->]]; discriminate. Qed.

Lemma aggregate_from_started i n : aggregate_from i n <> MStart.
Proof. destruct (aggregate_from_cases i n) as [[_ ->] | [_ ->]]; discriminate. Qed.

Lemma stop_from_started i n : stop_from i n <> MStart.
Proof.
  destruct (stop_from_cases i n) as [[_ ->] | [(_ & _ & ->) | (_ & _ & ->)]]; discriminate.
Qed.

(** *** The array sizes *)

Lemma sized_initial hc (sx sy : Gen) : sized (initial hc sx sy).
Proof. split; [repeat split | intros H; contradiction H; reflexivity]. Qed.

Lemma sized_pi_count k st : sized st -> sized (wstep k st).
Proof.
  intros Hs. destruct (decide (mpc st = MStart)) as [Hm | Hm].
  - rewrite pi_count_start; assumption.
  - unfold sized in *.
    destruct (pi_count_frame k st) as (-> & -> & -> & _ & -> & -> & ->).
    split; [congruence | apply Hs].
Qed.

Lemma sized_allocate st : sized (allocate junk_count junk_total junk_retire st).
Proof.
  split; simpl.
  - intros H. contradiction (launch_from_started _ _ H).
  - intros _. unfold new_array.
    rewrite !length_fmap, !length_seq, length_replicate.
    repeat split. apply thread_count_pos.
Qed.

Lemma sized_main st : sized st -> sized (mstep st).
Proof.
  intros [Hs0 Hs].
  destruct (decide (mpc st = MStart)) as [Hm | Hm].
  { unfold main. rewrite Hm. apply sized_allocate. }
  specialize (Hs Hm). unfold sized.
  main_cases st Hm' w Hw Hpc; try congruence;
    (split;
     [ intros H;
       first [ discriminate H
             | contradiction (launch_from_started _ _ H)
             | contradiction (stop_from_started _ _ H)
             | contradiction (aggregate_from_started _ _ H)
             | congruence ]
     | intros _; rewrite ?length_insert; exact Hs ]).
Qed.

Lemma sized_step t st : sized st -> sized (pstep t st).
Proof. destruct t; [apply sized_main | apply sized_pi_count]. Qed.

(** *** How far the threads are *)

Lemma stage_pi_count k st : stage st -> stage (wstep k st).
Proof.
  unfold stage, exited_below, not_launched_from.
  destruct (pi_count_frame k st) as (-> & -> & _).
  intros Hs.
  destruct (mpc st); try exact I;
    try (destruct Hs as [Hi Hs]; split; [exact Hi |]);
    intros j Hj; apply wpc_of_pi_count_stable; auto.
Qed.

Lemma wpc_of_replicate n j (w : worker) :
  wpc w = WNotLaunched ->
  match replicate n w !! j with Some w' => wpc w' | None => WNotLaunched end = WNotLaunched.
Proof.
  intros Hw. destruct (replicate n w !! j) as [w' |] eqn:E; [| reflexivity].
  apply lookup_replicate in E as [-> _]. exact Hw.
Qed.

Lemma stage_allocate st : stage (allocate junk_count junk_total junk_retire st).
Proof.
  unfold stage. simpl.
  pose proof (thread_count_pos (supported_threads st)) as Hn.
  destruct (launch_from_cases 0 (thread_count (supported_threads st))) as [[H ->] | [H ->]];
    [| exact I].
  split; [exact H |]. intros j _. unfold wpc_of. simpl.
  apply wpc_of_replicate. reflexivity.
Qed.

Lemma stage_main st : stage st -> stage (mstep st).
Proof.
  intros Hs. unfold stage in *.
  main_cases st Hm w Hw Hpc; rewrite ?Hm; try exact Hs;
    unfold exited_below, not_launched_from, wpc_of in *; simpl.
  - apply stage_allocate.
  - destruct Hs as [Hi Hs].
    destruct (launch_from_cases (S i) (supported_threads st)) as [[H ->] | [H ->]];
      [| exact I].
    split; [exact H |]. intros j Hj.
    rewrite list_lookup_insert_ne by lia. apply Hs. lia.
  - destruct (stop_from_cases 0 (supported_threads st))
      as [[H ->] | [(H & H1 & ->) | (H & H1 & ->)]].
    + split; [exact H |]. intros j Hj. lia.
    + lia.
    + intros j Hj. lia.
  - destruct Hs as [Hi Hs].
    assert (Hex : forall j, (j < S i)%nat ->
              match workers st !! j with Some w' => wpc w' | None => WNotLaunched end
              = WExited).
    { intros j Hj. destruct (decide (j = i)) as [-> | Hne].
      - rewrite Hw. exact Hpc.
      - apply Hs. lia. }
    destruct (stop_from_cases (S i) (supported_threads st))
      as [[H ->] | [(H & H1 & ->) | (H & H1 & ->)]].
    + split; [exact H |]. exact Hex.
    + split; [lia |]. intros j Hj. apply Hex. lia.
    + intros j Hj. apply Hex. lia.
  - destruct Hs as [Hi Hs].
    destruct (aggregate_from_cases (S i) (supported_threads st)) as [[H ->] | [H ->]].
    + split; [lia | exact Hs].
    + exact Hs.
Qed.

Lemma stage_step t st : stage st -> stage (pstep t st).
Proof. destruct t; [apply stage_main | apply stage_pi_count]. Qed.

(** *** The [retire] flags *)

Lemma retire_inv_pi_count k st : retire_inv st -> retire_inv (wstep k st).
Proof.
  unfold retire_inv, flags_below, flags_from.
  destruct (pi_count_frame k st) as (-> & -> & -> & _). auto.
Qed.

Lemma retire_inv_main st :
  sized st -> retire_inv st -> retire_inv (mstep st).
Proof.
  intros [_ Hsz] Hr.
  destruct (decide (mpc st = MStart)) as [Hm0 | Hm0].
  { unfold main, retire_inv. rewrite Hm0. simpl.
    destruct (launch_from_cases 0 (thread_count (supported_threads st))) as [[H ->] | [H ->]].
    - intros j Hj. lia.
    - pose proof (thread_count_pos (supported_threads st)). lia. }
  destruct (Hsz Hm0) as (Hn & _ & _ & Hlen & _).
  unfold retire_inv in *.
  main_cases st Hm w Hw Hpc; rewrite ?Hm; try exact Hr; try congruence;
    unfold flags_below, flags_from in *; simpl.
  - intros j Hj Hjn. destruct (decide (j = i)) as [-> | Hne].
    + apply flag_insert_eq. lia.
    + rewrite flag_insert_ne by congruence. apply Hr; lia.
  - destruct (launch_from_cases (S i) (supported_threads st)) as [[H ->] | [H ->]].
    + exact Hr.
    + intros j Hj Hjn. apply Hr; lia.
  - destruct (stop_from_cases 0 (supported_threads st))
      as [[H ->] | [(H & H1 & ->) | (H & H1 & ->)]]; try lia.
    split; [intros j Hj; lia | intros j Hj Hjn; apply Hr; lia].
  - destruct Hr as [Hb Hf]. split.
    + intros j Hj Hjn. destruct (decide (j = i)) as [-> | Hne].
      * apply flag_insert_eq. lia.
      * rewrite flag_insert_ne by congruence. apply Hb; lia.
    + intros j Hj Hjn. rewrite flag_insert_ne by lia. apply Hf; lia.
  - destruct Hr as [Hb Hf].
    destruct (stop_from_cases (S i) (supported_threads st))
      as [[H ->] | [(H & H1 & ->) | (H & H1 & ->)]].
    + split; assumption.
    + intros j Hj Hjn. apply Hb; lia.
    + intros j Hj Hjn. apply Hb; lia.
  - destruct (aggregate_from_cases (S i) (supported_threads st)) as [[H ->] | [H ->]];
      exact Hr.
Qed.

(** *** Counters that are not initialised yet *)

Lemma junk_inv_pi_count k st :
  sized st -> junk_inv junk_count junk_total st ->
  junk_inv junk_count junk_total (wstep k st).
Proof.
  intros [_ Hsz] Hj. unfold junk_inv in *.
  destruct (pi_count_frame k st) as (Hm & Hn & _). rewrite Hm, Hn.
  intros Hm0 j Hjn. specialize (Hj Hm0 j Hjn).
  destruct (Hsz Hm0) as (_ & Hlc & Hlt & _).
  destruct (decide (j = k)) as [-> | Hne].
  - clear Hm Hn. revert Hj. unfold wpc_of.
    worker_cases k st w Hw Hpc; rewrite ?Hw, ?Hpc;
      rewrite ?list_lookup_insert_eq by assumption; simpl; try exact (fun _ => I);
      try exact (fun H => H).
    intros [_ Ht]. split; [apply cell_insert_eq; lia | exact Ht].
  - unfold wpc_of in *.
    destruct (pi_count_others k j st Hne) as (-> & -> & ->). exact Hj.
Qed.

Lemma junk_inv_main st :
  sized st -> stage st -> junk_inv junk_count junk_total st ->
  junk_inv junk_count junk_total (mstep st).
Proof.
  intros [_ Hsz] Hst Hj.
  destruct (decide (mpc st = MStart)) as [Hm0 | Hm0].
  { unfold main, junk_inv. rewrite Hm0. simpl. intros _ k Hk.
    unfold wpc_of. simpl. rewrite lookup_replicate_2 by exact Hk. simpl.
    unfold new_array. rewrite !cell_new_array by exact Hk. split; reflexivity. }
  specialize (Hj Hm0). destruct (Hsz Hm0) as (Hn & Hlc & Hlt & _ & Hlw).
  unfold junk_inv, stage in *.
  main_cases st Hm w Hw Hpc; try congruence; intros _ k Hk; try exact (Hj k Hk);
    specialize (Hj k Hk); unfold wpc_of in *; simpl.
  - destruct Hst as [Hi Hnl]. destruct (decide (k = i)) as [-> | Hne].
    + rewrite list_lookup_insert_eq by lia. simpl.
      specialize (Hnl i (Nat.le_refl i)). unfold wpc_of in Hnl.
      rewrite Hnl in Hj. exact Hj.
    + rewrite list_lookup_insert_ne by congruence. exact Hj.
  - destruct Hst as [_ Hex]. specialize (Hex k Hk). unfold wpc_of in Hex.
    rewrite Hex. exact I.
  - destruct Hst as [_ Hex]. specialize (Hex k Hk). unfold wpc_of in Hex.
    rewrite Hex. exact I.
Qed.

(** *** Counters inside the loop *)

Lemma wrap32_succ_le c : 0 <= c -> 0 <= wrap32 (c + 1) <= c + 1.
Proof.
  intros Hc. pose proof (wrap32_range (c + 1)) as Hr. split; [lia |].
  unfold wrap32. apply Z.mod_le; lia.
Qed.

Lemma wrap64_succ i m : 0 <= i <= m -> m + 1 < 2 ^ 64 -> wrap64 (i + 1) = i + 1.
Proof. intros Hi Hm. unfold wrap64. apply Z.mod_small. lia. Qed.

Lemma launched_sized k w st :
  sized st -> workers st !! k = Some w ->
  (k < length (count st))%nat /\ (k < length (total st))%nat.
Proof.
  intros [Hsz0 Hsz] Hw.
  destruct (decide (mpc st = MStart)) as [Hm | Hm].
  - destruct (Hsz0 Hm) as (_ & _ & _ & Hnil & _). rewrite Hnil in Hw. discriminate.
  - destruct (Hsz Hm) as (_ & -> & -> & _ & <-).
    apply lookup_lt_Some in Hw. auto.
Qed.

Lemma counters_inv_pi_count m k st :
  m + 1 < 2 ^ 64 ->
  sized st -> counters_inv m st -> counters_inv (m + 1) (wstep k st).
Proof.
  intros Hm Hsz Hc. unfold counters_inv in *.
  intros j wj Hwj.
  destruct (decide (j = k)) as [-> | Hne].
  - revert Hwj.
    worker_cases k st w Hw Hpc;
      try (intros Hwj; destruct (Hc k wj Hwj) as [Hi Hrel]; split; [lia | exact Hrel]);
      destruct (launched_sized k w st Hsz Hw) as [Hlc Hlt];
      destruct (Hc k w Hw) as [Hi Hrel]; rewrite Hpc in Hrel;
      rewrite list_lookup_insert_eq by assumption; intros [= <-]; simpl;
      rewrite ?cell_insert_eq by assumption;
      (split; [try lia |]); try exact I; try exact Hrel; try reflexivity.
    + unfold wrap32. rewrite Z.mod_0_l by lia. split; [reflexivity |]. intros _.
      rewrite Hrel. lia.
    + destruct Hrel as [Ht Hcnt]. split; [exact Ht |]. intros Hlt32.
      specialize (Hcnt Hlt32). unfold uint_add.
      pose proof (wrap32_succ_le (cell (count st) k) ltac:(lia)). lia.
    + destruct Hrel as [Ht Hcnt]. split; [exact Ht |]. intros Hlt32.
      specialize (Hcnt Hlt32). lia.
    + destruct Hrel as [Ht Hcnt]. split; [| exact Hcnt].
      unfold uint_add. rewrite Ht. apply wrap32_add_l.
    + rewrite (wrap64_succ (wi w) m) by lia. lia.
    + rewrite (wrap64_succ (wi w) m) by lia. destruct Hrel as [Ht Hcnt].
      split; [exact Ht |]. intros Hlt32. apply Hcnt. lia.
    + rewrite (wrap64_succ (wi w) m) by lia. lia.
    + rewrite (wrap64_succ (wi w) m) by lia. destruct Hrel as [Ht Hcnt].
      split; [exact Ht |]. intros Hlt32. apply Hcnt. lia.
  - destruct (pi_count_others k j st Hne) as (Hw' & -> & ->).
    rewrite Hw' in Hwj. destruct (Hc j wj Hwj) as [Hi Hrel].
    split; [lia | exact Hrel].
Qed.

Lemma counters_inv_main m st :
  0 <= m -> stage st -> sized st -> counters_inv m st -> counters_inv (m + 1) (mstep st).
Proof.
  intros Hm Hst Hsz Hc. unfold counters_inv in *.
  assert (Hweak : forall k w, workers st !! k = Some w ->
            0 <= wi w <= m + 1
            /\ match wpc w with
               | WCheckRetire | WDrawX | WDrawY | WClassify =>
                   cell (total st) k = wrap32 (wi w)
                   /\ (wi w < 2 ^ 32 -> 0 <= cell (count st) k <= wi w)
               | WIncTotal =>
                   cell (total st) k = wrap32 (wi w)
                   /\ (wi w < 2 ^ 32 -> 0 <= cell (count st) k <= wi w + 1)
               | WAnalysis =>
                   cell (total st) k = wrap32 (wi w + 1)
                   /\ (wi w < 2 ^ 32 -> 0 <= cell (count st) k <= wi w + 1)
               | WInitTotal => cell (count st) k = 0
               | _ => True
               end).
  { intros k w Hw. destruct (Hc k w Hw) as [Hi Hrel]. split; [lia | exact Hrel]. }
  clear Hc. unfold stage in Hst.
  main_cases st Hmpc w Hw Hpc; try exact Hweak; intros k wk Hk.
  - apply lookup_replicate in Hk as [-> _]. simpl. split; [lia | exact I].
  - destruct (decide (k = i)) as [-> | Hne].
    + destruct Hst as [Hi _].
      destruct Hsz as [_ Hsz]. destruct (Hsz ltac:(congruence)) as (_ & _ & _ & _ & Hlw).
      rewrite list_lookup_insert_eq in Hk by lia. injection Hk as <-. simpl.
      split; [lia | exact I].
    + rewrite list_lookup_insert_ne in Hk by congruence. exact (Hweak k wk Hk).
  - destruct Hst as [_ Hex].
    destruct Hsz as [_ Hsz]. destruct (Hsz ltac:(congruence)) as (_ & _ & _ & _ & Hlw).
    pose proof (lookup_lt_Some _ _ _ Hk) as Hlt.
    specialize (Hex k ltac:(lia)). unfold wpc_of in Hex. rewrite Hk in Hex.
    destruct (Hweak k wk Hk) as [Hi _]. rewrite Hex. split; [exact Hi | exact I].
  - destruct Hst as [_ Hex].
    destruct Hsz as [_ Hsz]. destruct (Hsz ltac:(congruence)) as (_ & _ & _ & _ & Hlw).
    pose proof (lookup_lt_Some _ _ _ Hk) as Hlt.
    specialize (Hex k ltac:(lia)). unfold wpc_of in Hex. rewrite Hk in Hex.
    destruct (Hweak k wk Hk) as [Hi _]. rewrite Hex. split; [exact Hi | exact I].
Qed.

(** *** The first record *)

(** Only thread 0 calls [analysis]. *)
Lemma pi_count_deviation k st :
  deviation (wstep k st) = deviation st
  \/ (k = 0%nat /\ wpc_of st 0 = WAnalysis
      /\ wi_of st 0 mod analysis_samples_rate = 0
      /\ deviation (wstep k st)
         = deviation st
           ++ [analysis_record (supported_threads st) (count st) (total st)]).
Proof.
  unfold wpc_of, wi_of.
  worker_cases k st w Hw Hpc; auto.
  right.
  match goal with H : _ && _ = true |- _ => apply andb_prop in H as [Hk Hrate] end.
  apply Nat.eqb_eq in Hk. subst k. apply Z.eqb_eq in Hrate.
  rewrite Hw, Hpc. auto.
Qed.

Lemma first_inv_pi_count k st : first_inv st -> first_inv (wstep k st).
Proof.
  intros Hf. unfold first_inv in *.
  destruct (decide (k = 0%nat)) as [-> | Hne].
  - revert Hf. unfold wpc_of, wi_of.
    worker_cases 0%nat st w Hw Hpc; rewrite ?Hw, ?Hpc;
      rewrite ?list_lookup_insert_eq by assumption; simpl; auto;
      try contradiction.
    + intros _ Hnil. destruct (deviation st); discriminate Hnil.
    + intros Hf Hnil _. specialize (Hf Hnil I).
      rewrite Hf in *. discriminate.
  - destruct (pi_count_deviation k st) as [-> | [Hk _]]; [| contradiction].
    unfold wpc_of, wi_of.
    destruct (pi_count_others k 0%nat st ltac:(congruence)) as (-> & _). exact Hf.
Qed.

Lemma first_inv_main st :
  sized st -> stage st -> first_inv st -> first_inv (mstep st).
Proof.
  intros [Hsz0 Hsz] Hst Hf. unfold first_inv, stage in *.
  main_cases st Hm w Hw Hpc; try exact Hf; unfold wpc_of, wi_of in *; simpl.
  - intros _. rewrite lookup_replicate_2 by apply thread_count_pos. simpl. contradiction.
  - intros Hnil. destruct (decide (i = 0%nat)) as [-> | Hne].
    + destruct (Hsz ltac:(congruence)) as (Hn & _ & _ & _ & Hlw).
      rewrite list_lookup_insert_eq by lia. simpl. contradiction.
    + rewrite list_lookup_insert_ne by congruence. auto.
  - intros _. destruct (Hsz ltac:(congruence)) as (Hn & _).
    specialize (Hst 0%nat ltac:(lia)). unfold wpc_of in Hst.
    destruct (workers st !! 0%nat) as [w0 |]; [rewrite Hst |]; contradiction.
Qed.

(** *** The totals *)

Lemma totals_inv_pi_count k st : sized st -> totals_inv st -> totals_inv (wstep k st).
Proof.
  intros Hsz Hc. unfold totals_inv in *.
  intros j wj Hwj.
  destruct (decide (j = k)) as [-> | Hne].
  - revert Hwj.
    worker_cases k st w Hw Hpc;
      try (intros Hwj; exact (Hc k wj Hwj));
      destruct (launched_sized k w st Hsz Hw) as [Hlc Hlt];
      pose proof (Hc k w Hw) as Hrel; rewrite Hpc in Hrel;
      rewrite list_lookup_insert_eq by assumption; intros [= <-]; simpl;
      rewrite ?cell_insert_eq by assumption;
      try exact I; try exact Hrel; try reflexivity.
    + unfold uint_add. rewrite Hrel. apply wrap32_add_l.
    + rewrite wrap32_wrap64. exact Hrel.
    + rewrite wrap32_wrap64. exact Hrel.
  - destruct (pi_count_others k j st Hne) as (Hw' & _ & ->).
    rewrite Hw' in Hwj. exact (Hc j wj Hwj).
Qed.

Lemma totals_inv_main st :
  stage st -> sized st -> totals_inv st -> totals_inv (mstep st).
Proof.
  intros Hst Hsz Hc. unfold totals_inv in *. unfold stage in Hst.
  main_cases st Hmpc w Hw Hpc; try exact Hc; intros k wk Hk.
  - apply lookup_replicate in Hk as [-> _]. exact I.
  - destruct (decide (k = i)) as [-> | Hne].
    + destruct Hst as [Hi _].
      destruct Hsz as [_ Hsz]. destruct (Hsz ltac:(congruence)) as (_ & _ & _ & _ & Hlw).
      rewrite list_lookup_insert_eq in Hk by lia. injection Hk as <-. exact I.
    + rewrite list_lookup_insert_ne in Hk by congruence. exact (Hc k wk Hk).
  - destruct Hst as [_ Hex].
    destruct Hsz as [_ Hsz]. destruct (Hsz ltac:(congruence)) as (_ & _ & _ & _ & Hlw).
    pose proof (lookup_lt_Some _ _ _ Hk) as Hlt.
    specialize (Hex k ltac:(lia)). unfold wpc_of in Hex. rewrite Hk in Hex.
    rewrite Hex. exact I.
Qed.

(** *** All of them together *)

Local Abbreviation inv := (invariant junk_count junk_total).

Lemma invariant_initial hc (sx sy : Gen) : inv (initial hc sx sy).
Proof.
  split; [apply sized_initial |].
  split; [exact I |]. split; [exact I |].
  split; [intros H; contradiction H; reflexivity |].
  split; [intros k w Hw; discriminate Hw |].
  intros _ H. exact (False_ind _ H).
Qed.

Lemma invariant_step t st : inv st -> inv (pstep t st).
Proof.
  intros (Hsz & Hst & Hr & Hj & Hc & Hf).
  split; [apply sized_step, Hsz |].
  split; [apply stage_step, Hst |].
  destruct t as [| k]; simpl.
  - split; [apply retire_inv_main; assumption |].
    split; [apply junk_inv_main; assumption |].
    split; [apply totals_inv_main; assumption |].
    apply first_inv_main; assumption.
  - split; [apply retire_inv_pi_count; assumption |].
    split; [apply junk_inv_pi_count; assumption |].
    split; [apply totals_inv_pi_count; assumption |].
    apply first_inv_pi_count; assumption.
Qed.

Lemma invariant_run sched hc (sx sy : Gen) : inv (prun sched (initial hc sx sy)).
Proof.
  induction sched as [| t sched IH] using rev_ind.
  - apply invariant_initial.
  - rewrite run_snoc. apply invariant_step, IH.
Qed.

Lemma counters_inv_run sched hc (sx sy : Gen) :
  Z.of_nat (length sched) < 2 ^ 64 ->
  counters_inv (Z.of_nat (length sched)) (prun sched (initial hc sx sy)).
Proof.
  induction sched as [| t sched IH] using rev_ind; intros Hlen.
  - intros k w Hw. discriminate Hw.
  - rewrite length_app in *. simpl in *. rewrite run_snoc.
    replace (Z.of_nat (length sched + 1)) with (Z.of_nat (length sched) + 1) in * by lia.
    destruct (invariant_run sched hc sx sy) as (Hsz & Hst & _).
    destruct t as [| k]; simpl.
    + apply counters_inv_main; [lia | assumption | assumption | apply IH; lia].
    + apply counters_inv_pi_count; [lia | assumption | apply IH; lia].
Qed.

(** *** What one step does to the slot of a sampling thread *)

Lemma main_slot st k w :
  sized st -> stage st -> workers st !! k = Some w -> in_loop (wpc w) ->
  cell (count (mstep st)) k = cell (count st) k
  /\ cell (total (mstep st)) k = cell (total st) k.
Proof.
  intros [Hsz0 Hsz] Hst Hk Hloop.
  assert (Hm0 : mpc st <> MStart).
  { intros Hm. destruct (Hsz0 Hm) as (_ & _ & _ & Hnil & _).
    rewrite Hnil in Hk. discriminate. }
  destruct (Hsz Hm0) as (_ & _ & _ & _ & Hlw).
  pose proof (lookup_lt_Some _ _ _ Hk) as Hlt. rewrite Hlw in Hlt.
  unfold stage in Hst.
  main_cases st Hm w' Hw' Hpc'; try congruence; try (split; reflexivity);
    destruct Hst as [_ Hex]; specialize (Hex k Hlt); unfold wpc_of in Hex;
    rewrite Hk in Hex; rewrite Hex in Hloop; contradiction.
Qed.

Lemma pi_count_own_slot st k w :
  sized st -> workers st !! k = Some w ->
  match wpc w with
  | WInitCount =>
      cell (count (wstep k st)) k = 0
      /\ cell (total (wstep k st)) k = cell (total st) k
  | WInitTotal =>
      cell (count (wstep k st)) k = cell (count st) k
      /\ cell (total (wstep k st)) k = 0
  | WClassify =>
      cell (count (wstep k st)) k
      = (if in_circle (wx0 w) (wy0 w)
         then uint_add (cell (count st) k) 1 else cell (count st) k)
      /\ cell (total (wstep k st)) k = cell (total st) k
  | WIncTotal =>
      cell (count (wstep k st)) k = cell (count st) k
      /\ cell (total (wstep k st)) k = uint_add (cell (total st) k) 1
  | _ =>
      cell (count (wstep k st)) k = cell (count st) k
      /\ cell (total (wstep k st)) k = cell (total st) k
  end.
Proof.
  intros Hsz Hk. destruct (launched_sized k w st Hsz Hk) as [Hlc Hlt].
  unfold pi_count. rewrite Hk.
  destruct (wpc w) eqn:Hpc; split_branches; simpl;
    rewrite ?cell_insert_eq by assumption; split; reflexivity.
Qed.

(** Thread 0 at a checkpoint calls [analysis]. *)
Lemma pi_count_checkpoint st :
  wpc_of st 0 = WAnalysis ->
  wi_of st 0 mod analysis_samples_rate = 0 ->
  deviation (wstep 0 st)
  = deviation st ++ [analysis_record (supported_threads st) (count st) (total st)].
Proof.
  unfold wpc_of, wi_of, pi_count.
  destruct (workers st !! 0%nat) as [w |]; [| discriminate].
  intros -> Hrate. apply Z.eqb_eq in Hrate. rewrite Hrate. reflexivity.
Qed.

(** Lines 144-145 of the aggregation loop. *)
Lemma aggregate_steps st i :
  (0 < length (count st))%nat -> (0 < length (total st))%nat ->
  (mpc st = MAggCount i ->
     cell (count (mstep st)) 0 = wrap32 (cell (count st) 0 + cell (count st) i)
     /\ total (mstep st) = total st)
  /\ (mpc st = MAggTotal i ->
        cell (total (mstep st)) 0 = wrap32 (cell (total st) 0 + cell (count st) i)
        /\ count (mstep st) = count st).
Proof.
  intros Hc Ht. unfold main.
  split; intros ->; simpl; (split; [apply cell_insert_eq; assumption | reflexivity]).
Qed.

(** [main] never pushes a record. *)
Lemma main_deviation st :
  deviation (mstep st) = deviation st \/ deviation (mstep st) = [].
Proof. main_cases st Hm w Hw Hpc; auto. Qed.

(** *** Thread 0 runs alone *)

Lemma lead_first_state hc (sx sy : Gen) n' :
  thread_count hc = S n' ->
  exists c w,
    prun lead_first (initial hc sx sy)
    = mk_state (S n')
        (c :: ((fun i => wrap32 (junk_count i)) <$> seq 1 n'))
        (wrap32 1 :: ((fun i => wrap32 (junk_total i)) <$> seq 1 n'))
        (false :: (junk_retire <$> seq 1 n'))
        (snd (draw sx)) (snd (draw sy))
        [analysis_record (S n')
           (c :: ((fun i => wrap32 (junk_count i)) <$> seq 1 n'))
           (wrap32 1 :: ((fun i => wrap32 (junk_total i)) <$> seq 1 n'))]
        (launch_from 1 (S n'))
        (w :: replicate n' (mk_worker WNotLaunched 0 (S754_zero false) (S754_zero false)))
        [LLaunching (S n')].
Proof.
  intros En. unfold lead_first. cbn [repeat app].
  rewrite run_cons_eq. unfold step, main at 1, initial. cbn [mpc].
  unfold allocate. cbn [supported_threads xgen ygen deviation stdout]. rewrite En.
  do 5 run_one.
  run_one. destruct (draw sx) as [vx gx]; norm_state.
  run_one. destruct (draw sy) as [vy gy]; norm_state.
  run_one.
  destruct (in_circle (to_ld vx) (to_ld vy)); norm_state;
    do 2 run_one; eexists; eexists; reflexivity.
Qed.

Lemma lead_first_run hc (sx sy : Gen) :
  let st := prun lead_first (initial hc sx sy) in
  let n := thread_count hc in
  supported_threads st = n
  /\ deviation st = [analysis_record n (count st) (total st)]
  /\ cell (total st) 0 = 1
  /\ (forall j, (1 <= j)%nat -> wpc_of st j = WNotLaunched)
  /\ (forall j, (1 <= j < n)%nat ->
        cell (count st) j = wrap32 (junk_count j)
        /\ cell (total st) j = wrap32 (junk_total j)).
Proof.
  intros st n. subst st n.
  pose proof (thread_count_pos hc) as Hn.
  destruct (thread_count hc) as [| n'] eqn:En; [lia |].
  destruct (lead_first_state hc sx sy n' En) as (c & w & ->).
  unfold wpc_of. cbn [supported_threads deviation count total workers].
  split; [reflexivity |]. split; [reflexivity |]. split; [reflexivity |].
  assert (Hcells : forall (junk : nat -> Z) c' (j : nat), (1 <= j < S n')%nat ->
            cell (c' :: ((fun i => wrap32 (junk i)) <$> seq 1 n')) j = wrap32 (junk j)).
  { intros junk c' j Hj. destruct j as [| j]; [lia |].
    unfold cell. simpl. rewrite list_lookup_fmap, lookup_seq_lt by lia. reflexivity. }
  split.
  - intros j Hj. destruct j as [| j]; [lia |]. simpl.
    apply wpc_of_replicate. reflexivity.
  - intros j Hj. split; apply Hcells; exact Hj.
Qed.

End Interleaving.

(** * The claims *)

Section Claims.

Context {Gen : Type}.
Variable draw : Gen -> spec_float * Gen.
Variable junk_count junk_total : nat -> Z.
Variable junk_retire : nat -> bool.
Variable hardware_concurrency : nat.
Variable seedx seedy : Gen.

Local Abbreviation pstep := (step draw junk_count junk_total junk_retire).
Local Abbreviation after sched :=
  (run draw junk_count junk_total junk_retire sched
     (initial hardware_concurrency seedx seedy)).

(** C6: whenever thread 0 calls [analysis], the call sums [count] and
    [total] over all the slots but the first (the cells 1 .. n-1, the tails
    of the arrays) into its [int] accumulators, computes the estimate
    [sumInCircle / sumTotal * 4] and the deviation [test_pi - estimate] in
    [long double], and pushes the record [{deviation, sumTotal}] at the back
    of the list.  As long as the sums fit an [int] they are the true sums. *)
Theorem analysis_sums_all_but_slot_0 (sched : list tid) :
  let st := after sched in
  let sumInCircle := sumZ (tail (count st)) in
  let sumTotal := sumZ (tail (total st)) in
  let record (count_in count_total : Z) :=
    mk_deviation
      (ld_sub (to_ld test_pi)
         (ld_mul (ld_div (of_Z count_in) (of_Z count_total)) (of_Z 4)))
      (wrap32 count_total) in
  wpc_of st 0 = WAnalysis ->
  wi_of st 0 mod analysis_samples_rate = 0 ->
  deviation (pstep (TWorker 0) st)
  = deviation st ++ [record (to_int sumInCircle) (to_int sumTotal)]
  /\ (0 <= sumInCircle < 2 ^ 31 -> 0 <= sumTotal < 2 ^ 31 ->
      deviation (pstep (TWorker 0) st)
      = deviation st
        ++ [mk_deviation
              (ld_sub (to_ld test_pi)
                 (ld_mul (ld_div (of_Z sumInCircle) (of_Z sumTotal)) (of_Z 4)))
              sumTotal]).
Proof.
  intros st sumInCircle sumTotal record Hpc Hrate.
  subst sumInCircle sumTotal record. subst st.
  destruct (invariant_run draw junk_count junk_total junk_retire sched
              hardware_concurrency seedx seedy) as ([Hsz0 Hsz] & _).
  set (st := after sched) in *.
  assert (Hm : mpc st <> MStart).
  { intros Hm. destruct (Hsz0 Hm) as (_ & _ & _ & Hnil & _).
    unfold wpc_of in Hpc. rewrite Hnil in Hpc. discriminate. }
  destruct (Hsz Hm) as (_ & Hlc & Hlt & _).
  unfold step. rewrite (pi_count_checkpoint draw st Hpc Hrate).
  rewrite (analysis_record_tail _ _ _ Hlc Hlt). unfold calculated_pi.
  rewrite wrap32_to_int.
  split; [reflexivity |].
  intros Hin Htot. rewrite !to_int_small by lia. rewrite wrap32_small by lia.
  reflexivity.
Qed.

(** C5 (as amended): [main] stops the threads one at a time.  Whenever it
    is about to wait in [threads[i].join()], it has raised the flags of the
    threads 0 .. i, it has not raised the flag of any later thread, and the
    threads before [i] have already returned. *)
Theorem join_follows_own_flag_only (sched : list tid) (i : nat) :
  let st := after sched in
  mpc st = MJoin i ->
  (i < supported_threads st)%nat
  /\ (forall j, (j <= i)%nat -> flag (retire st) j = true)
  /\ (forall j, (i < j < supported_threads st)%nat -> flag (retire st) j = false)
  /\ (forall j, (j < i)%nat -> wpc_of st j = WExited).
Proof.
  intros st Hm. subst st.
  destruct (invariant_run draw junk_count junk_total junk_retire sched
              hardware_concurrency seedx seedy) as (_ & Hst & Hr & _).
  unfold stage in Hst. unfold retire_inv in Hr. rewrite Hm in Hst, Hr.
  destruct Hst as [Hi Hex]. destruct Hr as [Hb Hf].
  split; [exact Hi |]. split; [| split].
  - intros j Hj. apply Hb; lia.
  - intros j Hj. apply Hf; lia.
  - exact Hex.
Qed.

(** C8 (as amended): only [retire[k]] is initialised before thread [k] is
    launched.  When the thread is launched and has not run yet, [count[k]]
    and [total[k]] hold what the allocator left; the thread itself sets
    them to 0 with its first two statements.  [retire[k]] is [false] from
    the launch until [main] raises it. *)
Theorem slot_initialised_by_its_worker (sched : list tid) (k : nat) :
  let st := after sched in
  (k < supported_threads st)%nat ->
  mpc st <> MStart ->
  (wpc_of st k = WInitCount ->
     cell (count st) k = wrap32 (junk_count k)
     /\ cell (total st) k = wrap32 (junk_total k))
  /\ (wpc_of st k = WInitTotal ->
        cell (count st) k = 0
        /\ cell (total st) k = wrap32 (junk_total k)
        /\ cell (count (pstep (TWorker k) st)) k = 0
        /\ cell (total (pstep (TWorker k) st)) k = 0)
  /\ (wpc_of st k <> WNotLaunched -> ~ stop_requested st k ->
        flag (retire st) k = false).
Proof.
  intros st Hk Hm. subst st.
  destruct (invariant_run draw junk_count junk_total junk_retire sched
              hardware_concurrency seedx seedy) as (Hsz & Hst & Hr & Hj & _).
  set (st := after sched) in *.
  specialize (Hj Hm k Hk).
  split; [| split].
  - intros Hpc. rewrite Hpc in Hj. exact Hj.
  - intros Hpc. rewrite Hpc in Hj. destruct Hj as [Hc Ht].
    split; [exact Hc |]. split; [exact Ht |].
    unfold wpc_of in Hpc. simpl. unfold pi_count.
    destruct (workers st !! k) as [w |] eqn:Hw; [| discriminate].
    destruct (launched_sized k w st Hsz Hw) as [Hlc Hlt].
    rewrite Hpc. simpl. split; [exact Hc | apply cell_insert_eq; exact Hlt].
  - intros Hpc Hstop. unfold stage in Hst. unfold retire_inv in Hr.
    unfold stop_requested in Hstop.
    destruct (mpc st) eqn:E; try congruence; try (contradiction Hstop; exact I).
    + destruct Hst as [Hi Hnl]. apply Hr; [| exact Hk].
      destruct (Nat.lt_ge_cases k i) as [Hlt | Hge]; [exact Hlt |].
      contradiction Hpc. apply Hnl. exact Hge.
    + destruct Hst as [Hi Hnl]. apply Hr; [| exact Hk].
      destruct (Nat.lt_ge_cases k i) as [Hlt | Hge]; [lia |].
      contradiction Hpc. apply Hnl. exact Hge.
    + apply Hr; assumption.
    + destruct Hr as [_ Hf]. apply Hf; [lia | exact Hk].
    + destruct Hr as [_ Hf]. apply Hf; [lia | exact Hk].
Qed.

(** C4 (as amended): take a thread that is inside its loop and has
    completed fewer than 2^32 - 1 iterations, so that [total] has not
    wrapped.  At the loop head, while drawing and before the first
    increment, [count[k] <= total[k]] and [total[k]] is the number of
    completed iterations; between [++count[k]] and [++total[k]] only
    [count[k] <= total[k] + 1] holds; after [++total[k]] the order is
    restored.  No step of any thread decreases either counter: [total[k]]
    moves only in [++total[k]], by exactly one, and [count[k]] only in the
    classification, by at most one. *)
Theorem counters_ordered_at_loop_head (sched : list tid) (k : nat) (w : worker) :
  let st := after sched in
  Z.of_nat (length sched) < 2 ^ 64 ->
  workers st !! k = Some w ->
  in_loop (wpc w) ->
  wi w < 2 ^ 32 - 1 ->
  match wpc w with
  | WIncTotal =>
      cell (total st) k = wi w /\ 0 <= cell (count st) k <= cell (total st) k + 1
  | WAnalysis =>
      cell (total st) k = wi w + 1 /\ 0 <= cell (count st) k <= cell (total st) k
  | _ =>
      cell (total st) k = wi w /\ 0 <= cell (count st) k <= cell (total st) k
  end
  /\ forall t,
       let st' := pstep t st in
       cell (total st') k
       = (if decide (t = TWorker k /\ wpc w = WIncTotal)
          then cell (total st) k + 1 else cell (total st) k)
       /\ (cell (count st') k = cell (count st) k
           \/ (t = TWorker k /\ wpc w = WClassify
               /\ cell (count st') k = cell (count st) k + 1)).
Proof.
  intros st Hlen Hk Hloop Hwi. subst st.
  destruct (invariant_run draw junk_count junk_total junk_retire sched
              hardware_concurrency seedx seedy) as (Hsz & Hst & _).
  pose proof (counters_inv_run draw junk_count junk_total junk_retire sched
                hardware_concurrency seedx seedy Hlen k w Hk) as [Hi Hrel].
  set (st := after sched) in *.
  assert (Hobs :
    match wpc w with
    | WIncTotal =>
        cell (total st) k = wi w /\ 0 <= cell (count st) k <= cell (total st) k + 1
    | WAnalysis =>
        cell (total st) k = wi w + 1 /\ 0 <= cell (count st) k <= cell (total st) k
    | _ =>
        cell (total st) k = wi w /\ 0 <= cell (count st) k <= cell (total st) k
    end).
  { destruct (wpc w); try contradiction;
      destruct Hrel as [Ht Hc]; specialize (Hc ltac:(lia));
      rewrite wrap32_small in Ht by lia; lia. }
  split; [exact Hobs |].
  intros t st'. subst st'. destruct t as [| j]; unfold step.
  - destruct (main_slot junk_count junk_total junk_retire st k w Hsz Hst Hk Hloop)
      as [-> ->].
    case_decide as Hd; [destruct Hd; discriminate |]. auto.
  - destruct (decide (j = k)) as [-> | Hne].
    + pose proof (pi_count_own_slot draw st k w Hsz Hk) as Hown.
      destruct (wpc w) eqn:Hpc; try contradiction; destruct Hown as [-> ->];
        case_decide as Hd; try (destruct Hd; discriminate);
        try (contradiction Hd; split; reflexivity); auto.
      * split; [reflexivity |].
        destruct (in_circle (wx0 w) (wy0 w)); [right | left; reflexivity].
        split; [reflexivity |]. split; [reflexivity |].
        unfold uint_add. apply wrap32_small. lia.
      * split; [| left; reflexivity].
        unfold uint_add. apply wrap32_small. lia.
    + destruct (pi_count_others draw j k st ltac:(congruence)) as (_ & -> & ->).
      case_decide as Hd; [destruct Hd; congruence |]. auto.
Qed.

(** C9: thread 0 calls [analysis] in its first iteration, where its loop
    counter [i] is 0, a multiple of [analysis_samples_rate]; and the first
    record is pushed there: whenever a step turns the empty list of
    deviations into a non-empty one, that step is the call of [analysis] by
    thread 0 with [i] at 0 and with exactly one sample committed ([total[0]]
    is 1).  Nothing makes the other threads sample before that: in the
    schedule [lead_first] the record is pushed while no other thread has even
    been launched, and the cells it sums still hold what the allocator
    left. *)
Theorem first_record_in_first_iteration :
  (forall sched : list tid,
     let st := after sched in
     wpc_of st 0 = WAnalysis ->
     wi_of st 0 = 0 ->
     deviation (pstep (TWorker 0) st)
     = deviation st ++ [analysis_record (supported_threads st) (count st) (total st)])
  /\ (forall (sched : list tid) (t : tid),
     let st := after sched in
     deviation st = [] ->
     deviation (pstep t st) <> [] ->
     t = TWorker 0
     /\ wpc_of st 0 = WAnalysis
     /\ wi_of st 0 = 0
     /\ wi_of st 0 mod analysis_samples_rate = 0
     /\ cell (total st) 0 = 1
     /\ deviation (pstep t st)
        = [analysis_record (supported_threads st) (count st) (total st)])
  /\ (let st := after lead_first in
      deviation st
      = [analysis_record (supported_threads st) (count st) (total st)]
      /\ cell (total st) 0 = 1
      /\ (forall j, (1 <= j)%nat -> wpc_of st j = WNotLaunched)
      /\ (forall j, (1 <= j < supported_threads st)%nat ->
            cell (count st) j = wrap32 (junk_count j)
            /\ cell (total st) j = wrap32 (junk_total j))).
Proof.
  split; [| split].
  - intros sched st Hpc Hi. apply pi_count_checkpoint; [exact Hpc |].
    rewrite Hi. reflexivity.
  - intros sched t st Hnil Hpush. subst st.
    destruct (invariant_run draw junk_count junk_total junk_retire sched
                hardware_concurrency seedx seedy) as (_ & _ & _ & _ & Htot & Hfirst).
    set (st := after sched) in *.
    destruct t as [| k]; unfold step in *.
    + destruct (main_deviation junk_count junk_total junk_retire st) as [H | H];
        rewrite H in Hpush; [rewrite Hnil in Hpush |]; contradiction Hpush; reflexivity.
    + destruct (pi_count_deviation draw k st) as [H | (-> & Hpc & Hrate & H)].
      { rewrite H, Hnil in Hpush. contradiction Hpush. reflexivity. }
      assert (Hi : wi_of st 0 = 0).
      { apply Hfirst; [exact Hnil | rewrite Hpc; exact I]. }
      split; [reflexivity |]. split; [exact Hpc |]. split; [exact Hi |].
      split; [exact Hrate |]. split; [| rewrite H, Hnil; reflexivity].
      unfold wpc_of, wi_of in *.
      destruct (workers st !! 0%nat) as [w |] eqn:Hw; [| discriminate].
      specialize (Htot 0%nat w Hw). rewrite Hpc, Hi in Htot. exact Htot.
  - destruct (lead_first_run draw junk_count junk_total junk_retire
                hardware_concurrency seedx seedy) as (Hn & Hd & Ht & Hidle & Hjunk).
    cbv zeta. rewrite Hn. auto.
Qed.

(** C3 (as amended): the engines [xgen] and [ygen] are process-wide and
    every thread draws from them.  When thread [j] draws an abscissa and
    then thread [k] does, [j] gets the next output of [xgen] and leaves the
    engine advanced, and [k] draws from that advanced engine; the same
    holds for the ordinates and [ygen]. *)
Theorem workers_draw_from_shared_engines (st : state Gen) (j k : nat) (wj wk : worker) :
  j <> k ->
  workers st !! j = Some wj ->
  workers st !! k = Some wk ->
  (wpc wj = WDrawX -> wpc wk = WDrawX ->
     let st1 := pstep (TWorker j) st in
     let st2 := pstep (TWorker k) st1 in
     wx0_of st1 j = to_ld (fst (draw (xgen st)))
     /\ xgen st1 = snd (draw (xgen st))
     /\ wx0_of st2 k = to_ld (fst (draw (xgen st1)))
     /\ xgen st2 = snd (draw (xgen st1)))
  /\ (wpc wj = WDrawY -> wpc wk = WDrawY ->
        let st1 := pstep (TWorker j) st in
        let st2 := pstep (TWorker k) st1 in
        wy0_of st1 j = to_ld (fst (draw (ygen st)))
        /\ ygen st1 = snd (draw (ygen st))
        /\ wy0_of st2 k = to_ld (fst (draw (ygen st1)))
        /\ ygen st2 = snd (draw (ygen st1))).
Proof.
  intros Hne Hj Hk.
  pose proof (lookup_lt_Some _ _ _ Hj) as Hlj.
  pose proof (lookup_lt_Some _ _ _ Hk) as Hlk.
  split; intros Hpj Hpk st1 st2; subst st1 st2; unfold step;
    unfold wx0_of, wy0_of.
  - assert (E1 : pi_count draw j st
                 = set_worker j (mk_worker WDrawY (wi wj) (to_ld (fst (draw (xgen st)))) (wy0 wj))
                     (set_xgen (snd (draw (xgen st))) st)).
    { unfold pi_count. rewrite Hj, Hpj. destruct (draw (xgen st)); reflexivity. }
    rewrite E1. set (st1 := set_worker j _ _).
    assert (Hk1 : workers st1 !! k = Some wk).
    { subst st1. simpl. rewrite list_lookup_insert_ne by exact Hne. exact Hk. }
    assert (E2 : pi_count draw k st1
                 = set_worker k (mk_worker WDrawY (wi wk) (to_ld (fst (draw (xgen st1)))) (wy0 wk))
                     (set_xgen (snd (draw (xgen st1))) st1)).
    { unfold pi_count. rewrite Hk1, Hpk. destruct (draw (xgen st1)); reflexivity. }
    rewrite E2. subst st1. simpl.
    rewrite !list_lookup_insert_eq by (rewrite ?length_insert; assumption).
    repeat split.
  - assert (E1 : pi_count draw j st
                 = set_worker j (mk_worker WClassify (wi wj) (wx0 wj) (to_ld (fst (draw (ygen st)))))
                     (set_ygen (snd (draw (ygen st))) st)).
    { unfold pi_count. rewrite Hj, Hpj. destruct (draw (ygen st)); reflexivity. }
    rewrite E1. set (st1 := set_worker j _ _).
    assert (Hk1 : workers st1 !! k = Some wk).
    { subst st1. simpl. rewrite list_lookup_insert_ne by exact Hne. exact Hk. }
    assert (E2 : pi_count draw k st1
                 = set_worker k (mk_worker WClassify (wi wk) (wx0 wk) (to_ld (fst (draw (ygen st1)))))
                     (set_ygen (snd (draw (ygen st1))) st1)).
    { unfold pi_count. rewrite Hk1, Hpk. destruct (draw (ygen st1)); reflexivity. }
    rewrite E2. subst st1. simpl.
    rewrite !list_lookup_insert_eq by (rewrite ?length_insert; assumption).
    repeat split.
Qed.

(** C7 (as amended): a thread draws two [double]s of [[0, 1)] and counts
    the point by the [long double] test of line 188.  Every point with
    [x0^2 + y0^2 <= 1] is counted as inside, and every point with
    [x0^2 + y0^2 >= 1 + 2^-60] is left out; in between, just outside the
    circle, the rounded computation [sqrtl(x0 * x0 + y0 * y0) <= 1] decides.
    The point (1,0) is classified inside and (1,1) outside. *)
Theorem classification_agrees_up_to_rounding (st : state Gen) (k : nat) (w : worker) :
  workers st !! k = Some w ->
  wpc w = WDrawX ->
  (k < length (count st))%nat ->
  let d0 := fst (draw (xgen st)) in
  let d1 := fst (draw (ygen st)) in
  valid_binary dbl_prec dbl_emax d0 = true -> in_unit_interval d0 = Some true ->
  valid_binary dbl_prec dbl_emax d1 = true -> in_unit_interval d1 = Some true ->
  let st' := pstep (TWorker k) (pstep (TWorker k) (pstep (TWorker k) st)) in
  wpc_of st' k = WIncTotal
  /\ cell (count st') k
     = (if in_circle (to_ld d0) (to_ld d1)
        then wrap32 (cell (count st) k + 1) else cell (count st) k)
  /\ (exactly_in_circle d0 d1 = Some true ->
      cell (count st') k = wrap32 (cell (count st) k + 1))
  /\ (forall x y,
        real_value d0 = Some x -> real_value d1 = Some y ->
        (1 + pow2 (-60) <= x * x + y * y)%Q ->
        cell (count st') k = cell (count st) k)
  /\ in_circle (to_ld (dbl 1 0)) (to_ld (dbl 0 0)) = true
  /\ in_circle (to_ld (dbl 1 0)) (to_ld (dbl 1 0)) = false.
Proof.
  intros Hk Hpc Hlc d0 d1 Hv0 Hu0 Hv1 Hu1 st'.
  destruct (in_circle_agreement d0 d1 Hv0 Hu0 Hv1 Hu1) as [Hin Hout].
  set (x0 := to_ld d0) in *. set (y0 := to_ld d1) in *.
  assert (Hstep : wpc_of st' k = WIncTotal
                  /\ cell (count st') k
                     = (if in_circle x0 y0
                        then wrap32 (cell (count st) k + 1) else cell (count st) k)).
  { subst st'. unfold step.
    pose proof (lookup_lt_Some _ _ _ Hk) as Hlk.
    assert (E1 : pi_count draw k st
                 = set_worker k (mk_worker WDrawY (wi w) x0 (wy0 w))
                     (set_xgen (snd (draw (xgen st))) st)).
    { unfold pi_count. rewrite Hk, Hpc. subst x0 d0. destruct (draw (xgen st)); reflexivity. }
    rewrite E1. set (st1 := set_worker k _ _).
    assert (E2 : pi_count draw k st1
                 = set_worker k (mk_worker WClassify (wi w) x0 y0)
                     (set_ygen (snd (draw (ygen st))) st1)).
    { unfold pi_count. subst st1. simpl.
      rewrite list_lookup_insert_eq by exact Hlk. simpl.
      subst y0 d1. destruct (draw (ygen st)); reflexivity. }
    rewrite E2. set (st2 := set_worker k _ (set_ygen _ st1)).
    assert (Hk2 : workers st2 !! k = Some (mk_worker WClassify (wi w) x0 y0)).
    { subst st2 st1. simpl.
      rewrite list_lookup_insert_eq by (rewrite ?length_insert; exact Hlk). reflexivity. }
    assert (Hc2 : count st2 = count st) by reflexivity.
    assert (Hl2 : length (workers st2) = length (workers st)).
    { subst st2 st1. simpl. rewrite !length_insert. reflexivity. }
    clearbody st2. clear E1 E2. clearbody st1.
    unfold pi_count, wpc_of. rewrite Hk2. cbn [wpc wx0 wy0].
    split.
    - destruct (in_circle x0 y0); simpl;
        rewrite list_lookup_insert_eq by (rewrite Hl2; exact Hlk); reflexivity.
    - destruct (in_circle x0 y0); simpl; rewrite Hc2; [| reflexivity].
      rewrite cell_insert_eq by exact Hlc. reflexivity. }
  destruct Hstep as [Hwpc Hcount].
  split; [exact Hwpc |]. split; [exact Hcount |].
  split; [| split; [| split; vm_compute; reflexivity]].
  - intros Hex. rewrite Hcount, (Hin Hex). reflexivity.
  - intros x y Hx Hy Hfar. rewrite Hcount.
    destruct (in_circle x0 y0); [| reflexivity].
    destruct (Hout eq_refl) as (x' & y' & Hx' & Hy' & Hnear).
    rewrite Hx in Hx'. rewrite Hy in Hy'. injection Hx' as <-. injection Hy' as <-.
    exfalso. lra.
Qed.

End Claims.

(** * The claims on concrete executions *)

(** Two hardware threads, an allocator that leaves 7, 9 and [true] in the
    cells, both engines replaying [tape] from its start. *)
Local Abbreviation demo_run tape sched :=
  (run (tape_draw tape) (fun _ => 7) (fun _ => 9) (fun _ => true) sched
     (initial 2 0%nat 0%nat)).
Local Abbreviation demo_step tape t st :=
  (step (tape_draw tape) (fun _ => 7) (fun _ => 9) (fun _ => true) t st).

Lemma analysis_sums_all_but_slot_0_witness :
  (wpc_of (demo_run [half; half] (repeat TMain 3 ++ repeat (TWorker 0) 7)) 0 = WAnalysis
   /\ wi_of (demo_run [half; half] (repeat TMain 3 ++ repeat (TWorker 0) 7)) 0
      mod analysis_samples_rate = 0)
  /\ deviation
       (demo_step [half; half] (TWorker 0)
          (demo_run [half; half] (repeat TMain 3 ++ repeat (TWorker 0) 7)))
     = deviation (demo_run [half; half] (repeat TMain 3 ++ repeat (TWorker 0) 7))
       ++ [mk_deviation
             (ld_sub (to_ld test_pi) (ld_mul (ld_div (of_Z 7) (of_Z 9)) (of_Z 4))) 9].
Proof.
  assert (Hpc : wpc_of (demo_run [half; half] (repeat TMain 3 ++ repeat (TWorker 0) 7)) 0
                = WAnalysis)
    by (vm_compute; reflexivity).
  assert (Hrate : wi_of (demo_run [half; half] (repeat TMain 3 ++ repeat (TWorker 0) 7)) 0
                  mod analysis_samples_rate = 0)
    by (vm_compute; reflexivity).
  split; [split; assumption |].
  pose proof (analysis_sums_all_but_slot_0 (tape_draw [half; half])
                (fun _ => 7) (fun _ => 9) (fun _ => true) 2 0%nat 0%nat
                _ Hpc Hrate) as H.
  cbv zeta in H. destruct H as [H _]. rewrite H.
  vm_compute. reflexivity.
Defined.

(** C1: after both threads are joined the slots hold [count = [1; 0]] and
    [total = [1; 1]].  The aggregation loop writes the sum of the [count]
    cells into [count[0]], and adds the cells of [count], not of [total],
    into [total[0]]: the program reports 1 point where the slots hold 2. *)
Theorem aggregation_adds_count_into_total :
  let joined := run2 [half; seven_eighths] sample_and_join in
  let final := run2 [half; seven_eighths] (sample_and_join ++ [TMain; TMain]) in
  mpc joined = MAggCount 1
  /\ wpc_of joined 0 = WExited /\ wpc_of joined 1 = WExited
  /\ count joined = [1; 0] /\ total joined = [1; 1]
  /\ mpc final = MReport
  /\ cell (count final) 0 = sumZ (count joined)
  /\ sumZ (total joined) = 2
  /\ cell (total final) 0 = 1
  /\ cell (total final) 0 = cell (total joined) 0 + cell (count joined) 1.
Proof. vm_compute. repeat split. Qed.

(** C2, as stated, fails: thread 1 is initialised and has not sampled yet
    when thread 0 reaches its first checkpoint.  The summed total is 0, and
    [analysis] pushes a record whose deviation is
    [test_pi - 0.0L / 0.0L * 4], a NaN. *)
Lemma analysis_pushes_nan_for_zero_total :
  let before := run2 [half; half] (launch2 ++ init_of 1 ++ init_of 0 ++ repeat (TWorker 0) 5) in
  let st := step (tape_draw [half; half]) (fun _ => 7) (fun _ => 9) (fun _ => true)
              (TWorker 0) before in
  wpc_of before 0 = WAnalysis
  /\ deviation before = []
  /\ sumZ (tail (total before)) = 0
  /\ deviation st
     = [mk_deviation
          (ld_sub (to_ld test_pi) (ld_mul (ld_div (of_Z 0) (of_Z 0)) (of_Z 4))) 0]
  /\ deviation st = [mk_deviation S754_nan 0].
Proof. vm_compute. repeat split. Qed.

(** C3, as stated, fails: there is one [xgen] for all threads.  With both
    threads about to draw, thread 1 gets the first output of the engine if it
    draws first, and the second one if thread 0 has drawn before it: thread 0
    has advanced the engine thread 1 reads. *)
Lemma second_thread_reads_advanced_engine :
  let draw := tape_draw [half; seven_eighths] in
  let st := run2 [half; seven_eighths] both_drawing in
  wpc_of st 0 = WDrawX /\ wpc_of st 1 = WDrawX
  /\ xgen st = 0%nat
  /\ wx0_of (pi_count draw 1 st) 1 = to_ld half
  /\ xgen (pi_count draw 0 st) = 1%nat
  /\ wx0_of (pi_count draw 1 (pi_count draw 0 st)) 1 = to_ld seven_eighths
  /\ wx0_of (pi_count draw 1 (pi_count draw 0 st)) 1
     <> wx0_of (pi_count draw 1 st) 1.
Proof. vm_compute. repeat split. discriminate. Qed.

Lemma workers_draw_from_shared_engines_witness :
  (workers (demo_run [half; seven_eighths] both_drawing) !! 0%nat
   = Some (mk_worker WDrawX 0 (S754_zero false) (S754_zero false))
   /\ workers (demo_run [half; seven_eighths] both_drawing) !! 1%nat
      = Some (mk_worker WDrawX 0 (S754_zero false) (S754_zero false)))
  /\ wx0_of
       (demo_step [half; seven_eighths] (TWorker 1)
          (demo_step [half; seven_eighths] (TWorker 0)
             (demo_run [half; seven_eighths] both_drawing))) 1
     = to_ld
         (fst (tape_draw [half; seven_eighths]
                 (xgen (demo_step [half; seven_eighths] (TWorker 0)
                          (demo_run [half; seven_eighths] both_drawing))))).
Proof.
  assert (H0 : workers (demo_run [half; seven_eighths] both_drawing) !! 0%nat
               = Some (mk_worker WDrawX 0 (S754_zero false) (S754_zero false)))
    by (vm_compute; reflexivity).
  assert (H1 : workers (demo_run [half; seven_eighths] both_drawing) !! 1%nat
               = Some (mk_worker WDrawX 0 (S754_zero false) (S754_zero false)))
    by (vm_compute; reflexivity).
  split; [split; assumption |].
  assert (Hne : 0%nat <> 1%nat) by discriminate.
  pose proof (proj1 (workers_draw_from_shared_engines (tape_draw [half; seven_eighths])
                       (fun _ => 7) (fun _ => 9) (fun _ => true) _ 0%nat 1%nat _ _
                       Hne H0 H1) eq_refl eq_refl) as H.
  cbv zeta in H. exact (proj1 (proj2 (proj2 H))).
Defined.

(** C4, as stated, fails: thread 1 has classified its first point as
    inside and incremented [count[1]], and has not incremented [total[1]]
    yet.  The slot holds [count = 1 > total = 0], and that is what [analysis]
    reads when thread 0 reaches its checkpoint at this moment: the record has
    0 points and an infinite deviation. *)
Lemma count_exceeds_total_between_increments :
  let st := run2 [half; half] (launch2 ++ init_of 1 ++ repeat (TWorker 1) 4) in
  let seen := run2 [half; half]
                (launch2 ++ init_of 1 ++ repeat (TWorker 1) 4 ++ init_of 0 ++ iteration_of 0) in
  wpc_of st 1 = WIncTotal
  /\ cell (count st) 1 = 1 /\ cell (total st) 1 = 0
  /\ ~ cell (count st) 1 <= cell (total st) 1
  /\ wpc_of seen 1 = WIncTotal
  /\ deviation seen = [mk_deviation (S754_infinity true) 0].
Proof. vm_compute. repeat split. intros H. apply H. reflexivity. Qed.

Lemma counters_ordered_at_loop_head_witness :
  (Z.of_nat (length (launch2 ++ init_of 1 ++ repeat (TWorker 1) 4)) < 2 ^ 64
   /\ workers (demo_run [half; half] (launch2 ++ init_of 1 ++ repeat (TWorker 1) 4)) !! 1%nat
      = Some (mk_worker WIncTotal 0 (to_ld half) (to_ld half)))
  /\ cell (total (demo_run [half; half] (launch2 ++ init_of 1 ++ repeat (TWorker 1) 4))) 1
     = 0
  /\ 0 <= cell (count (demo_run [half; half] (launch2 ++ init_of 1 ++ repeat (TWorker 1) 4))) 1
     <= cell (total (demo_run [half; half] (launch2 ++ init_of 1 ++ repeat (TWorker 1) 4))) 1
        + 1.
Proof.
  assert (Hlen : Z.of_nat (length (launch2 ++ init_of 1 ++ repeat (TWorker 1) 4)) < 2 ^ 64)
    by (vm_compute; reflexivity).
  assert (Hw : workers (demo_run [half; half] (launch2 ++ init_of 1 ++ repeat (TWorker 1) 4))
               !! 1%nat
               = Some (mk_worker WIncTotal 0 (to_ld half) (to_ld half)))
    by (vm_compute; reflexivity).
  split; [split; assumption |].
  assert (Hwi : wi (mk_worker WIncTotal 0 (to_ld half) (to_ld half)) < 2 ^ 32 - 1)
    by (vm_compute; reflexivity).
  pose proof (proj1 (counters_ordered_at_loop_head (tape_draw [half; half])
                       (fun _ => 7) (fun _ => 9) (fun _ => true) 2 0%nat 0%nat
                       _ 1%nat _ Hlen Hw I Hwi)) as H.
  cbv beta iota delta [wpc wi] in H. exact H.
Defined.

(** C5, as stated, fails: with two threads, [main] raises [retire[0]] and
    enters [threads[0].join()] while [retire[1]] is still [false]; thread 0
    has not returned, so [main] stays in that join. *)
Lemma join_starts_before_second_flag :
  let st := run2 [half; half] (launch2 ++ [TMain; TMain]) in
  mpc st = MJoin 0
  /\ retire st = [true; false]
  /\ wpc_of st 0 <> WExited
  /\ step (tape_draw [half; half]) (fun _ => 7) (fun _ => 9) (fun _ => true) TMain st = st.
Proof. vm_compute. repeat split. discriminate. Qed.

Lemma join_follows_own_flag_only_witness :
  mpc (demo_run [half; half] (launch2 ++ [TMain; TMain])) = MJoin 0
  /\ (forall j, (j <= 0)%nat ->
        flag (retire (demo_run [half; half] (launch2 ++ [TMain; TMain]))) j = true)
  /\ (forall j,
        (0 < j < supported_threads (demo_run [half; half] (launch2 ++ [TMain; TMain])))%nat ->
        flag (retire (demo_run [half; half] (launch2 ++ [TMain; TMain]))) j = false).
Proof.
  assert (Hm : mpc (demo_run [half; half] (launch2 ++ [TMain; TMain])) = MJoin 0)
    by (vm_compute; reflexivity).
  split; [exact Hm |].
  pose proof (join_follows_own_flag_only (tape_draw [half; half])
                (fun _ => 7) (fun _ => 9) (fun _ => true) 2 0%nat 0%nat _ 0%nat Hm) as H.
  cbv zeta in H. destruct H as (_ & Hb & Hf & _). split; [exact Hb | exact Hf].
Defined.

(** C7, as stated, fails: 2^-26 and 1 - 2^-53 are [double]s in [0, 1)
    whose squares add up to 1 + 2^-106, more than 1.  In [long double] the
    square of the second one rounds to 1 - 2^-52, the sum is exactly 1, and
    the thread counts the point as inside.  The 53-bit format rounds the
    same way. *)
Lemma rounding_counts_outside_point_inside :
  let st := run (tape_draw [tiny; near_one]) (fun _ => 7) (fun _ => 9) (fun _ => true)
              (repeat TMain 3 ++ repeat (TWorker 0) 6) (initial 2 0%nat 1%nat) in
  in_unit_interval tiny = Some true
  /\ in_unit_interval near_one = Some true
  /\ exactly_in_circle tiny near_one = Some false
  /\ in_circle (to_ld tiny) (to_ld near_one) = true
  /\ in_circle_binary64 tiny near_one = true
  /\ wx0_of st 0 = to_ld tiny /\ wy0_of st 0 = to_ld near_one
  /\ wpc_of st 0 = WIncTotal
  /\ cell (count st) 0 = 1.
Proof. vm_compute. repeat split. Qed.

Lemma classification_agrees_up_to_rounding_witness :
  (workers (demo_run [half; half] both_drawing) !! 0%nat
   = Some (mk_worker WDrawX 0 (S754_zero false) (S754_zero false))
   /\ (0 < length (count (demo_run [half; half] both_drawing)))%nat
   /\ valid_binary dbl_prec dbl_emax half = true
   /\ in_unit_interval half = Some true
   /\ exactly_in_circle half half = Some true)
  /\ cell (count
             (demo_step [half; half] (TWorker 0)
                (demo_step [half; half] (TWorker 0)
                   (demo_step [half; half] (TWorker 0)
                      (demo_run [half; half] both_drawing))))) 0
     = wrap32 (cell (count (demo_run [half; half] both_drawing)) 0 + 1).
Proof.
  assert (Hw : workers (demo_run [half; half] both_drawing) !! 0%nat
               = Some (mk_worker WDrawX 0 (S754_zero false) (S754_zero false)))
    by (vm_compute; reflexivity).
  assert (Hl : (0 < length (count (demo_run [half; half] both_drawing)))%nat)
    by (vm_compute; lia).
  assert (Hv : valid_binary dbl_prec dbl_emax half = true) by (vm_compute; reflexivity).
  assert (Hu : in_unit_interval half = Some true) by (vm_compute; reflexivity).
  assert (He : exactly_in_circle half half = Some true) by (vm_compute; reflexivity).
  split; [repeat split; assumption |].
  pose proof (classification_agrees_up_to_rounding (tape_draw [half; half])
                (fun _ => 7) (fun _ => 9) (fun _ => true) _ 0%nat _ Hw eq_refl Hl) as H.
  cbv zeta in H.
  assert (Hx : fst (tape_draw [half; half] (xgen (demo_run [half; half] both_drawing))) = half)
    by (vm_compute; reflexivity).
  assert (Hy : fst (tape_draw [half; half] (ygen (demo_run [half; half] both_drawing))) = half)
    by (vm_compute; reflexivity).
  rewrite Hx, Hy in H.
  exact (proj1 (proj2 (proj2 (H Hv Hu Hv Hu))) He).
Defined.

(** C8, as stated, fails: when thread 0 has just been launched and has not
    run yet, its counters hold what the allocator left (7 and 9 here), and
    the whole slot of thread 1, its flag included, is still unwritten. *)
Lemma counters_not_zero_at_launch :
  let st := run2 [half; half] (repeat TMain 3) in
  wpc_of st 0 = WInitCount
  /\ cell (count st) 0 = 7 /\ cell (total st) 0 = 9
  /\ flag (retire st) 0 = false
  /\ cell (count st) 0 <> 0.
Proof. vm_compute. repeat split. discriminate. Qed.

Lemma slot_initialised_by_its_worker_witness :
  ((0 < supported_threads (demo_run [half; half] (repeat TMain 3)))%nat
   /\ mpc (demo_run [half; half] (repeat TMain 3)) <> MStart
   /\ wpc_of (demo_run [half; half] (repeat TMain 3)) 0 = WInitCount)
  /\ cell (count (demo_run [half; half] (repeat TMain 3))) 0 = wrap32 7
  /\ cell (total (demo_run [half; half] (repeat TMain 3))) 0 = wrap32 9.
Proof.
  assert (Hk : (0 < supported_threads (demo_run [half; half] (repeat TMain 3)))%nat)
    by (vm_compute; lia).
  assert (Hm : mpc (demo_run [half; half] (repeat TMain 3)) <> MStart)
    by (vm_compute; discriminate).
  assert (Hpc : wpc_of (demo_run [half; half] (repeat TMain 3)) 0 = WInitCount)
    by (vm_compute; reflexivity).
  split; [repeat split; assumption |].
  pose proof (slot_initialised_by_its_worker (tape_draw [half; half])
                (fun _ => 7) (fun _ => 9) (fun _ => true) 2 0%nat 0%nat
                _ 0%nat Hk Hm) as H.
  cbv zeta in H. exact (proj1 H Hpc).
Defined.

Lemma first_record_in_first_iteration_witness :
  (deviation (demo_run [half; half] (repeat TMain 3 ++ repeat (TWorker 0) 7)) = []
   /\ deviation
        (demo_step [half; half] (TWorker 0)
           (demo_run [half; half] (repeat TMain 3 ++ repeat (TWorker 0) 7))) <> [])
  /\ wpc_of (demo_run [half; half] (repeat TMain 3 ++ repeat (TWorker 0) 7)) 0 = WAnalysis
  /\ wi_of (demo_run [half; half] (repeat TMain 3 ++ repeat (TWorker 0) 7)) 0 = 0
  /\ cell (total (demo_run [half; half] (repeat TMain 3 ++ repeat (TWorker 0) 7))) 0 = 1.
Proof.
  assert (Hnil : deviation (demo_run [half; half] (repeat TMain 3 ++ repeat (TWorker 0) 7))
                 = [])
    by (vm_compute; reflexivity).
  assert (Hpush : deviation
                    (demo_step [half; half] (TWorker 0)
                       (demo_run [half; half] (repeat TMain 3 ++ repeat (TWorker 0) 7)))
                  <> [])
    by (vm_compute; discriminate).
  split; [split; assumption |].
  pose proof (proj1 (proj2 (first_record_in_first_iteration (tape_draw [half; half])
                              (fun _ => 7) (fun _ => 9) (fun _ => true) 2 0%nat 0%nat))
                _ (TWorker 0) Hnil Hpush) as H.
  cbv zeta in H. destruct H as (_ & Hpc & Hi & _ & Ht & _).
  split; [exact Hpc |]. split; [exact Hi | exact Ht].
Defined.

(** * Further properties of the program *)

Section MoreInvariants.

Context {Gen : Type}.
Variable draw : Gen -> spec_float * Gen.
Variable junk_count junk_total : nat -> Z.
Variable junk_retire : nat -> bool.
Implicit Type st : state Gen.

Local Abbreviation wstep := (pi_count draw).
Local Abbreviation mstep := (main junk_count junk_total junk_retire).
Local Abbreviation pstep := (step draw junk_count junk_total junk_retire).
Local Abbreviation prun := (run draw junk_count junk_total junk_retire).
Local Abbreviation inv := (invariant junk_count junk_total).

(** *** The number of threads *)

Lemma threads_inv_step hc t st : threads_inv hc st -> threads_inv hc (pstep t st).
Proof.
  intros [H0 H1]. destruct t as [| k]; unfold step.
  - unfold threads_inv.
    main_cases st Hm w Hw Hpc; rewrite ?Hm;
      try (split; [intros H; try discriminate H;
                   first [ contradiction (launch_from_started _ _ H)
                         | contradiction (stop_from_started _ _ H)
                         | contradiction (aggregate_from_started _ _ H) ]
                  | intros _; apply H1; congruence ]).
    split.
    + intros H. contradiction (launch_from_started _ _ H).
    + intros _. rewrite (H0 eq_refl). reflexivity.
  - unfold threads_inv.
    destruct (pi_count_frame draw k st) as (-> & -> & _). split; assumption.
Qed.

Lemma threads_inv_run hc (sx sy : Gen) sched :
  threads_inv hc (prun sched (initial hc sx sy)).
Proof.
  induction sched as [| t sched IH] using rev_ind.
  - split; [reflexivity | intros H; contradiction H; reflexivity].
  - rewrite run_snoc. apply threads_inv_step, IH.
Qed.

(** *** The threads launched so far *)

Lemma pi_count_keeps_launched k j st :
  wpc_of st j <> WNotLaunched -> wpc_of (wstep k st) j <> WNotLaunched.
Proof.
  intros Hj. destruct (decide (j = k)) as [-> | Hne].
  - revert Hj. unfold wpc_of.
    worker_cases k st w Hw Hpc; rewrite ?Hw, ?Hpc;
      rewrite ?list_lookup_insert_eq by assumption; simpl; auto; discriminate.
  - unfold wpc_of in *.
    destruct (pi_count_others draw k j st Hne) as (-> & _). exact Hj.
Qed.

Lemma launched_inv_step t st : sized st -> launched_inv st -> launched_inv (pstep t st).
Proof.
  intros [_ Hsz] Hl. destruct t as [| k]; unfold step.
  - unfold launched_inv in *.
    main_cases st Hm w Hw Hpc; rewrite ?Hm; try exact Hl; intros j Hj;
      try (specialize (Hl j Hj)); unfold wpc_of in *; simpl in *.
    + destruct (launch_from_cases 0 (thread_count (supported_threads st)))
        as [[H ->] | [H ->]]; [intros Hlt; lia |].
      pose proof (thread_count_pos (supported_threads st)). lia.
    + destruct (Hsz ltac:(congruence)) as (_ & _ & _ & _ & Hlw).
      assert (Hall : (j < S i)%nat ->
                match <[i:=mk_worker WInitCount 0 (S754_zero false) (S754_zero false)]>
                        (workers st) !! j
                with Some w => wpc w | None => WNotLaunched end <> WNotLaunched).
      { intros Hlt. destruct (decide (j = i)) as [-> | Hne].
        - rewrite list_lookup_insert_eq by lia. discriminate.
        - rewrite list_lookup_insert_ne by congruence. apply Hl. lia. }
      destruct (launch_from_cases (S i) (supported_threads st)) as [[H ->] | [H ->]].
      * exact Hall.
      * apply Hall. lia.
    + destruct (stop_from_cases 0 (supported_threads st))
        as [[H ->] | [(H & H1 & ->) | (H & H1 & ->)]]; exact Hl.
    + destruct (stop_from_cases (S i) (supported_threads st))
        as [[H ->] | [(H & H1 & ->) | (H & H1 & ->)]]; exact Hl.
    + destruct (aggregate_from_cases (S i) (supported_threads st)) as [[H ->] | [H ->]];
        exact Hl.
  - unfold launched_inv in *.
    destruct (pi_count_frame draw k st) as (-> & -> & _).
    intros j Hj. specialize (Hl j Hj).
    destruct (mpc st); try exact I;
      try (apply pi_count_keeps_launched; exact Hl);
      intros Hlt; apply pi_count_keeps_launched; apply Hl; exact Hlt.
Qed.

(** *** A thread returns only when told to *)

Lemma exited_inv_step t st : stage st -> exited_inv st -> exited_inv (pstep t st).
Proof.
  intros Hst He. destruct t as [| k]; unfold step.
  - unfold exited_inv in *. unfold stage in Hst.
    main_cases st Hm w Hw Hpc; try exact He; intros j; unfold wpc_of in *; simpl.
    + rewrite wpc_of_replicate by reflexivity. discriminate.
    + intros Hj. destruct Hst as [_ Hnl].
      destruct (decide (i = j)) as [-> | Hne].
      * specialize (Hnl j (Nat.le_refl j)). unfold wpc_of in Hnl. congruence.
      * rewrite flag_insert_ne by exact Hne. apply He. exact Hj.
    + rewrite list_lookup_insert. case_decide as Hd; [discriminate |]. apply He.
    + intros Hj. unfold flag. rewrite list_lookup_insert.
      case_decide as Hd; [reflexivity |]. apply He. exact Hj.
  - unfold exited_inv in *.
    destruct (pi_count_frame draw k st) as (_ & _ & -> & _).
    intros j. destruct (decide (j = k)) as [-> | Hne].
    + unfold wpc_of.
      worker_cases k st w Hw Hpc; rewrite ?Hw, ?Hpc;
        rewrite ?list_lookup_insert_eq by assumption; simpl; try discriminate; auto.
      intros _. apply He. unfold wpc_of. rewrite Hw. exact Hpc.
    + unfold wpc_of in *.
      destruct (pi_count_others draw k j st Hne) as (-> & _). apply He.
Qed.

(** *** The lines printed *)

Lemma interrupts_succ i : interrupts (S i) = interrupts i ++ [LInterrupt i].
Proof. unfold interrupts. rewrite seq_S, fmap_app. reflexivity. Qed.

Lemma stdout_inv_step t st : sized st -> stage st -> stdout_inv st -> stdout_inv (pstep t st).
Proof.
  intros [Hsz0 Hsz] Hst Ho. destruct t as [| k]; unfold step.
  - unfold stdout_inv in *. unfold stage in Hst.
    main_cases st Hm w Hw Hpc; rewrite ?Hm; try exact Ho.
    + rewrite Ho.
      destruct (launch_from_cases 0 (thread_count (supported_threads st)))
        as [[H ->] | [H ->]]; reflexivity.
    + destruct (launch_from_cases (S i) (supported_threads st)) as [[H ->] | [H ->]];
        exact Ho.
    + rewrite Ho. destruct (Hsz ltac:(congruence)) as (Hn & _).
      destruct (stop_from_cases 0 (supported_threads st))
        as [[H ->] | [(H & H1 & ->) | (H & H1 & ->)]]; try lia. reflexivity.
    + rewrite Ho, interrupts_succ. rewrite <- !app_assoc. reflexivity.
    + destruct Hst as [Hi _].
      destruct (stop_from_cases (S i) (supported_threads st))
        as [[H ->] | [(H & H1 & ->) | (H & H1 & ->)]]; try exact Ho;
        replace (supported_threads st) with (S i) at 2 by lia; exact Ho.
    + destruct (aggregate_from_cases (S i) (supported_threads st)) as [[H ->] | [H ->]];
        exact Ho.
    + rewrite Ho. unfold report_lines.
      exists (ld_mul (ld_div (of_Z (cell (count st) 0)) (of_Z (cell (total st) 0))) (of_Z 4)),
        (to_int (cell (total st) 0)),
        ((fun d => mk_deviation (accuracy d) (to_int (points d))) <$> deviation st).
      rewrite <- list_fmap_compose, <- !app_assoc. reflexivity.
  - unfold stdout_inv in *.
    destruct (pi_count_frame draw k st) as (-> & -> & _ & -> & _). exact Ho.
Qed.

(** *** One record per checkpoint *)

Lemma records_due_0 : records_due 0 = 0.
Proof. reflexivity. Qed.

Lemma records_due_succ i :
  0 <= i ->
  records_due (i + 1)
  = records_due i + (if i mod analysis_samples_rate =? 0 then 1 else 0).
Proof.
  intros Hi. unfold records_due.
  assert (Hr : 0 < analysis_samples_rate) by reflexivity.
  pose proof (Z.div_mod i analysis_samples_rate ltac:(lia)) as Hdm.
  pose proof (Z.mod_pos_bound i analysis_samples_rate Hr) as Hb.
  set (q := i / analysis_samples_rate) in *.
  set (s := i mod analysis_samples_rate) in *.
  destruct (Z.eqb_spec s 0) as [Hs | Hs].
  - rewrite <- (Z.div_unique (i + 1 + analysis_samples_rate - 1) analysis_samples_rate
                  (q + 1) 0) by lia.
    rewrite <- (Z.div_unique (i + analysis_samples_rate - 1) analysis_samples_rate q
                  (analysis_samples_rate - 1)) by lia.
    lia.
  - rewrite <- (Z.div_unique (i + 1 + analysis_samples_rate - 1) analysis_samples_rate
                  (q + 1) s) by lia.
    rewrite <- (Z.div_unique (i + analysis_samples_rate - 1) analysis_samples_rate (q + 1)
                  (s - 1)) by lia.
    lia.
Qed.

Lemma records_inv_pi_count m k st :
  m + 1 < 2 ^ 64 -> records_inv m st -> records_inv (m + 1) (wstep k st).
Proof.
  intros Hm Hr. unfold records_inv in *.
  destruct (pi_count_frame draw k st) as (-> & _). intros Hmpc. specialize (Hr Hmpc).
  destruct (decide (k = 0%nat)) as [-> | Hne].
  - revert Hr.
    worker_cases 0%nat st w Hw Hpc; rewrite ?Hw, ?Hpc;
      try (intros (Hi & Hpre & Hlen); split; [lia | split; [exact Hpre | exact Hlen]]; fail);
      try (intros Hnil; exact Hnil);
      rewrite list_lookup_insert_eq by assumption; simpl;
      intros (Hi & Hpre & Hlen);
      rewrite ?(wrap64_succ (wi w) m) by lia;
      (split; [lia |]);
      (split;
       [ intros Hp;
         first [ reflexivity
               | apply Hpre; auto; fail
               | destruct Hp as [Hp | [Hp | Hp]]; discriminate Hp ] |]);
      try exact Hlen.
    + rewrite Hlen, Hpre by auto. reflexivity.
    + rewrite length_app, Nat2Z.inj_add, Hlen, records_due_succ by lia.
      match goal with H : _ && _ = true |- _ => apply andb_prop in H as [_ Hrate] end.
      rewrite Hrate. reflexivity.
    + rewrite Hlen, records_due_succ by lia.
      match goal with H : _ && _ = false |- _ => simpl in H; rewrite H end. lia.
  - destruct (pi_count_deviation draw k st) as [-> | [Hk _]]; [| contradiction].
    destruct (pi_count_others draw k 0%nat st ltac:(congruence)) as (-> & _).
    destruct (workers st !! 0%nat) as [w |]; [| exact Hr].
    destruct Hr as (Hi & Hpre & Hlen). split; [lia | split; assumption].
Qed.

Lemma records_inv_main m st :
  0 <= m -> sized st -> stage st -> records_inv m st -> records_inv (m + 1) (mstep st).
Proof.
  intros Hm [Hsz0 Hsz] Hst Hr. unfold records_inv in *. unfold stage in Hst.
  assert (Hweak : mpc st <> MDone ->
            match workers st !! 0%nat with
            | Some w =>
                0 <= wi w <= m + 1
                /\ (wpc w = WNotLaunched \/ wpc w = WInitCount \/ wpc w = WInitTotal ->
                    wi w = 0)
                /\ Z.of_nat (length (deviation st)) = records_due (wi w)
            | None => deviation st = []
            end).
  { intros H. specialize (Hr H). destruct (workers st !! 0%nat) as [w |]; [| exact Hr].
    destruct Hr as (Hi & Hpre & Hlen). split; [lia | split; assumption]. }
  main_cases st Hmpc w Hw Hpc; rewrite ?Hmpc; intros Hnd;
    try (apply Hweak; congruence); try congruence.
  - destruct (Hsz0 eq_refl) as (_ & _ & _ & _ & Hnil).
    rewrite lookup_replicate_2 by apply thread_count_pos. simpl.
    rewrite Hnil. split; [lia |]. split; reflexivity.
  - specialize (Hweak ltac:(congruence)).
    destruct (decide (i = 0%nat)) as [-> | Hne].
    + destruct Hst as [_ Hnl]. specialize (Hnl 0%nat (Nat.le_refl 0)).
      unfold wpc_of in Hnl.
      destruct (workers st !! 0%nat) as [w0 |] eqn:Hw0.
      * rewrite list_lookup_insert_eq by (apply lookup_lt_Some in Hw0; exact Hw0). simpl.
        destruct Hweak as (Hi & Hpre & Hlen).
        split; [lia |]. split; [reflexivity |]. rewrite Hlen, Hpre by auto. reflexivity.
      * rewrite list_insert_ge by (apply lookup_ge_None in Hw0; exact Hw0).
        rewrite Hw0. exact Hweak.
    + rewrite list_lookup_insert_ne by exact Hne. exact Hweak.
Qed.

(** *** All of them together *)

Lemma more_invariant_run hc (sx sy : Gen) sched :
  more_invariant hc (prun sched (initial hc sx sy)).
Proof.
  induction sched as [| t sched IH] using rev_ind.
  - split; [split; [reflexivity | intros H; contradiction H; reflexivity] |].
    split; [intros j Hj; exact I |].
    split; [intros k Hk; discriminate Hk | reflexivity].
  - rewrite run_snoc.
    destruct (invariant_run draw junk_count junk_total junk_retire sched hc sx sy)
      as (Hsz & Hst & _).
    destruct IH as (Ht & Hl & He & Ho).
    split; [apply threads_inv_step, Ht |].
    split; [apply launched_inv_step; assumption |].
    split; [apply exited_inv_step; assumption |].
    apply stdout_inv_step; assumption.
Qed.

Lemma records_inv_run hc (sx sy : Gen) sched :
  Z.of_nat (length sched) < 2 ^ 64 ->
  records_inv (Z.of_nat (length sched)) (prun sched (initial hc sx sy)).
Proof.
  induction sched as [| t sched IH] using rev_ind; intros Hlen.
  - intros _. reflexivity.
  - rewrite length_app in *. simpl in *. rewrite run_snoc.
    replace (Z.of_nat (length sched + 1)) with (Z.of_nat (length sched) + 1) in * by lia.
    destruct (invariant_run draw junk_count junk_total junk_retire sched hc sx sy)
      as (Hsz & Hst & _).
    destruct t as [| k]; unfold step.
    + apply records_inv_main; [lia | assumption | assumption | apply IH; lia].
    + apply records_inv_pi_count; [lia | apply IH; lia].
Qed.

(** *** A thread whose flag is raised returns *)

Lemma stop_progress t st k :
  sized st -> stage st ->
  wpc_of st k <> WNotLaunched -> flag (retire st) k = true ->
  wpc_of (pstep t st) k <> WNotLaunched
  /\ flag (retire (pstep t st)) k = true
  /\ steps_left (wpc_of (pstep t st) k)
     = (if decide (t = TWorker k) then pred (steps_left (wpc_of st k))
        else steps_left (wpc_of st k)).
Proof.
  intros [Hsz0 Hsz] Hst Hl Hf. destruct t as [| j]; unfold step.
  - rewrite decide_False by discriminate.
    assert (Hm0 : mpc st <> MStart).
    { intros Hm. destruct (Hsz0 Hm) as (_ & _ & _ & Hnil & _).
      unfold wpc_of in Hl. rewrite Hnil in Hl. contradiction Hl. reflexivity. }
    unfold stage in Hst.
    main_cases st Hm w Hw Hpc; try congruence; auto; unfold wpc_of in *; simpl.
    + destruct Hst as [_ Hnl].
      assert (i <> k).
      { intros ->. apply Hl. apply (Hnl k). lia. }
      rewrite flag_insert_ne by assumption. auto.
    + destruct Hst as [_ Hnl].
      assert (i <> k).
      { intros ->. apply Hl. apply (Hnl k). lia. }
      rewrite list_lookup_insert_ne by assumption. auto.
    + split; [exact Hl |]. split; [| reflexivity].
      unfold flag in *. rewrite list_lookup_insert. case_decide; [reflexivity | exact Hf].
  - destruct (pi_count_frame draw j st) as (_ & _ & -> & _).
    destruct (decide (j = k)) as [-> | Hne].
    + rewrite decide_True by reflexivity.
      split; [apply pi_count_keeps_launched; exact Hl |]. split; [exact Hf |].
      revert Hl. unfold wpc_of.
      worker_cases k st w Hw Hpc; rewrite ?Hw, ?Hpc;
        rewrite ?list_lookup_insert_eq by assumption; simpl; try reflexivity;
        try congruence.
    + rewrite decide_False by congruence.
      unfold wpc_of in *.
      destruct (pi_count_others draw j k st ltac:(congruence)) as (-> & _). auto.
Qed.

Lemma own_steps_cons k t s :
  own_steps k (t :: s)
  = ((if decide (t = TWorker k) then 1 else 0) + own_steps k s)%nat.
Proof.
  unfold own_steps. rewrite filter_cons. case_decide; reflexivity.
Qed.

Lemma stop_countdown k s : forall st,
  sized st -> stage st ->
  wpc_of st k <> WNotLaunched -> flag (retire st) k = true ->
  wpc_of (prun s st) k <> WNotLaunched
  /\ steps_left (wpc_of (prun s st) k) = (steps_left (wpc_of st k) - own_steps k s)%nat.
Proof.
  induction s as [| t s IH]; intros st Hsz Hst Hl Hf.
  - simpl. split; [exact Hl | unfold own_steps; simpl; lia].
  - rewrite run_cons_eq, own_steps_cons.
    destruct (stop_progress t st k Hsz Hst Hl Hf) as (Hl' & Hf' & Hm).
    destruct (IH (pstep t st) (sized_step draw junk_count junk_total junk_retire t st Hsz)
                (stage_step draw junk_count junk_total junk_retire t st Hst) Hl' Hf')
      as [Hl'' ->].
    split; [exact Hl'' |]. rewrite Hm. case_decide; lia.
Qed.

Lemma steps_left_0 pc : pc <> WNotLaunched -> steps_left pc = 0%nat -> pc = WExited.
Proof. destruct pc; simpl; congruence. Qed.

Lemma steps_left_le pc : (steps_left pc <= 6)%nat.
Proof. destruct pc; simpl; lia. Qed.

(** *** The aggregation loop *)

Lemma slot_sum_ext (l l' : list Z) : forall k i,
  (forall j, (i <= j)%nat -> cell l' j = cell l j) ->
  slot_sum l' i k = slot_sum l i k.
Proof.
  induction k as [| k IH]; intros i H; simpl; [reflexivity |].
  rewrite H by lia. rewrite IH; [reflexivity |]. intros j Hj. apply H. lia.
Qed.

(** Lines 144-145 for one index. *)
Lemma aggregate_one_index st i :
  mpc st = MAggCount i -> (1 <= i)%nat ->
  mstep (mstep st)
  = set_mpc (aggregate_from (S i) (supported_threads st))
      (set_total (<[0%nat := uint_add (cell (total st) 0) (cell (count st) i)]> (total st))
         (set_count (<[0%nat := uint_add (cell (count st) 0) (cell (count st) i)]> (count st))
            st)).
Proof.
  intros Hm Hi. unfold main at 2. rewrite Hm. unfold main. simpl.
  rewrite (cell_insert_ne (count st) 0 i) by lia. reflexivity.
Qed.

Lemma aggregate_from_index d : forall st i,
  mpc st = MAggCount i -> (1 <= i)%nat -> (i + S d = supported_threads st)%nat ->
  (0 < length (count st))%nat -> (0 < length (total st))%nat ->
  let st' := prun (repeat TMain (2 * S d)) st in
  mpc st' = MReport
  /\ cell (count st') 0 = wrap32 (cell (count st) 0 + slot_sum (count st) i (S d))
  /\ cell (total st') 0 = wrap32 (cell (total st) 0 + slot_sum (count st) i (S d))
  /\ (forall j, (1 <= j)%nat ->
        cell (count st') j = cell (count st) j /\ cell (total st') j = cell (total st) j)
  /\ deviation st' = deviation st /\ stdout st' = stdout st
  /\ supported_threads st' = supported_threads st.
Proof.
  induction d as [| d IH]; intros st i Hm Hi Hn Hlc Hlt st'; subst st'.
  - change (2 * 1)%nat with 2%nat. cbn [repeat]. rewrite !run_cons_eq.
    unfold run at 1. cbn [fold_left]. unfold step.
    rewrite (aggregate_one_index st i Hm Hi).
    unfold aggregate_from. replace (S i <? supported_threads st)%nat with false
      by (symmetry; apply Nat.ltb_ge; lia).
    simpl. rewrite !cell_insert_eq by assumption. rewrite Z.add_0_r.
    repeat split; rewrite ?cell_insert_ne by lia; reflexivity.
  - replace (2 * S (S d))%nat with (S (S (2 * S d))) by lia.
    cbn [repeat]. rewrite !run_cons_eq.
    change (pstep TMain (pstep TMain st)) with (mstep (mstep st)).
    rewrite (aggregate_one_index st i Hm Hi).
    unfold aggregate_from. replace (S i <? supported_threads st)%nat with true
      by (symmetry; apply Nat.ltb_lt; lia).
    match goal with |- context [prun _ ?s] => set (st2 := s) end.
    assert (Hc2 : forall j, (1 <= j)%nat -> cell (count st2) j = cell (count st) j).
    { intros j Hj. subst st2. simpl. apply cell_insert_ne. lia. }
    assert (Ht2 : forall j, (1 <= j)%nat -> cell (total st2) j = cell (total st) j).
    { intros j Hj. subst st2. simpl. apply cell_insert_ne. lia. }
    assert (Hc0 : cell (count st2) 0 = wrap32 (cell (count st) 0 + cell (count st) i)).
    { subst st2. simpl. apply cell_insert_eq. exact Hlc. }
    assert (Ht0 : cell (total st2) 0 = wrap32 (cell (total st) 0 + cell (count st) i)).
    { subst st2. simpl. apply cell_insert_eq. exact Hlt. }
    destruct (IH st2 (S i)) as (Hmpc & Hcnt & Htot & Hrest & Hdev & Hout & Hthr).
    { reflexivity. } { lia. } { subst st2. simpl. lia. }
    { subst st2. simpl. rewrite length_insert. exact Hlc. }
    { subst st2. simpl. rewrite length_insert. exact Hlt. }
    rewrite (slot_sum_ext (count st) (count st2)) in Hcnt, Htot
      by (intros j Hj; apply Hc2; lia).
    split; [exact Hmpc |].
    split; [rewrite Hcnt, Hc0, wrap32_add_l; f_equal; simpl; lia |].
    split; [rewrite Htot, Ht0, wrap32_add_l; f_equal; simpl; lia |].
    split; [| split; [exact Hdev | split; [exact Hout | exact Hthr]]].
    intros j Hj. destruct (Hrest j Hj) as [-> ->]. split; [apply Hc2 | apply Ht2]; exact Hj.
Qed.

(** *** The program can always finish *)

Lemma run_own_steps_frame k c st :
  mpc (prun (repeat (TWorker k) c) st) = mpc st
  /\ supported_threads (prun (repeat (TWorker k) c) st) = supported_threads st.
Proof.
  revert st. induction c as [| c IH]; intros st; [split; reflexivity |].
  cbn [repeat]. rewrite run_cons_eq. destruct (IH (pstep (TWorker k) st)) as [-> ->].
  unfold step. destruct (pi_count_frame draw k st) as (-> & -> & _). split; reflexivity.
Qed.

Lemma own_steps_repeat k c : own_steps k (repeat (TWorker k) c) = c.
Proof.
  induction c as [| c IH]; [reflexivity |].
  cbn [repeat]. rewrite own_steps_cons, decide_True by reflexivity. rewrite IH. reflexivity.
Qed.

Lemma main_rank_step st :
  sized st -> stage st ->
  mpc st <> MStart -> mpc st <> MDone ->
  (forall i, mpc st = MJoin i -> wpc_of st i = WExited) ->
  supported_threads (mstep st) = supported_threads st
  /\ (main_rank (mstep st) < main_rank st)%nat.
Proof.
  intros [_ Hsz] Hst Hm0 Hmd Hjoin. destruct (Hsz Hm0) as (Hn & _).
  unfold stage in Hst. unfold main_rank.
  main_cases st Hm w Hw Hpc; try congruence;
    try (specialize (Hjoin _ eq_refl); unfold wpc_of in Hjoin; rewrite Hw in Hjoin;
         congruence);
    (split; [reflexivity |]).
  - destruct Hst as [Hi _]. lia.
  - destruct Hst as [Hi _].
    destruct (launch_from_cases (S i) (supported_threads st)) as [[H ->] | [H ->]]; lia.
  - destruct (stop_from_cases 0 (supported_threads st))
      as [[H ->] | [(H & H1 & ->) | (H & H1 & ->)]]; lia.
  - destruct Hst as [Hi _]. lia.
  - destruct Hst as [Hi _].
    destruct (stop_from_cases (S i) (supported_threads st))
      as [[H ->] | [(H & H1 & ->) | (H & H1 & ->)]]; lia.
  - destruct Hst as [Hi _]. lia.
  - destruct Hst as [Hi _].
    destruct (aggregate_from_cases (S i) (supported_threads st)) as [[H ->] | [H ->]]; lia.
  - lia.
Qed.

Lemma can_finish_from r hc (sx sy : Gen) : forall sched,
  mpc (prun sched (initial hc sx sy)) <> MStart ->
  (main_rank (prun sched (initial hc sx sy)) <= r)%nat ->
  exists s, mpc (prun (sched ++ s) (initial hc sx sy)) = MDone.
Proof.
  induction r as [r IH] using lt_wf_ind. intros sched Hm0 Hr.
  destruct (decide (mpc (prun sched (initial hc sx sy)) = MDone)) as [Hd | Hd].
  { exists []. rewrite app_nil_r. exact Hd. }
  destruct (invariant_run draw junk_count junk_total junk_retire sched hc sx sy)
    as (Hsz & Hst & Hret & _).
  destruct (more_invariant_run hc sx sy sched) as (_ & Hl & _).
  set (st := prun sched (initial hc sx sy)) in *.
  assert (Hgo : forall s1,
            mpc (prun s1 st) = mpc st ->
            supported_threads (prun s1 st) = supported_threads st ->
            (forall i, mpc st = MJoin i -> wpc_of (prun s1 st) i = WExited) ->
            exists s, mpc (prun (sched ++ s) (initial hc sx sy)) = MDone).
  { intros s1 Hmpc Hthr Hex.
    pose proof (invariant_run draw junk_count junk_total junk_retire (sched ++ s1) hc sx sy)
      as (Hsz1 & Hst1 & _).
    rewrite run_app in Hsz1, Hst1. fold st in Hsz1, Hst1.
    destruct (main_rank_step (prun s1 st) Hsz1 Hst1) as [Hthr2 Hlt].
    { congruence. } { congruence. }
    { intros i Hi. apply Hex. congruence. }
    assert (Hrank : main_rank (prun s1 st) = main_rank st).
    { unfold main_rank. rewrite Hmpc, Hthr. reflexivity. }
    destruct (IH (main_rank (mstep (prun s1 st))) ltac:(lia) (sched ++ s1 ++ [TMain]))
      as [s Hs].
    - rewrite app_assoc, run_snoc, run_app. fold st. unfold step.
      unfold main. destruct (mpc (prun s1 st)) eqn:E; try congruence;
        try (simpl; first [ discriminate
                          | apply launch_from_started
                          | apply stop_from_started
                          | apply aggregate_from_started ]).
      specialize (Hex i ltac:(congruence)). unfold wpc_of in Hex.
      destruct (workers (prun s1 st) !! i) as [w |]; [| discriminate].
      rewrite Hex. simpl. apply stop_from_started.
    - rewrite app_assoc, run_snoc, run_app. fold st. unfold step. lia.
    - exists ((s1 ++ [TMain]) ++ s). rewrite !app_assoc in *. exact Hs. }
  destruct (mpc st) eqn:Hmpc; try congruence;
    try (apply (Hgo []); [exact Hmpc | reflexivity | intros i' Hi'; discriminate Hi']).
  apply (Hgo (repeat (TWorker i) 6)).
  - rewrite (proj1 (run_own_steps_frame i 6 st)). exact Hmpc.
  - apply run_own_steps_frame.
  - intros i' Hi'. injection Hi' as <-.
    pose proof Hst as Hst'.
    unfold stage in Hst'. unfold retire_inv in Hret. rewrite Hmpc in Hst', Hret.
    destruct Hst' as [Hi _]. destruct Hret as [Hb _].
    specialize (Hl i Hi). rewrite Hmpc in Hl.
    destruct (stop_countdown i (repeat (TWorker i) 6) st Hsz Hst Hl) as [Hl' Hs'].
    { apply Hb; lia. }
    apply steps_left_0; [exact Hl' |].
    rewrite Hs', own_steps_repeat. pose proof (steps_left_le (wpc_of st i)). lia.
Qed.

End MoreInvariants.

(** * Further theorems *)

Lemma sumZ_head_tail (l : list Z) : (0 < length l)%nat -> sumZ l = cell l 0 + sumZ (tail l).
Proof. destruct l as [| x l]; simpl; [lia | reflexivity]. Qed.

Ltac norm_state_in E :=
  cbn -[in_circle to_ld analysis_record wrap32 run] in E;
  unfold set_worker, set_count, set_total, set_retire, set_xgen, set_ygen,
    set_deviation, set_mpc, print, at_pc, analysis in E;
  cbn -[in_circle to_ld analysis_record wrap32 run] in E.

Section ExtraProperties.

Context {Gen : Type}.
Variable draw : Gen -> spec_float * Gen.
Variable junk_count junk_total : nat -> Z.
Variable junk_retire : nat -> bool.
Variable hardware_concurrency : nat.
Variable seedx seedy : Gen.

Local Abbreviation pstep := (step draw junk_count junk_total junk_retire).
Local Abbreviation prun := (run draw junk_count junk_total junk_retire).
Local Abbreviation after sched :=
  (run draw junk_count junk_total junk_retire sched
     (initial hardware_concurrency seedx seedy)).

(** X1: a statement of [pi_count(k)] writes nothing but the slot and the
    locals of thread [k], the two engines and the list of deviations: it
    leaves [main], the number of threads, every [retire] flag, the output and
    the sizes of the arrays alone, and for every other thread [j] it leaves
    [count[j]], [total[j]] and the thread itself untouched.  Only thread 0
    can change the list of deviations. *)
Theorem pi_count_writes_own_slot_only (st : state Gen) (k : nat) :
  let st' := pi_count draw k st in
  mpc st' = mpc st
  /\ supported_threads st' = supported_threads st
  /\ retire st' = retire st
  /\ stdout st' = stdout st
  /\ length (count st') = length (count st)
  /\ length (total st') = length (total st)
  /\ length (workers st') = length (workers st)
  /\ (forall j, j <> k ->
        workers st' !! j = workers st !! j
        /\ cell (count st') j = cell (count st) j
        /\ cell (total st') j = cell (total st) j)
  /\ (k <> 0%nat -> deviation st' = deviation st).
Proof.
  intros st'. subst st'.
  destruct (pi_count_frame draw k st) as (H1 & H2 & H3 & H4 & H5 & H6 & H7).
  repeat (split; [assumption |]).
  split.
  - intros j Hj. apply pi_count_others. exact Hj.
  - intros Hk. destruct (pi_count_deviation draw k st) as [H | [H _]]; [exact H | contradiction].
Qed.

(** X2: a thread never leaves its loop on its own: in every execution, a
    thread that has returned has its [retire] flag raised, and [main] has
    passed the statement that raises it (so the key has been pressed). *)
Theorem thread_returns_only_when_retired (sched : list tid) (k : nat) :
  let st := after sched in
  wpc_of st k = WExited ->
  flag (retire st) k = true /\ stop_requested st k.
Proof.
  intros st Hex. subst st.
  destruct (invariant_run draw junk_count junk_total junk_retire sched
              hardware_concurrency seedx seedy) as ([Hsz0 Hsz] & Hst & Hr & _).
  destruct (more_invariant_run draw junk_count junk_total junk_retire
              hardware_concurrency seedx seedy sched) as (_ & _ & He & _).
  set (st := after sched) in *.
  pose proof (He k Hex) as Hf. split; [exact Hf |].
  assert (Hm0 : mpc st <> MStart).
  { intros Hm. destruct (Hsz0 Hm) as (_ & _ & _ & Hnil & _).
    unfold wpc_of in Hex. rewrite Hnil in Hex. discriminate. }
  destruct (Hsz Hm0) as (_ & _ & _ & _ & Hlw).
  assert (Hk : (k < supported_threads st)%nat).
  { rewrite <- Hlw. unfold wpc_of in Hex.
    destruct (workers st !! k) as [w |] eqn:Hw; [| discriminate].
    apply lookup_lt_Some in Hw. exact Hw. }
  unfold stage in Hst. unfold retire_inv in Hr. unfold stop_requested.
  destruct (mpc st) eqn:Hm; try congruence; try exact I.
  - destruct Hst as [_ Hnl]. destruct (Nat.lt_ge_cases k i) as [Hlt | Hge].
    + rewrite (Hr k Hlt Hk) in Hf. discriminate.
    + rewrite (Hnl k Hge) in Hex. discriminate.
  - destruct Hst as [_ Hnl]. destruct (Nat.lt_ge_cases k i) as [Hlt | Hge].
    + rewrite (Hr k ltac:(lia) Hk) in Hf. discriminate.
    + rewrite (Hnl k Hge) in Hex. discriminate.
  - rewrite (Hr k Hk Hk) in Hf. discriminate.
  - destruct Hr as [_ Hfrom]. destruct (Nat.lt_ge_cases k i) as [Hlt | Hge]; [exact Hlt |].
    rewrite (Hfrom k Hge Hk) in Hf. discriminate.
  - destruct Hr as [_ Hfrom]. destruct (Nat.le_gt_cases k i) as [Hle | Hgt]; [exact Hle |].
    rewrite (Hfrom k ltac:(lia) Hk) in Hf. discriminate.
Qed.

(** X3: once its flag is raised, a launched thread returns after a bounded
    number of its own statements, whatever the other threads and [main] do
    in between: it has returned exactly when it has run [steps_left] of its
    statements, which is at most 6 (the rest of the iteration and the test
    of the flag). *)
Theorem retired_thread_returns_within_six_steps (sched s : list tid) (k : nat) :
  let st := after sched in
  wpc_of st k <> WNotLaunched ->
  flag (retire st) k = true ->
  (steps_left (wpc_of st k) <= 6)%nat
  /\ (wpc_of (prun s st) k = WExited <-> (steps_left (wpc_of st k) <= own_steps k s)%nat)
  /\ ((6 <= own_steps k s)%nat -> wpc_of (prun s st) k = WExited).
Proof.
  intros st Hl Hf. subst st.
  destruct (invariant_run draw junk_count junk_total junk_retire sched
              hardware_concurrency seedx seedy) as (Hsz & Hst & _).
  set (st := after sched) in *.
  destruct (stop_countdown draw junk_count junk_total junk_retire k s st Hsz Hst Hl Hf)
    as [Hl' Hs'].
  pose proof (steps_left_le (wpc_of st k)) as Hle.
  split; [exact Hle |].
  assert (Hiff : wpc_of (prun s st) k = WExited
                 <-> (steps_left (wpc_of st k) <= own_steps k s)%nat).
  { split.
    - intros Hex. rewrite Hex in Hs'. simpl in Hs'. lia.
    - intros H. apply steps_left_0; [exact Hl' | lia]. }
  split; [exact Hiff |]. intros H. apply Hiff. lia.
Qed.

(** X4: [main] aggregates and reports only after every thread has returned:
    whenever it stands at lines 142-164, all the threads have returned, and
    from then on no step of any thread changes a thread, a flag, an engine or
    the counters of the slots 1 .. n-1. *)
Theorem threads_joined_before_aggregation (sched : list tid) (t : tid) :
  let st := after sched in
  (exists i, mpc st = MAggCount i) \/ (exists i, mpc st = MAggTotal i)
  \/ mpc st = MReport \/ mpc st = MDone ->
  (forall k, (k < supported_threads st)%nat -> wpc_of st k = WExited)
  /\ workers (pstep t st) = workers st
  /\ retire (pstep t st) = retire st
  /\ xgen (pstep t st) = xgen st /\ ygen (pstep t st) = ygen st
  /\ (forall j, (1 <= j)%nat ->
        cell (count (pstep t st)) j = cell (count st) j
        /\ cell (total (pstep t st)) j = cell (total st) j).
Proof.
  intros st Hm. subst st.
  destruct (invariant_run draw junk_count junk_total junk_retire sched
              hardware_concurrency seedx seedy) as ([Hsz0 Hsz] & Hst & _).
  set (st := after sched) in *.
  assert (Hm0 : mpc st <> MStart).
  { destruct Hm as [[i H] | [[i H] | [H | H]]]; congruence. }
  destruct (Hsz Hm0) as (_ & _ & _ & _ & Hlw).
  assert (Hex : forall k, (k < supported_threads st)%nat -> wpc_of st k = WExited).
  { unfold stage in Hst.
    destruct Hm as [[i H] | [[i H] | [H | H]]]; rewrite H in Hst;
      try (destruct Hst as [_ Hst]); exact Hst. }
  split; [exact Hex |].
  destruct t as [| k]; unfold step.
  - unfold main.
    destruct Hm as [[i H] | [[i H] | [H | H]]]; rewrite H; simpl;
      repeat split; rewrite ?cell_insert_ne by lia; reflexivity.
  - assert (Hidle : pi_count draw k st = st).
    { apply pi_count_idle. destruct (Nat.lt_ge_cases k (supported_threads st)) as [Hlt | Hge].
      - right. apply Hex. exact Hlt.
      - left. unfold wpc_of. rewrite lookup_ge_None_2 by lia. reflexivity. }
    rewrite Hidle. repeat split.
Qed.

(** X5: the aggregation loop, for any number of threads and any counters.
    Started at its first statement on arrays of [n >= 2] cells, the
    [2 * (n - 1)] statements of lines 142-146 take [main] to the report with
    [count[0]] the sum of all the cells of [count] modulo 2^32, and with
    [total[0]] its old value plus the cells 1 .. n-1 of [count] (not of
    [total]) modulo 2^32; the other cells are unchanged. *)
Theorem aggregation_sums_count_twice (st : state Gen) :
  let n := supported_threads st in
  let st' := prun (repeat TMain (2 * (n - 1))) st in
  mpc st = MAggCount 1 ->
  (2 <= n)%nat ->
  length (count st) = n ->
  length (total st) = n ->
  mpc st' = MReport
  /\ cell (count st') 0 = wrap32 (sumZ (count st))
  /\ cell (total st') 0 = wrap32 (cell (total st) 0 + sumZ (tail (count st)))
  /\ (forall j, (1 <= j)%nat ->
        cell (count st') j = cell (count st) j /\ cell (total st') j = cell (total st) j).
Proof.
  intros n st' Hm Hn Hlc Hlt. subst st' n.
  destruct (supported_threads st) as [| [| d]] eqn:En; try lia.
  replace (S (S d) - 1)%nat with (S d) by lia.
  assert (H1 : (1 + S d = supported_threads st)%nat) by lia.
  assert (H2 : (0 < length (count st))%nat) by lia.
  assert (H3 : (0 < length (total st))%nat) by lia.
  destruct (aggregate_from_index draw junk_count junk_total junk_retire d st 1%nat Hm
              (Nat.le_refl 1) H1 H2 H3)
    as (Hmpc & Hcnt & Htot & Hrest & _).
  assert (Hsum : slot_sum (count st) 1 (S d) = sumZ (tail (count st))).
  { rewrite <- slot_sum_tail. f_equal. lia. }
  split; [exact Hmpc |].
  split; [rewrite Hcnt, Hsum, (sumZ_head_tail (count st)) by lia; reflexivity |].
  split; [rewrite Htot, Hsum; reflexivity | exact Hrest].
Qed.

(** X6: the output has a fixed order.  At any moment the lines printed so
    far are a prefix of: the launch line with the number of threads, the
    prompt, one interrupt line per thread in index order, the result line,
    the header, and the deviation lines; the interrupt line of thread [i] is
    printed before [main] waits for thread [i].  When [main] is done the
    output is exactly that sequence. *)
Theorem output_lines_in_order (sched : list tid) :
  let st := after sched in
  let n := thread_count hardware_concurrency in
  stdout_inv st
  /\ (mpc st <> MStart -> supported_threads st = n)
  /\ (mpc st = MDone ->
      exists pi pts recs,
        stdout st
        = [LLaunching n; LPrompt] ++ (LInterrupt <$> seq 0 n)
          ++ [LResult pi pts; LHeader]
          ++ ((fun d => LDeviation (points d) (accuracy d)) <$> recs)).
Proof.
  intros st n. subst st n.
  destruct (more_invariant_run draw junk_count junk_total junk_retire
              hardware_concurrency seedx seedy sched) as ([_ Hn] & _ & _ & Ho).
  split; [exact Ho |]. split; [exact Hn |].
  intros Hd. unfold stdout_inv in Ho. rewrite Hd in Ho.
  rewrite Hn in Ho by congruence. exact Ho.
Qed.

(** X7: the list of deviations is append-only while the program samples.
    A step of any thread, in any state, either leaves the list as it is, or
    is the call of [analysis] by thread 0 at a checkpoint ([i] a multiple of
    [analysis_samples_rate]), which adds one record at the back and keeps the
    records already there, or is the report of [main], which empties it. *)
Theorem deviations_append_only (st : state Gen) (t : tid) :
  deviation (pstep t st) = deviation st
  \/ (t = TWorker 0 /\ wpc_of st 0 = WAnalysis
      /\ wi_of st 0 mod analysis_samples_rate = 0
      /\ deviation (pstep t st)
         = deviation st ++ [analysis_record (supported_threads st) (count st) (total st)])
  \/ (t = TMain /\ mpc st = MReport /\ deviation (pstep t st) = []).
Proof.
  destruct t as [| k]; unfold step.
  - main_cases st Hm w Hw Hpc; auto.
  - destruct (pi_count_deviation draw k st) as [H | (-> & H)]; auto.
Qed.

(** X8: the list holds one record per checkpoint.  In an execution of
    fewer than 2^64 steps, until the report empties the list, its length is
    the number of multiples of [analysis_samples_rate] among the iterations
    thread 0 has completed; after 2000000 iterations it holds 2 records. *)
Theorem one_record_per_checkpoint (sched : list tid) (w : worker) :
  let st := after sched in
  Z.of_nat (length sched) < 2 ^ 64 ->
  mpc st <> MDone ->
  workers st !! 0%nat = Some w ->
  Z.of_nat (length (deviation st)) = records_due (wi w)
  /\ (wi w = 0 -> deviation st = [])
  /\ (wi w = 2000000 -> length (deviation st) = 2%nat).
Proof.
  intros st Hlen Hd Hw. subst st.
  pose proof (records_inv_run draw junk_count junk_total junk_retire
                hardware_concurrency seedx seedy sched Hlen Hd) as Hr.
  rewrite Hw in Hr. destruct Hr as (_ & _ & Hr).
  split; [exact Hr |]. split; intros Hi; rewrite Hi in Hr.
  - change (records_due 0) with 0 in Hr.
    destruct (deviation _); [reflexivity | discriminate Hr].
  - change (records_due 2000000) with 2 in Hr. lia.
Qed.

(** X9: the arrays are as long as the number of threads and every index
    is in range.  After the first statements of [main], [supported_threads]
    is the hardware concurrency, or 2 when that is 0, and never changes;
    [count], [total], [retire] and [threads] have that many cells; the loop
    index of [main] is below it, and the aggregation index is at least 1. *)
Theorem arrays_sized_by_thread_count (sched : list tid) :
  let st := after sched in
  let n := supported_threads st in
  mpc st <> MStart ->
  n = (if Nat.eqb hardware_concurrency 0 then 2%nat else hardware_concurrency)
  /\ (1 <= n)%nat
  /\ length (count st) = n /\ length (total st) = n
  /\ length (retire st) = n /\ length (workers st) = n
  /\ match mpc st with
     | MInitRetire i | MLaunch i | MSetRetire i | MJoin i => (i < n)%nat
     | MAggCount i | MAggTotal i => (1 <= i < n)%nat
     | _ => True
     end.
Proof.
  intros st n Hm. subst st n.
  destruct (invariant_run draw junk_count junk_total junk_retire sched
              hardware_concurrency seedx seedy) as ([_ Hsz] & Hst & _).
  destruct (more_invariant_run draw junk_count junk_total junk_retire
              hardware_concurrency seedx seedy sched) as ([_ Hn] & _).
  destruct (Hsz Hm) as (H1 & H2 & H3 & H4 & H5).
  split; [exact (Hn Hm) |]. repeat (split; [assumption |]).
  unfold stage in Hst. destruct (mpc (after sched)); try exact I; apply Hst.
Qed.

(** X10: [total[k]] counts the completed iterations of thread [k] modulo
    2^32, also after it has wrapped: while the thread is in its loop,
    [total[k]] is its loop counter [i] modulo 2^32 before [++total[k]] and
    [i + 1] modulo 2^32 after it. *)
Theorem total_is_loop_counter_mod_2_32 (sched : list tid) (k : nat) (w : worker) :
  let st := after sched in
  workers st !! k = Some w ->
  in_loop (wpc w) ->
  cell (total st) k = wrap32 (if decide (wpc w = WAnalysis) then wi w + 1 else wi w)
  /\ 0 <= cell (total st) k < 2 ^ 32.
Proof.
  intros st Hw Hloop. subst st.
  destruct (invariant_run draw junk_count junk_total junk_retire sched
              hardware_concurrency seedx seedy) as (_ & _ & _ & _ & Ht & _).
  specialize (Ht k w Hw).
  assert (E : cell (total (after sched)) k
              = wrap32 (if decide (wpc w = WAnalysis) then wi w + 1 else wi w)).
  { destruct (wpc w); try contradiction; simpl; exact Ht. }
  split; [exact E |]. rewrite E. apply wrap32_range.
Qed.

(** X11: the program can always finish.  From the state reached by any
    schedule there is a continuation that takes [main] to its end; at the
    end every thread has returned and the list of deviations has been
    drained. *)
Theorem program_can_always_finish (sched : list tid) :
  exists s,
    let st := after (sched ++ s) in
    mpc st = MDone
    /\ (forall k, (k < supported_threads st)%nat -> wpc_of st k = WExited).
Proof.
  assert (Hfin : exists s, mpc (after (sched ++ s)) = MDone).
  { destruct (decide (mpc (after sched) = MStart)) as [Hm | Hm].
    - destruct (can_finish_from draw junk_count junk_total junk_retire
                  (main_rank (after (sched ++ [TMain])))
                  hardware_concurrency seedx seedy (sched ++ [TMain])) as [s Hs].
      + rewrite run_snoc. unfold step, main. rewrite Hm. simpl. apply launch_from_started.
      + lia.
      + exists ([TMain] ++ s). rewrite app_assoc. exact Hs.
    - apply (can_finish_from draw junk_count junk_total junk_retire
               (main_rank (after sched))); [exact Hm | lia]. }
  destruct Hfin as [s Hs]. exists s. cbv zeta. split; [exact Hs |].
  destruct (invariant_run draw junk_count junk_total junk_retire (sched ++ s)
              hardware_concurrency seedx seedy) as (_ & Hst & _).
  unfold stage in Hst. rewrite Hs in Hst. exact Hst.
Qed.

(** X12: while [main] waits for the key, the pool is complete and running:
    every thread has been launched, no [retire] flag is raised and no thread
    has returned. *)
Theorem all_threads_running_at_getchar (sched : list tid) (k : nat) :
  let st := after sched in
  mpc st = MGetchar ->
  (k < supported_threads st)%nat ->
  wpc_of st k <> WNotLaunched
  /\ wpc_of st k <> WExited
  /\ flag (retire st) k = false.
Proof.
  intros st Hm Hk. subst st.
  destruct (invariant_run draw junk_count junk_total junk_retire sched
              hardware_concurrency seedx seedy) as (_ & _ & Hr & _).
  destruct (more_invariant_run draw junk_count junk_total junk_retire
              hardware_concurrency seedx seedy sched) as (_ & Hl & He & _).
  unfold retire_inv in Hr. rewrite Hm in Hr.
  specialize (Hl k Hk). rewrite Hm in Hl.
  pose proof (Hr k Hk Hk) as Hf.
  split; [exact Hl |]. split; [| exact Hf].
  intros Hex. rewrite (He k Hex) in Hf. discriminate.
Qed.

(** X13: on a machine with one hardware thread the deviations are all
    NaN.  The loop of [analysis] starts at slot 1, so with a single thread it
    sums nothing, [calculated_pi] is [0.0L / 0 * 4], and every record in the
    list, in every execution, is [(NaN, 0)]. *)
Theorem single_thread_records_are_nan (sched : list tid) :
  thread_count hardware_concurrency = 1%nat ->
  Forall (fun d => d = mk_deviation S754_nan 0) (deviation (after sched)).
Proof.
  intros Hone.
  induction sched as [| t sched IH] using rev_ind.
  - apply Forall_nil_2.
  - rewrite run_snoc.
    destruct (invariant_run draw junk_count junk_total junk_retire sched
                hardware_concurrency seedx seedy) as ([Hsz0 _] & _).
    destruct (threads_inv_run draw junk_count junk_total junk_retire
                hardware_concurrency seedx seedy sched) as [_ Hn].
    set (st := after sched) in *.
    destruct t as [| k]; unfold step.
    + destruct (main_deviation junk_count junk_total junk_retire st) as [H | H];
        rewrite H; [exact IH | apply Forall_nil_2].
    + destruct (pi_count_deviation draw k st) as [H | (_ & Hpc & _ & H)];
        rewrite H; [exact IH |].
      assert (Hm : mpc st <> MStart).
      { intros Hm. destruct (Hsz0 Hm) as (_ & _ & _ & Hnil & _).
        unfold wpc_of in Hpc. rewrite Hnil in Hpc. discriminate. }
      rewrite (Hn Hm), Hone.
      apply Forall_app_2; [exact IH |].
      apply Forall_cons_2; [reflexivity | apply Forall_nil_2].
Qed.

(** X14: from the joined threads to the end of [main].  Started where the
    last [join] leaves it, on arrays of [n >= 1] unsigned cells, [main] takes
    [2 * (n - 1) + 1] statements to finish.  With [c] the sum of all the
    cells of [count] modulo 2^32, and [t] the old [total[0]] plus the cells
    1 .. n-1 of [count] modulo 2^32, it prints the result line, with the
    value [(long double)c / t * 4] and, as number of points, [t] read as an
    [int] by [%d]: [t] itself below 2^31, and [t - 2^32] from 2^31 on; then
    the header; then one line per record of the list, oldest first, with its
    number of points read as an [int] in the same way.  The list is empty
    afterwards. *)
Theorem report_after_join (st : state Gen) :
  let n := supported_threads st in
  let c := wrap32 (sumZ (count st)) in
  let t := wrap32 (cell (total st) 0 + sumZ (tail (count st))) in
  let st' := prun (repeat TMain (2 * (n - 1) + 1)) st in
  mpc st = aggregate_from 1 n ->
  (1 <= n)%nat ->
  length (count st) = n ->
  length (total st) = n ->
  0 <= cell (count st) 0 < 2 ^ 32 ->
  0 <= cell (total st) 0 < 2 ^ 32 ->
  mpc st' = MDone
  /\ deviation st' = []
  /\ stdout st'
     = stdout st
       ++ [LResult (calculated_pi c t) (to_int t); LHeader]
       ++ ((fun d => LDeviation (to_int (points d)) (accuracy d)) <$> deviation st)
  /\ to_int t = (if t <? 2 ^ 31 then t else t - 2 ^ 32).
Proof.
  intros n c t st' Hm Hn Hlc Hlt Hc0 Ht0. subst st' c t n.
  assert (Hint : forall z, to_int (wrap32 z)
                           = (if wrap32 z <? 2 ^ 31 then wrap32 z else wrap32 z - 2 ^ 32)).
  { intros z. unfold to_int. rewrite wrap32_idemp. reflexivity. }
  split; [| split; [| split; [| apply Hint]]];
    (destruct (supported_threads st) as [| [| d]] eqn:En; [lia | |]).
  all: try (change (repeat TMain (2 * (1 - 1) + 1)) with [TMain];
            change (aggregate_from 1 1) with MReport in Hm;
            rewrite run_cons_eq; unfold run; cbn [fold_left]; unfold step, main; rewrite Hm;
            unfold report_lines, calculated_pi; simpl;
            destruct (count st) as [| x [| y l]]; try discriminate Hlc;
            simpl in *; rewrite ?Z.add_0_r, ?wrap32_small by assumption;
            reflexivity).
  all: replace (2 * (S (S d) - 1) + 1)%nat with (2 * S d + 1)%nat by lia;
    rewrite repeat_app, run_app;
    change (aggregate_from 1 (S (S d))) with (MAggCount 1) in Hm;
    assert (H1 : (1 + S d = supported_threads st)%nat) by lia;
    assert (H2 : (0 < length (count st))%nat) by lia;
    assert (H3 : (0 < length (total st))%nat) by lia;
    destruct (aggregate_from_index draw junk_count junk_total junk_retire d st 1%nat Hm
                (Nat.le_refl 1) H1 H2 H3)
      as (Hmpc & Hcnt & Htot & _ & Hdev & Hout & _);
    assert (Hsum : slot_sum (count st) 1 (S d) = sumZ (tail (count st)))
      by (rewrite <- slot_sum_tail; f_equal; lia);
    set (st1 := prun (repeat TMain (2 * S d)) st) in *;
    change (repeat TMain 1) with [TMain];
    rewrite run_cons_eq; unfold run; cbn [fold_left]; unfold step, main; rewrite Hmpc;
    unfold report_lines, calculated_pi; simpl;
    rewrite ?Hcnt, ?Htot, ?Hdev, ?Hout, ?Hsum, ?(sumZ_head_tail (count st)) by lia;
    reflexivity.
Qed.

(** X15: one iteration of the loop of [pi_count], lines 177-195.  When
    thread [k] tests its flag and finds it down, its next six statements,
    run without another thread in between, draw [x0] from [xgen] and [y0]
    from [ygen] (each engine advances once), add 1 to [count[k]] modulo 2^32
    when the point is classified inside and leave it otherwise, add 1 to
    [total[k]] modulo 2^32, add 1 to [i] modulo 2^64, and come back to the
    test.  Thread 0 at a multiple of [analysis_samples_rate] also pushes one
    record, computed from the counters after the increments.  Nothing else
    changes. *)
Theorem one_iteration_of_pi_count (st : state Gen) (k : nat) (w : worker) :
  let x0 := to_ld (fst (draw (xgen st))) in
  let y0 := to_ld (fst (draw (ygen st))) in
  let st' := prun (repeat (TWorker k) 6) st in
  workers st !! k = Some w ->
  wpc w = WCheckRetire ->
  flag (retire st) k = false ->
  workers st' !! k = Some (mk_worker WCheckRetire (wrap64 (wi w + 1)) x0 y0)
  /\ xgen st' = snd (draw (xgen st)) /\ ygen st' = snd (draw (ygen st))
  /\ count st'
     = (if in_circle x0 y0 then <[k := wrap32 (cell (count st) k + 1)]> (count st)
        else count st)
  /\ total st' = <[k := wrap32 (cell (total st) k + 1)]> (total st)
  /\ deviation st'
     = (if Nat.eqb k 0 && (wi w mod analysis_samples_rate =? 0)
        then deviation st
             ++ [analysis_record (supported_threads st) (count st') (total st')]
        else deviation st)
  /\ mpc st' = mpc st /\ retire st' = retire st /\ stdout st' = stdout st.
Proof.
  intros x0 y0 st' Hw Hpc Hf. subst x0 y0.
  pose proof (lookup_lt_Some _ _ _ Hw) as Hlen.
  assert (E : st' = prun (repeat (TWorker k) 6) st) by reflexivity. clearbody st'.
  destruct w as [pc i wx wy]. simpl in Hpc. subst pc.
  destruct st as [n c t r xg yg dev m ws out].
  cbn [workers retire xgen ygen count total deviation mpc stdout supported_threads] in *.
  destruct (draw xg) as [vx gx] eqn:Hx. destruct (draw yg) as [vy gy] eqn:Hy.
  cbn [repeat fst snd] in *.
  (* line 177 *)
  rewrite run_cons_eq in E. unfold step at 1 in E. unfold pi_count at 1 in E.
  cbn [workers retire] in E. rewrite Hw in E. cbn [wpc] in E. rewrite Hf in E.
  norm_state_in E.
  (* line 181, x0 *)
  rewrite run_cons_eq in E. unfold step at 1 in E. unfold pi_count at 1 in E.
  cbn [workers xgen] in E. rewrite list_lookup_insert_eq in E by exact Hlen.
  cbn [wpc] in E. rewrite Hx in E. norm_state_in E.
  rewrite list_insert_insert_eq in E.
  (* line 181, y0 *)
  rewrite run_cons_eq in E. unfold step at 1 in E. unfold pi_count at 1 in E.
  cbn [workers ygen] in E. rewrite list_lookup_insert_eq in E by exact Hlen.
  cbn [wpc] in E. rewrite Hy in E. norm_state_in E.
  rewrite list_insert_insert_eq in E.
  (* lines 188-189 *)
  rewrite run_cons_eq in E. unfold step at 1 in E. unfold pi_count at 1 in E.
  cbn [workers] in E. rewrite list_lookup_insert_eq in E by exact Hlen.
  cbn [wpc wx0 wy0] in E.
  destruct (in_circle (to_ld vx) (to_ld vy)); norm_state_in E;
    rewrite list_insert_insert_eq in E.
  all: rewrite run_cons_eq in E; unfold step at 1 in E; unfold pi_count at 1 in E;
    cbn [workers] in E; rewrite list_lookup_insert_eq in E by exact Hlen;
    cbn [wpc] in E; norm_state_in E; rewrite list_insert_insert_eq in E.
  all: rewrite run_cons_eq in E; unfold step at 1 in E; unfold pi_count at 1 in E;
    cbn [workers] in E; rewrite list_lookup_insert_eq in E by exact Hlen;
    cbn [wpc wi] in E |- *;
    destruct ((k =? 0)%nat && (i mod analysis_samples_rate =? 0));
    norm_state_in E; rewrite list_insert_insert_eq in E;
    unfold run in E; cbn [fold_left] in E; subst st';
    cbn [workers retire xgen ygen count total deviation mpc stdout supported_threads];
    rewrite list_lookup_insert_eq by exact Hlen; unfold uint_add;
    repeat split; reflexivity.
Qed.

End ExtraProperties.

(** * The further theorems on concrete executions *)

(** The same machine as above, continued from a state by a schedule; and a
    machine with a single hardware thread. *)
Local Abbreviation demo_from tape sched st :=
  (run (tape_draw tape) (fun _ => 7) (fun _ => 9) (fun _ => true) sched st).
Local Abbreviation solo_run tape sched :=
  (run (tape_draw tape) (fun _ => 7) (fun _ => 9) (fun _ => true) sched
     (initial 1 0%nat 0%nat)).

Lemma pi_count_writes_own_slot_only_witness :
  1%nat <> 0%nat
  /\ cell (count (pi_count (tape_draw [half; seven_eighths]) 0
                    (demo_run [half; seven_eighths] both_drawing))) 1
     = cell (count (demo_run [half; seven_eighths] both_drawing)) 1.
Proof.
  assert (Hne : 1%nat <> 0%nat) by discriminate.
  split; [exact Hne |].
  pose proof (pi_count_writes_own_slot_only (tape_draw [half; seven_eighths])
                (demo_run [half; seven_eighths] both_drawing) 0%nat) as H.
  cbv zeta in H. destruct H as (_ & _ & _ & _ & _ & _ & _ & H & _).
  exact (proj1 (proj2 (H 1%nat Hne))).
Defined.

Lemma thread_returns_only_when_retired_witness :
  wpc_of (demo_run [half; seven_eighths] sample_and_join) 0 = WExited
  /\ flag (retire (demo_run [half; seven_eighths] sample_and_join)) 0 = true.
Proof.
  assert (Hex : wpc_of (demo_run [half; seven_eighths] sample_and_join) 0 = WExited)
    by (vm_compute; reflexivity).
  split; [exact Hex |].
  pose proof (thread_returns_only_when_retired (tape_draw [half; seven_eighths])
                (fun _ => 7) (fun _ => 9) (fun _ => true) 2 0%nat 0%nat
                sample_and_join 0%nat) as H.
  cbv zeta in H. exact (proj1 (H Hex)).
Defined.

Lemma retired_thread_returns_within_six_steps_witness :
  (wpc_of (demo_run [half; half] (launch2 ++ init_of 0 ++ [TMain; TMain])) 0 <> WNotLaunched
   /\ flag (retire (demo_run [half; half] (launch2 ++ init_of 0 ++ [TMain; TMain]))) 0 = true
   /\ (6 <= own_steps 0 (iteration_of 0))%nat)
  /\ wpc_of
       (demo_from [half; half] (iteration_of 0)
          (demo_run [half; half] (launch2 ++ init_of 0 ++ [TMain; TMain]))) 0
     = WExited.
Proof.
  assert (Hl : wpc_of (demo_run [half; half] (launch2 ++ init_of 0 ++ [TMain; TMain])) 0
               <> WNotLaunched)
    by (vm_compute; discriminate).
  assert (Hf : flag (retire (demo_run [half; half] (launch2 ++ init_of 0 ++ [TMain; TMain]))) 0
               = true)
    by (vm_compute; reflexivity).
  assert (Hs : (6 <= own_steps 0 (iteration_of 0))%nat) by (vm_compute; lia).
  split; [repeat split; assumption |].
  pose proof (retired_thread_returns_within_six_steps (tape_draw [half; half])
                (fun _ => 7) (fun _ => 9) (fun _ => true) 2 0%nat 0%nat
                (launch2 ++ init_of 0 ++ [TMain; TMain]) (iteration_of 0) 0%nat) as H.
  cbv zeta in H. exact (proj2 (proj2 (H Hl Hf)) Hs).
Defined.

Lemma threads_joined_before_aggregation_witness :
  mpc (demo_run [half; seven_eighths] sample_and_join) = MAggCount 1
  /\ workers (demo_step [half; seven_eighths] (TWorker 1)
                (demo_run [half; seven_eighths] sample_and_join))
     = workers (demo_run [half; seven_eighths] sample_and_join).
Proof.
  assert (Hm : mpc (demo_run [half; seven_eighths] sample_and_join) = MAggCount 1)
    by (vm_compute; reflexivity).
  split; [exact Hm |].
  pose proof (threads_joined_before_aggregation (tape_draw [half; seven_eighths])
                (fun _ => 7) (fun _ => 9) (fun _ => true) 2 0%nat 0%nat
                sample_and_join (TWorker 1)) as H.
  cbv zeta in H.
  exact (proj1 (proj2 (H (or_introl (ex_intro _ 1%nat Hm))))).
Defined.

Lemma aggregation_sums_count_twice_witness :
  (mpc (demo_run [half; seven_eighths] sample_and_join) = MAggCount 1
   /\ (2 <= supported_threads (demo_run [half; seven_eighths] sample_and_join))%nat
   /\ length (count (demo_run [half; seven_eighths] sample_and_join))
      = supported_threads (demo_run [half; seven_eighths] sample_and_join)
   /\ length (total (demo_run [half; seven_eighths] sample_and_join))
      = supported_threads (demo_run [half; seven_eighths] sample_and_join))
  /\ cell (total
             (demo_from [half; seven_eighths]
                (repeat TMain
                   (2 * (supported_threads (demo_run [half; seven_eighths] sample_and_join)
                         - 1)))
                (demo_run [half; seven_eighths] sample_and_join))) 0
     = wrap32 (cell (total (demo_run [half; seven_eighths] sample_and_join)) 0
               + sumZ (tail (count (demo_run [half; seven_eighths] sample_and_join)))).
Proof.
  assert (Hm : mpc (demo_run [half; seven_eighths] sample_and_join) = MAggCount 1)
    by (vm_compute; reflexivity).
  assert (Hn : (2 <= supported_threads (demo_run [half; seven_eighths] sample_and_join))%nat)
    by (vm_compute; lia).
  assert (Hc : length (count (demo_run [half; seven_eighths] sample_and_join))
               = supported_threads (demo_run [half; seven_eighths] sample_and_join))
    by (vm_compute; reflexivity).
  assert (Ht : length (total (demo_run [half; seven_eighths] sample_and_join))
               = supported_threads (demo_run [half; seven_eighths] sample_and_join))
    by (vm_compute; reflexivity).
  split; [repeat split; assumption |].
  pose proof (aggregation_sums_count_twice (tape_draw [half; seven_eighths])
                (fun _ => 7) (fun _ => 9) (fun _ => true)
                (demo_run [half; seven_eighths] sample_and_join)) as H.
  cbv zeta in H. exact (proj1 (proj2 (proj2 (H Hm Hn Hc Ht)))).
Defined.

Lemma output_lines_in_order_witness :
  mpc (demo_run [half; seven_eighths] (sample_and_join ++ repeat TMain 3)) = MDone
  /\ exists pi pts recs,
       stdout (demo_run [half; seven_eighths] (sample_and_join ++ repeat TMain 3))
       = [LLaunching (thread_count 2); LPrompt] ++ (LInterrupt <$> seq 0 (thread_count 2))
         ++ [LResult pi pts; LHeader]
         ++ ((fun d => LDeviation (points d) (accuracy d)) <$> recs).
Proof.
  assert (Hm : mpc (demo_run [half; seven_eighths] (sample_and_join ++ repeat TMain 3))
               = MDone)
    by (vm_compute; reflexivity).
  split; [exact Hm |].
  pose proof (output_lines_in_order (tape_draw [half; seven_eighths])
                (fun _ => 7) (fun _ => 9) (fun _ => true) 2 0%nat 0%nat
                (sample_and_join ++ repeat TMain 3)) as H.
  cbv zeta in H. exact (proj2 (proj2 H) Hm).
Defined.

Lemma one_record_per_checkpoint_witness :
  (Z.of_nat (length lead_first) < 2 ^ 64
   /\ mpc (demo_run [half; half] lead_first) <> MDone
   /\ workers (demo_run [half; half] lead_first) !! 0%nat
      = Some (mk_worker WCheckRetire 1 (to_ld half) (to_ld half)))
  /\ Z.of_nat (length (deviation (demo_run [half; half] lead_first))) = records_due 1.
Proof.
  assert (Hlen : Z.of_nat (length lead_first) < 2 ^ 64) by (vm_compute; reflexivity).
  assert (Hm : mpc (demo_run [half; half] lead_first) <> MDone)
    by (vm_compute; discriminate).
  assert (Hw : workers (demo_run [half; half] lead_first) !! 0%nat
               = Some (mk_worker WCheckRetire 1 (to_ld half) (to_ld half)))
    by (vm_compute; reflexivity).
  split; [repeat split; assumption |].
  pose proof (one_record_per_checkpoint (tape_draw [half; half])
                (fun _ => 7) (fun _ => 9) (fun _ => true) 2 0%nat 0%nat
                lead_first _ Hlen Hm Hw) as H.
  cbv beta iota delta [wi] in H. exact (proj1 H).
Defined.

Lemma arrays_sized_by_thread_count_witness :
  mpc (demo_run [half; half] launch2) <> MStart
  /\ (1 <= supported_threads (demo_run [half; half] launch2))%nat
  /\ length (count (demo_run [half; half] launch2))
     = supported_threads (demo_run [half; half] launch2).
Proof.
  assert (Hm : mpc (demo_run [half; half] launch2) <> MStart)
    by (vm_compute; discriminate).
  split; [exact Hm |].
  pose proof (arrays_sized_by_thread_count (tape_draw [half; half])
                (fun _ => 7) (fun _ => 9) (fun _ => true) 2 0%nat 0%nat
                launch2) as H.
  cbv zeta in H. destruct (H Hm) as (_ & H1 & H2 & _). split; [exact H1 | exact H2].
Defined.

Lemma total_is_loop_counter_mod_2_32_witness :
  (workers (demo_run [half; half] (launch2 ++ init_of 1 ++ repeat (TWorker 1) 4)) !! 1%nat
   = Some (mk_worker WIncTotal 0 (to_ld half) (to_ld half))
   /\ in_loop WIncTotal)
  /\ 0 <= cell (total (demo_run [half; half] (launch2 ++ init_of 1 ++ repeat (TWorker 1) 4))) 1
     < 2 ^ 32.
Proof.
  assert (Hw : workers (demo_run [half; half] (launch2 ++ init_of 1 ++ repeat (TWorker 1) 4))
               !! 1%nat
               = Some (mk_worker WIncTotal 0 (to_ld half) (to_ld half)))
    by (vm_compute; reflexivity).
  assert (Hl : in_loop WIncTotal) by exact I.
  split; [split; assumption |].
  pose proof (total_is_loop_counter_mod_2_32 (tape_draw [half; half])
                (fun _ => 7) (fun _ => 9) (fun _ => true) 2 0%nat 0%nat
                _ 1%nat _ Hw Hl) as H.
  exact (proj2 H).
Defined.

Lemma program_can_always_finish_witness :
  exists s, mpc (demo_run [half; half] (launch2 ++ init_of 0 ++ s)) = MDone.
Proof.
  pose proof (program_can_always_finish (tape_draw [half; half])
                (fun _ => 7) (fun _ => 9) (fun _ => true) 2 0%nat 0%nat
                (launch2 ++ init_of 0)) as H.
  cbv zeta in H. destruct H as [s [Hs _]].
  exists s. rewrite app_assoc. exact Hs.
Defined.

Lemma all_threads_running_at_getchar_witness :
  (mpc (demo_run [half; half] (launch2 ++ init_of 0)) = MGetchar
   /\ (1 < supported_threads (demo_run [half; half] (launch2 ++ init_of 0)))%nat)
  /\ wpc_of (demo_run [half; half] (launch2 ++ init_of 0)) 1 <> WNotLaunched
  /\ wpc_of (demo_run [half; half] (launch2 ++ init_of 0)) 1 <> WExited
  /\ flag (retire (demo_run [half; half] (launch2 ++ init_of 0))) 1 = false.
Proof.
  assert (Hm : mpc (demo_run [half; half] (launch2 ++ init_of 0)) = MGetchar)
    by (vm_compute; reflexivity).
  assert (Hk : (1 < supported_threads (demo_run [half; half] (launch2 ++ init_of 0)))%nat)
    by (vm_compute; lia).
  split; [split; assumption |].
  pose proof (all_threads_running_at_getchar (tape_draw [half; half])
                (fun _ => 7) (fun _ => 9) (fun _ => true) 2 0%nat 0%nat
                (launch2 ++ init_of 0) 1%nat) as H.
  cbv zeta in H. exact (H Hm Hk).
Defined.

Lemma single_thread_records_are_nan_witness :
  thread_count 1 = 1%nat
  /\ Forall (fun d => d = mk_deviation S754_nan 0)
       (deviation (solo_run [half; half] lead_first)).
Proof.
  assert (Hone : thread_count 1 = 1%nat) by reflexivity.
  split; [exact Hone |].
  exact (single_thread_records_are_nan (tape_draw [half; half])
           (fun _ => 7) (fun _ => 9) (fun _ => true) 1 0%nat 0%nat lead_first Hone).
Defined.

Lemma report_after_join_witness :
  (mpc late_report = aggregate_from 1 (supported_threads late_report)
   /\ (1 <= supported_threads late_report)%nat
   /\ length (count late_report) = supported_threads late_report
   /\ length (total late_report) = supported_threads late_report
   /\ 0 <= cell (count late_report) 0 < 2 ^ 32
   /\ 0 <= cell (total late_report) 0 < 2 ^ 32)
  /\ stdout (demo_from [half; half]
               (repeat TMain (2 * (supported_threads late_report - 1) + 1)) late_report)
     = stdout late_report
       ++ [LResult (calculated_pi (2 ^ 31) (2 ^ 31 + 1)) (-2147483647);
           LHeader;
           LDeviation (-2147483640)
             (accuracy (analysis_record 2 [0; 2 ^ 31] [0; 2 ^ 31 + 8]))].
Proof.
  assert (Hm : mpc late_report = aggregate_from 1 (supported_threads late_report))
    by reflexivity.
  assert (Hn : (1 <= supported_threads late_report)%nat) by (vm_compute; lia).
  assert (Hc : length (count late_report) = supported_threads late_report) by reflexivity.
  assert (Ht : length (total late_report) = supported_threads late_report) by reflexivity.
  assert (Hc0 : 0 <= cell (count late_report) 0 < 2 ^ 32) by (vm_compute; split; congruence).
  assert (Ht0 : 0 <= cell (total late_report) 0 < 2 ^ 32) by (vm_compute; split; congruence).
  split; [repeat split; first [assumption | apply Hc0 | apply Ht0] |].
  pose proof (report_after_join (tape_draw [half; half])
                (fun _ => 7) (fun _ => 9) (fun _ => true) late_report) as H.
  cbv zeta in H. destruct (H Hm Hn Hc Ht Hc0 Ht0) as (_ & _ & Hout & _).
  rewrite Hout. vm_compute. reflexivity.
Defined.

Lemma one_iteration_of_pi_count_witness :
  (workers (demo_run [half; half] (launch2 ++ init_of 0)) !! 0%nat
   = Some (mk_worker WCheckRetire 0 (S754_zero false) (S754_zero false))
   /\ flag (retire (demo_run [half; half] (launch2 ++ init_of 0))) 0 = false)
  /\ total (demo_from [half; half] (repeat (TWorker 0) 6)
              (demo_run [half; half] (launch2 ++ init_of 0)))
     = <[0%nat := wrap32 (cell (total (demo_run [half; half] (launch2 ++ init_of 0))) 0 + 1)]>
         (total (demo_run [half; half] (launch2 ++ init_of 0))).
Proof.
  assert (Hw : workers (demo_run [half; half] (launch2 ++ init_of 0)) !! 0%nat
               = Some (mk_worker WCheckRetire 0 (S754_zero false) (S754_zero false)))
    by (vm_compute; reflexivity).
  assert (Hf : flag (retire (demo_run [half; half] (launch2 ++ init_of 0))) 0 = false)
    by (vm_compute; reflexivity).
  split; [split; assumption |].
  pose proof (one_iteration_of_pi_count (tape_draw [half; half])
                (fun _ => 7) (fun _ => 9) (fun _ => true)
                (demo_run [half; half] (launch2 ++ init_of 0)) 0%nat _ Hw eq_refl Hf) as H.
  cbv zeta in H. exact (proj1 (proj2 (proj2 (proj2 (proj2 H))))).
Defined.
